(** * OpenPNM: the property store ([openpnm/core/Base.py]), the generic
    conduit conductance model ([openpnm/models/physics/misc.py]) and the
    conductance matrix of the transport algorithms.

    The store [Base] is a Python [dict] from string keys to NumPy arrays.
    It is embedded as a [gmap string ndarray] threaded through a small
    state-and-exception monad together with the records sent to the
    module-level [logger].  Arrays are one-dimensional and of dtype [bool]
    or [int64]; the assignment is embedded a second time, in [FloatBase],
    on arrays that may also be of dtype [float64] or hold strings.
    Strings are byte strings; a [gmap] lists its keys in an order of its
    own, where Python keeps the order of insertion.  The conductance
    model is embedded on IEEE 754 binary64 numbers ([spec_float]), one
    conduit at a time. *)

From Stdlib Require Import ZArith QArith Qcanon Ascii String Bool Lia.
From Stdlib Require Import Floats.SpecFloat.
From stdpp Require Import base option list sorting gmap strings numbers.

Local Open Scope string_scope.
Local Open Scope Z_scope.

(** ** Python string methods used by the store *)

Module PyStr.

(** [s.split(sep)] for a one-character separator: never empty. *)
Fixpoint split (sep : ascii) (s : string) : list string :=
  match s with
  | EmptyString => [EmptyString]
  | String c s' =>
      if Ascii.eqb c sep then EmptyString :: split sep s'
      else match split sep s' with
           | h :: t => String c h :: t
           | [] => [String c EmptyString]
           end
  end.

(** [l[0]], [l[1]] and [l[-1]] on a Python list. *)
Definition item0 {A} (l : list A) : option A := l !! 0%nat.
Definition item1 {A} (l : list A) : option A := l !! 1%nat.
Definition item_last {A} (l : list A) : option A := list.last l.

(** [s.split('.')[0]] and [s.split('.')[-1]]: defined on every string. *)
Definition head_component (s : string) : string :=
  default s (item0 (split "." s)).
Definition last_component (s : string) : string :=
  default s (item_last (split "." s)).

(** [s.lower()] on ASCII letters. *)
Definition lower_ascii (c : ascii) : ascii :=
  let n := nat_of_ascii c in
  if (Nat.leb 65 n && Nat.leb n 90)%bool then ascii_of_nat (n + 32) else c.

Fixpoint lower (s : string) : string :=
  match s with
  | EmptyString => EmptyString
  | String c s' => String (lower_ascii c) (lower s')
  end.

(** The text before the last occurrence of [sep], when there is one. *)
Fixpoint before_last (sep : ascii) (s : string) : option string :=
  match s with
  | EmptyString => None
  | String c s' =>
      match before_last sep s' with
      | Some h => Some (String c h)
      | None => if Ascii.eqb c sep then Some EmptyString else None
      end
  end.

(** [s.rsplit(sep, maxsplit=1)[0]]. *)
Definition rsplit1_head (sep : ascii) (s : string) : string :=
  default s (before_last sep s).

(** [s.startswith(p)] and [s.endswith(p)]. *)
Definition startswith (s p : string) : bool := String.prefix p s.
Fixpoint endswith (s p : string) : bool :=
  String.eqb s p ||
  match s with
  | EmptyString => false
  | String _ s' => endswith s' p
  end.

(** [sub in s] on strings. *)
Fixpoint contains (sub s : string) : bool :=
  String.prefix sub s ||
  match s with
  | EmptyString => false
  | String _ s' => contains sub s'
  end.

(** [s.strip(c)]: drop every leading and trailing [c]. *)
Fixpoint lstrip (c : ascii) (s : string) : string :=
  match s with
  | EmptyString => EmptyString
  | String d s' => if Ascii.eqb d c then lstrip c s' else s
  end.
Definition rstrip (c : ascii) (s : string) : string :=
  String.rev (lstrip c (String.rev s)).
Definition strip (c : ascii) (s : string) : string := rstrip c (lstrip c s).

(** [l.__str__()] for a list of strings without quotes or escapes. *)
Fixpoint join (sep : string) (l : list string) : string :=
  match l with
  | [] => EmptyString
  | [x] => x
  | x :: l' => x +:+ sep +:+ join sep l'
  end.
Definition repr_list (l : list string) : string :=
  "[" +:+ join ", " (map (λ x, "'" +:+ x +:+ "'") l) +:+ "]".

(** The idiom [[l.remove(L) for L in l if l.count(L) > 1]]: the list is
    walked by position while [remove] deletes the first occurrence of the
    visited item, so the walk skips the item that slides into the
    visited position. *)
Section Dedup.
Context {A : Type} `{EqDecision A}.

Definition count (x : A) (l : list A) : nat :=
  length (filter (λ y, y = x) l).

Fixpoint remove_first (x : A) (l : list A) : list A :=
  match l with
  | [] => []
  | y :: l' => if decide (y = x) then l' else y :: remove_first x l'
  end.

Fixpoint remove_dupes_from (fuel i : nat) (l : list A) : list A :=
  match fuel with
  | O => l
  | S fuel' =>
      match l !! i with
      | None => l
      | Some L =>
          if decide (1 < count L l)%nat
          then remove_dupes_from fuel' (S i) (remove_first L l)
          else remove_dupes_from fuel' (S i) l
      end
  end.

Definition remove_dupes (l : list A) : list A :=
  remove_dupes_from (length l) 0 l.
End Dedup.

End PyStr.

(** ** NumPy arrays *)

Module Np.

Inductive ndarray : Type :=
| BoolArr (l : list bool)
| IntArr (l : list Z).

Inductive dtype := dt_bool | dt_int.

Definition dtype_of (a : ndarray) : dtype :=
  match a with BoolArr _ => dt_bool | IntArr _ => dt_int end.

(** [sp.shape(a)[0]], which is also [sp.size(a)] in one dimension. *)
Definition size (a : ndarray) : nat :=
  match a with BoolArr l => length l | IntArr l => length l end.

(** Two's complement wrap-around of a [w]-bit signed integer. *)
Definition wrap (w : Z) (z : Z) : Z :=
  (z + 2 ^ (w - 1)) mod 2 ^ w - 2 ^ (w - 1).
Definition wrap64 : Z → Z := wrap 64.
Definition wrap8 : Z → Z := wrap 8.

Definition int_of_bool (b : bool) : Z := if b then 1 else 0.

(** Every entry of an integer array is an [int64]. *)
Definition is_int64 (z : Z) : Prop := - 2 ^ 63 ≤ z < 2 ^ 63.
Definition well_typed (a : ndarray) : Prop :=
  match a with BoolArr _ => True | IntArr l => Forall is_int64 l end.

Definition ones (n : nat) (d : dtype) : ndarray :=
  match d with
  | dt_bool => BoolArr (replicate n true)
  | dt_int => IntArr (replicate n 1)
  end.

Definition zeros (n : nat) (d : dtype) : ndarray :=
  match d with
  | dt_bool => BoolArr (replicate n false)
  | dt_int => IntArr (replicate n 0)
  end.

(** Broadcasting of two one-dimensional operands: equal lengths, or one
    of them of length one; [None] is NumPy's [ValueError]. *)
Definition broadcast {A B C} (f : A → B → C) (a : list A) (b : list B)
  : option (list C) :=
  if decide (length a = length b) then Some (zip_with f a b)
  else match a, b with
       | [x], _ => Some (map (f x) b)
       | _, [y] => Some (map (λ x, f x y) a)
       | _, _ => None
       end.

(** [a + b]: logical or on booleans, wrapping addition otherwise. *)
Definition add (a b : ndarray) : option ndarray :=
  match a, b with
  | BoolArr x, BoolArr y => BoolArr <$> broadcast orb x y
  | BoolArr x, IntArr y =>
      IntArr <$> broadcast (λ p q, wrap64 (int_of_bool p + q)) x y
  | IntArr x, BoolArr y =>
      IntArr <$> broadcast (λ p q, wrap64 (p + int_of_bool q)) x y
  | IntArr x, IntArr y => IntArr <$> broadcast (λ p q, wrap64 (p + q)) x y
  end.

(** [a * b]: logical and on booleans, wrapping product otherwise. *)
Definition mul (a b : ndarray) : option ndarray :=
  match a, b with
  | BoolArr x, BoolArr y => BoolArr <$> broadcast andb x y
  | BoolArr x, IntArr y =>
      IntArr <$> broadcast (λ p q, wrap64 (int_of_bool p * q)) x y
  | IntArr x, BoolArr y =>
      IntArr <$> broadcast (λ p q, wrap64 (p * int_of_bool q)) x y
  | IntArr x, IntArr y => IntArr <$> broadcast (λ p q, wrap64 (p * q)) x y
  end.

(** [sp.int8(a)]: the entries cast to 8 bits. *)
Definition int8 (a : ndarray) : list Z :=
  match a with
  | BoolArr l => map int_of_bool l
  | IntArr l => map wrap8 l
  end.

(** [a + sp.int8(b)] and [a - sp.int8(b)] on an [int64] array [a]. *)
Definition add_int8 (a : list Z) (b : ndarray) : option (list Z) :=
  broadcast (λ p q, wrap64 (p + q)) a (int8 b).
Definition sub_int8 (a : list Z) (b : ndarray) : option (list Z) :=
  broadcast (λ p q, wrap64 (p - q)) a (int8 b).

(** [a == k] on an integer array. *)
Definition eq_scalar (a : list Z) (k : Z) : list bool :=
  map (λ z, Z.eqb z k) a.

(** Positions of the true entries of a mask, counted from [i]. *)
Fixpoint nonzero_from (i : Z) (l : list bool) : list Z :=
  match l with
  | [] => []
  | b :: l' => if b then i :: nonzero_from (i + 1) l'
               else nonzero_from (i + 1) l'
  end.

Definition truth (a : ndarray) : list bool :=
  match a with
  | BoolArr l => l
  | IntArr l => map (λ z, negb (Z.eqb z 0)) l
  end.

(** [sp.where(a)[0]]. *)
Definition where_ (a : ndarray) : list Z := nonzero_from 0 (truth a).

(** [mask[ind] = True] for an integer index array: negative indices
    count from the end; an index outside [-n, n) is an [IndexError]. *)
Definition norm_index (n : nat) (i : Z) : option nat :=
  if decide (0 ≤ i < Z.of_nat n) then Some (Z.to_nat i)
  else if decide (- Z.of_nat n ≤ i < 0) then Some (Z.to_nat (i + Z.of_nat n))
  else None.

Fixpoint set_true (mask : list bool) (ind : list Z) : option (list bool) :=
  match ind with
  | [] => Some mask
  | i :: ind' =>
      match norm_index (length mask) i with
      | Some k => set_true (<[k := true]> mask) ind'
      | None => None
      end
  end.

End Np.

(** ** The store: [class Base(dict)] *)

Module Base.
Import Np.

(** Python exceptions raised by the modelled code. *)
Inductive exn : Type :=
| Exception (msg : string)
| KeyError (key : string)
| IndexError
| TypeError
| ValueError
| UnboundLocalError (name : string).

Inductive result (A : Type) : Type :=
| Ok (a : A)
| Raise (e : exn).
Arguments Ok {A} a.
Arguments Raise {A} e.

Inductive level := DEBUG | INFO | WARNING | ERROR.

(** The object's dictionary and the records received by [logger]. *)
Record state : Type := State {
  self : gmap string ndarray;
  logger : list (level * string)
}.

(** Statements run in a state, end normally or by raising, and leave a
    state behind in both cases. *)
Definition M (A : Type) : Type := state → result A * state.

Definition ret {A} (a : A) : M A := λ st, (Ok a, st).
Definition raise {A} (e : exn) : M A := λ st, (Raise e, st).
Definition bind {A B} (m : M A) (k : A → M B) : M B :=
  λ st, match m st with
        | (Ok a, st') => k a st'
        | (Raise e, st') => (Raise e, st')
        end.
Definition lift {A} (r : result A) : M A := λ st, (r, st).

Declare Scope py_scope.
Delimit Scope py_scope with py.
Notation "x <- m ;; k" := (bind m (λ x, k))
  (at level 100, m at next level, right associativity) : py_scope.
Notation "m ;;; k" := (bind m (λ _, k))
  (at level 100, right associativity) : py_scope.
Local Open Scope py_scope.

Definition keys : M (list string) := λ st, (Ok (map_to_list (self st)).*1, st).
Definition has_key (key : string) : M bool :=
  λ st, (Ok (bool_decide (is_Some (self st !! key))), st).
(** [dict.__setitem__], [dict.update({key: value})] and [del self[key]]. *)
Definition dict_setitem (key : string) (value : ndarray) : M unit :=
  λ st, (Ok (), State (<[key := value]> (self st)) (logger st)).
Definition dict_delitem (key : string) : M unit :=
  λ st, match self st !! key with
        | Some _ => (Ok (), State (delete key (self st)) (logger st))
        | None => (Raise (KeyError key), st)
        end.
(** [self[key]]: [Base] inherits [dict.__getitem__]. *)
Definition __getitem__ (key : string) : M ndarray :=
  λ st, match self st !! key with
        | Some a => (Ok a, st)
        | None => (Raise (KeyError key), st)
        end.
Definition get_self : M (gmap string ndarray) := λ st, (Ok (self st), st).
Definition log (lv : level) (msg : string) : M unit :=
  λ st, (Ok (), State (self st) (logger st ++ [(lv, msg)])%list).

(** [for x in l: acc = body(acc, x)]. *)
Fixpoint for_each {A S} (l : list A) (body : S → A → M S) (acc : S) : M S :=
  match l with
  | [] => ret acc
  | x :: l' => acc' <- body acc x ;; for_each l' body acc'
  end.

(** An argument that is [None], a [str] or a [list] of [str]. *)
Inductive pyarg : Type :=
| PyNone
| PyStr (s : string)
| PyList (l : list string).

Definition mem (x : string) (l : list string) : bool := bool_decide (x ∈ l).

(** [__init__(Np, Nt)]: the two [all] labels are written with
    [dict.update], which does not go through [__setitem__].  The
    registration in the simulation and the naming are not part of the
    dictionary and are left out. *)
Definition __init__ (Np Nt : nat) : state :=
  State (<["throat.all" := ones Nt dt_bool]>
           (<["pore.all" := ones Np dt_bool]> ∅)) [].

(** [_parse_mode(mode, allowed, single=False)]. *)
Fixpoint check_allowed (allowed : option (list string)) (mode : list string)
  : result unit :=
  match mode with
  | [] => Ok ()
  | item :: mode' =>
      match allowed with
      | Some a =>
          if negb (mem item a)
          then Raise (Exception ("'mode' must be one of the following: "
                                 +:+ PyStr.repr_list a))
          else check_allowed allowed mode'
      | None => check_allowed allowed mode'
      end
  end.

Definition as_list (a : pyarg) : result (list string) :=
  match a with
  | PyNone => Raise TypeError
  | PyStr s => Ok [s]
  | PyList l => Ok l
  end.

Definition _parse_mode (mode : pyarg) (allowed : option (list string))
  : result (list string) :=
  match as_list mode with
  | Raise e => Raise e
  | Ok mode =>
      match check_allowed allowed mode with
      | Raise e => Raise e
      | Ok _ => Ok (PyStr.remove_dupes mode)
      end
  end.

(** [_parse_mode(mode, allowed, single=True)]. *)
Definition _parse_mode_single (mode : pyarg) (allowed : option (list string))
  : result string :=
  match _parse_mode mode allowed with
  | Raise e => Raise e
  | Ok mode =>
      if decide (1 < length mode)%nat
      then Raise (Exception
             "Multiple modes received when only one mode allowed")
      else match PyStr.item0 mode with
           | Some m => Ok m
           | None => Raise IndexError
           end
  end.

(** [_parse_element(element, single=False)]. *)
Fixpoint check_elements (element : list string) : result unit :=
  match element with
  | [] => Ok ()
  | item :: element' =>
      if negb (mem item ["pore"; "throat"])
      then Raise (Exception ("Invalid element received: " +:+ item))
      else check_elements element'
  end.

Definition _parse_element (element : pyarg) : result (list string) :=
  let element :=
    match element with
    | PyNone => ["pore"; "throat"]
    | PyStr s => [s]
    | PyList l => l
    end in
  let element := map PyStr.head_component element in
  let element := map PyStr.lower element in
  let element := map (PyStr.rsplit1_head "s") element in
  match check_elements element with
  | Raise e => Raise e
  | Ok _ => Ok (PyStr.remove_dupes element)
  end.

(** [_parse_element(element, single=True)]. *)
Definition _parse_element_single (element : pyarg) : result string :=
  match _parse_element element with
  | Raise e => Raise e
  | Ok element =>
      if decide (1 < length element)%nat
      then Raise (Exception
             "Both elements recieved when single element allowed")
      else match PyStr.item0 element with
           | Some e => Ok e
           | None => Raise IndexError
           end
  end.

(** [_count(element)] for a single element: the size of its [all].  A
    string is parsed to one element, so the dictionary that is returned
    for two elements does not arise; the last branch stands for it. *)
Definition _count (element : string) : M nat :=
  element <- lift (_parse_element (PyStr element)) ;;
  temp <- for_each element
            (λ acc e, a <- __getitem__ (e +:+ ".all") ;; ret (acc ++ [size a])%list)
            [] ;;
  match temp with
  | [n] => ret n
  | _ => raise TypeError
  end.

(** The properties [Np] and [Nt]: [sp.shape(self.get(...))[0]]. *)
Definition count_prop (key : string) : M nat :=
  λ st, match self st !! key with
        | Some a => (Ok (size a), st)
        | None => (Raise IndexError, st)
        end.
Definition Np : M nat := count_prop "pore.all".
Definition Nt : M nat := count_prop "throat.all".

(** [__setitem__(key, value)]; [value] stands for the array
    [sp.array(value, ndmin=1)] that the first statement builds, so a
    scalar is an array of length one. *)
Definition protected_keys : list string := ["all"].

Definition __setitem__ (key : string) (value : ndarray) : M unit :=
  let element := PyStr.head_component key in
  if String.eqb element "constant" then dict_setitem key value
  else
    element <- lift (_parse_element_single (PyStr element)) ;;
    if mem key ["pore.coords"; "throat.conns"] then dict_setitem key value
    else
      match PyStr.item1 (PyStr.split "." key) with
      | None => raise IndexError
      | Some name =>
          if mem name protected_keys then
            defined <- has_key key ;;
            if defined : bool then
              old <- __getitem__ key ;;
              if decide (size old = 0%nat) then dict_setitem key value
              else log WARNING (key +:+ " is already defined.")
            else dict_setitem key value
          else if decide (size value = 1%nat) then
            log DEBUG ("Broadcasting scalar value into vector: " +:+ key) ;;;
            n <- _count element ;;
            match mul (ones n (dtype_of value)) value with
            | Some value => dict_setitem key value
            | None => raise ValueError
            end
          else
            n <- _count element ;;
            if decide (size value = n) then
              log DEBUG ("Updating vector: " +:+ key) ;;;
              dict_setitem key value
            else
              n <- _count element ;;
              if decide (n = 0%nat) then dict_setitem key value
              else raise (Exception
                     ("Cannot write an array, wrong length: " +:+ key))
      end.

Definition is_bool (d : gmap string ndarray) (key : string) : bool :=
  match d !! key with
  | Some (BoolArr _) => true
  | _ => false
  end.

(** [props(element, mode)] on an object without a [models] attribute,
    which [Base] does not define. *)
Definition props (element mode : pyarg) : M (list string) :=
  let allowed_modes := ["all"; "data"; "models"; "constants"] in
  mode <- lift (_parse_mode mode (Some allowed_modes)) ;;
  let mode := if mem "all" mode then allowed_modes else mode in
  element <- lift (_parse_element element) ;;
  ks <- keys ;;
  d <- get_self ;;
  let vals := if mem "data" mode then ks else [] in
  let vals := filter (λ i, PyStr.head_component i ∈ element) vals in
  let vals := filter (λ i, is_bool d i = false) vals in
  ret vals.

(** [clear(element, mode)]. *)
Definition clear (element mode : pyarg) : M unit :=
  let allowed := ["constants"; "labels"; "models"; "all"] in
  mode <- lift (_parse_mode mode (Some allowed)) ;;
  items <- props element (PyList mode) ;;
  for_each items
    (λ _ item,
       if negb (mem item ["pore.all"; "throat.all"]) then dict_delitem item
       else ret ())
    ().

(** [labels(element=element)] with [pores] and [throats] left empty:
    the keys of each requested element that hold a boolean array.  The
    source gathers them through a [set], whose order of iteration Python
    does not fix; the list has them in the order of the [gmap], and the
    statements made of it below are about its members only. *)
Definition labels (element : pyarg) : M (list string) :=
  element <- lift (_parse_element element) ;;
  ks <- keys ;;
  d <- get_self ;;
  for_each element
    (λ acc item,
       let a := filter (λ key, PyStr.head_component key = item) ks in
       ret (acc ++ filter (λ key, is_bool d key = true) a)%list)
    [].

(** [_parse_labels(labels, element)]: [parse_label] is the body of its
    loop over the labels and [strip_element] its first statement, which
    removes the element from the label.  The variable [temp] outlives an
    iteration, and is unbound until the first assignment. *)
Definition wildcard (label : string) (Ls : list string)
    (temp : option (list string)) : option (list string) :=
  let temp :=
    if PyStr.startswith label "*"
    then Some (filter (λ L, PyStr.endswith L (PyStr.strip "*" label) = true) Ls)
    else temp in
  let temp :=
    if PyStr.endswith label "*"
    then Some (filter (λ L, PyStr.startswith L (PyStr.strip "*" label) = true) Ls)
    else temp in
  temp.

Definition strip_element (element label : string) : string :=
  if PyStr.contains element label then PyStr.last_component label else label.

Definition parse_label (element : string)
    (loop : list string * option (list string)) (label : string)
  : M (list string * option (list string)) :=
  let '(parsed_labels, temp) := loop in
  let label := strip_element element label in
  temp <-
    (if PyStr.contains "*" label then
       Ls <- labels (PyStr element) ;;
       let Ls := map PyStr.last_component Ls in
       match wildcard label Ls temp with
       | None => raise (UnboundLocalError "temp")
       | Some temp => ret (map (λ L, element +:+ "." +:+ L) temp)
       end
     else
       found <- has_key (element +:+ "." +:+ label) ;;
       if found : bool then ret [element +:+ "." +:+ label]
       else
         log WARNING
           ("'" +:+ element +:+ "." +:+ label +:+ "' not found") ;;;
         ret [element +:+ "." +:+ label]) ;;
  ret (PyStr.remove_dupes (parsed_labels ++ temp)%list, Some temp).

Definition _parse_labels (labels_arg : pyarg) (element : string)
  : M (list string) :=
  match labels_arg with
  | PyNone => raise (Exception "Labels cannot be None")
  | _ =>
      let labels_list :=
        match labels_arg with
        | PyStr s => [s]
        | PyList l => l
        | PyNone => []
        end in
      loop <- for_each labels_list (parse_label element) ([], None) ;;
      ret (fst loop)
  end.

Definition lift_np {A} (o : option A) : M A :=
  match o with
  | Some a => ret a
  | None => raise ValueError
  end.

(** [_get_indices(element, labels, mode)]. *)
Definition _get_indices (element labels_arg mode : pyarg) : M (list Z) :=
  let allowed :=
    ["union"; "intersection"; "not_intersection"; "not"; "difference"] in
  mode <- lift (_parse_mode_single mode (Some allowed)) ;;
  element <- lift (_parse_element_single element) ;;
  parsed <- _parse_labels labels_arg element ;;
  found <- has_key (element +:+ ".all") ;;
  if negb found
  then raise (Exception ("Cannot proceed without " +:+ element +:+ ".all"))
  else
    let key item := element +:+ "." +:+ PyStr.last_component item in
    ind <-
      (if mem mode ["union"] then
         all <- __getitem__ (element +:+ ".all") ;;
         for_each parsed
           (λ union item, a <- __getitem__ (key item) ;; lift_np (add union a))
           (zeros (size all) dt_bool)
       else if mem mode ["intersection"] then
         all <- __getitem__ (element +:+ ".all") ;;
         for_each parsed
           (λ intersect item,
              a <- __getitem__ (key item) ;; lift_np (mul intersect a))
           (ones (size all) dt_bool)
       else if mem mode ["not_intersection"] then
         all <- __getitem__ (element +:+ ".all") ;;
         not_intersect <- for_each parsed
           (λ not_intersect item,
              info <- __getitem__ (key item) ;;
              lift_np (add_int8 not_intersect info))
           (replicate (size all) 0) ;;
         ret (BoolArr (eq_scalar not_intersect 1))
       else if mem mode ["not"; "difference"] then
         all <- __getitem__ (element +:+ ".all") ;;
         none <- for_each parsed
           (λ none item,
              info <- __getitem__ (key item) ;;
              lift_np (sub_int8 none info))
           (replicate (size all) 0) ;;
         ret (BoolArr (eq_scalar none 0))
       else raise (UnboundLocalError "ind")) ;;
    ret (where_ ind).

(** [pores(labels, mode)] and [throats(labels, mode)]. *)
Definition pores (labels_arg mode : pyarg) : M (list Z) :=
  _get_indices (PyStr "pore") labels_arg mode.
Definition throats (labels_arg mode : pyarg) : M (list Z) :=
  _get_indices (PyStr "throat") labels_arg mode.

(** The properties [Ps] and [Ts]: [sp.arange(0, self.Np)]. *)
Definition arange (n : nat) : list Z := map Z.of_nat (seq 0 n).
Definition Ps : M (list Z) := n <- Np ;; ret (arange n).
Definition Ts : M (list Z) := n <- Nt ;; ret (arange n).

(** [a[mask]] for a boolean mask as long as [a]. *)
Fixpoint select {A} (a : list A) (mask : list bool) : list A :=
  match a, mask with
  | x :: a', b :: mask' => if b then x :: select a' mask' else select a' mask'
  | _, _ => []
  end.

(** [_parse_indices(indices)]; [None] stands for the argument [None]. *)
Definition _parse_indices (indices : option ndarray) : M (list Z) :=
  match default (IntArr []) indices with
  | BoolArr locs =>
      np <- Np ;;
      if decide (length locs = np) then
        ps <- Ps ;; ret (select ps locs)
      else
        nt <- Nt ;;
        if decide (length locs = nt) then
          ts <- Ts ;; ret (select ts locs)
        else raise (Exception
               "Boolean list of locations must be either Np nor Nt long")
  | IntArr locs => ret locs
  end.

(** [_tomask(indices, element)]. *)
Definition _tomask (indices : option ndarray) (element : pyarg)
  : M ndarray :=
  element <- lift (_parse_element_single element) ;;
  indices <- _parse_indices indices ;;
  all <- __getitem__ (element +:+ ".all") ;;
  match set_true (replicate (size all) false) indices with
  | Some mask => ret (BoolArr mask)
  | None => raise IndexError
  end.

(** [tomask(pores=None, throats=None)]. *)
Definition tomask (pores_arg throats_arg : option ndarray) : M ndarray :=
  match pores_arg, throats_arg with
  | Some _, None => _tomask pores_arg (PyStr "pore")
  | None, Some _ => _tomask throats_arg (PyStr "throat")
  | _, _ => raise (Exception "Cannot specify both pores and throats")
  end.

(** [toindices(mask)]. *)
Definition toindices (mask : ndarray) : M (list Z) :=
  _parse_indices (Some mask).

(** [a[locations]] for an integer index array [locations]: negative
    indices count from the end; an index outside [-n, n) is an
    [IndexError], written [None]. *)
Fixpoint take_at {A} (a : list A) (locations : list Z) : option (list A) :=
  match locations with
  | [] => Some []
  | i :: locations' =>
      match norm_index (length a) i with
      | Some k =>
          match a !! k, take_at a locations' with
          | Some x, Some r => Some (x :: r)
          | _, _ => None
          end
      | None => None
      end
  end.

(** [sp.sum(a)] of a boolean array: the number of its true entries. *)
Definition sum_bool (a : list bool) : Z :=
  Z.of_nat (length (filter (λ b, b = true) a)).

(** What [labels] returns: an array of counts, a list of keys, the
    boolean array [arr] by rows, a list of keys per location, or [None]. *)
Inductive label_query : Type :=
| Counts (c : list Z)
| Names (l : list string)
| Mask (arr : list (list bool))
| PerLocation (l : list (list string))
| NoValue.

(** [_get_labels(element, locations, mode)].  The array [arr] is kept by
    columns, one per label and in the order of the sorted labels; the row
    of a location is read across the columns. *)
Definition _get_labels (element : pyarg) (locations : option ndarray)
    (mode : pyarg) : M label_query :=
  locations <- _parse_indices locations ;;
  let allowed :=
    ["none"; "union"; "intersection"; "not"; "count"; "mask"; "difference"] in
  mode <- lift (_parse_mode_single mode (Some allowed)) ;;
  element <- lift (_parse_element element) ;;
  ks <- keys ;;
  d <- get_self ;;
  let a := filter (λ k, PyStr.head_component k ∈ element) ks in
  let labels := merge_sort String.le (filter (λ k, is_bool d k = true) a) in
  arr <- for_each labels
           (λ arr item,
              col <- __getitem__ item ;;
              match take_at (truth col) locations with
              | Some c => ret (arr ++ [c])%list
              | None => raise IndexError
              end)
           [] ;;
  let n := length locations in
  let row (i : nat) := map (λ c, default false (c !! i)) arr in
  if mem mode ["count"] then
    ret (Counts (map (λ i, sum_bool (row i)) (seq 0 n)))
  else if mem mode ["union"] then
    ret (Names (select labels (map (λ c, 0 <? sum_bool c) arr)))
  else if mem mode ["intersection"] then
    ret (Names (select labels (map (λ c, sum_bool c =? Z.of_nat n) arr)))
  else if mem mode ["not"; "difference"] then
    ret (Names
           (select labels (map (λ c, negb (sum_bool c =? Z.of_nat n)) arr)))
  else if mem mode ["mask"] then
    ret (Mask (map row (seq 0 n)))
  else if mem mode ["none"] then
    ret (PerLocation (map (λ i, select labels (row i)) (seq 0 n)))
  else
    log ERROR ("unrecognized mode:" +:+ mode) ;;; ret NoValue.

(** [labels(pores, throats, element, mode)] in full; [labels] above is
    its first branch, taken when no pores and no throats are given. *)
Definition labels_of (pores_arg throats_arg : ndarray) (element mode : pyarg)
  : M label_query :=
  if decide (size pores_arg = 0 ∧ size throats_arg = 0)%nat then
    l <- labels element ;; ret (Names l)
  else if decide (0 < size pores_arg ∧ 0 < size throats_arg)%nat then
    raise (Exception
      "Cannot perform label query on pores and throats simultaneously")
  else if decide (0 < size pores_arg)%nat then
    _get_labels (PyStr "pore") (Some pores_arg) mode
  else if decide (0 < size throats_arg)%nat then
    _get_labels (PyStr "throat") (Some throats_arg) mode
  else ret (Names []).

(** [_map(ids, element, filtered)].  [hash_map] is
    [dict(zip(self[element+'._id'], locations))], in which a later pair
    replaces an earlier one with the same id; boolean ids hash and compare
    as 0 and 1. *)
Definition as_ints (a : ndarray) : list Z :=
  match a with
  | BoolArr l => map int_of_bool l
  | IntArr l => l
  end.

Definition hash_map (ids locations : list Z) : gmap Z Z :=
  fold_left (λ h kv, <[kv.1 := kv.2]> h) (zip ids locations) ∅.

Definition _map (ids : ndarray) (element : string) (filtered : bool)
  : M (list Z + list Z * list bool) :=
  locations <- _get_indices (PyStr element) (PyStr "all") (PyStr "union") ;;
  id_arr <- __getitem__ (element +:+ "._id") ;;
  let h := hash_map (as_ints id_arr) locations in
  let ind := map (λ i, default (-1) (h !! i)) (as_ints ids) in
  match set_true (replicate (size ids) false)
          (where_ (BoolArr (map (λ z, 0 <=? z) ind))) with
  | Some mask =>
      if filtered then ret (inl (select ind mask))
      else ret (inr (ind, mask))
  | None => raise IndexError
  end.

(** [filter_by_label(pores, throats, labels, mode)]; [filter_locations]
    is the part of the body below the choice of the element. *)
Definition filter_locations (element : string) (locations : ndarray)
    (labels_arg : pyarg) (mode : string) : M (list Z) :=
  locations <- _parse_indices (Some locations) ;;
  parsed <- _parse_labels labels_arg element ;;
  let parsed :=
    map (λ item, element +:+ "." +:+ PyStr.last_component item) parsed in
  all_locs <- _get_indices (PyStr element) (PyList parsed) (PyStr mode) ;;
  mask <- _tomask (Some (IntArr all_locs)) (PyStr element) ;;
  match mask with
  | BoolArr mask =>
      match take_at mask locations with
      | Some ind => ret (select locations ind)
      | None => raise IndexError
      end
  | IntArr mask =>
      match take_at mask locations with
      | Some ind =>
          match take_at locations ind with
          | Some r => ret r
          | None => raise IndexError
          end
      | None => raise IndexError
      end
  end.

Definition filter_by_label (pores_arg throats_arg : ndarray)
    (labels_arg mode : pyarg) : M (list Z) :=
  let allowed := ["union"; "intersection"; "not_intersection"; "not"] in
  mode <- lift (_parse_mode_single mode (Some allowed)) ;;
  if decide (0 < size throats_arg ∧ 0 < size pores_arg)%nat then
    raise (Exception "Can only filter either pores OR labels per call")
  else if decide (0 < size pores_arg)%nat then
    filter_locations "pore" pores_arg labels_arg mode
  else if decide (0 < size throats_arg)%nat then
    filter_locations "throat" throats_arg labels_arg mode
  else ret [].

(** [num_pores(labels, mode)] and [num_throats(labels, mode)]. *)
Definition num_pores (labels_arg mode : pyarg) : M nat :=
  ps <- _get_indices (PyStr "pore") labels_arg mode ;; ret (length ps).
Definition num_throats (labels_arg mode : pyarg) : M nat :=
  ts <- _get_indices (PyStr "throat") labels_arg mode ;; ret (length ts).

End Base.

(** ** The generic conductance of a conduit *)

(** [generic_conductance] works on arrays with one entry per throat; the
    embedding follows one entry, given the values the function gathers for
    it from the network and the phase.  The powers [x**2], [x**0.5] and
    [x**(-1)] are the product [x*x], the square root and the reciprocal
    [1/x], as NumPy computes them for these scalar exponents. *)

Module Physics.

(** NumPy [float64] values are IEEE 754 binary64 numbers. *)
Definition prec : Z := 53.
Definition emax : Z := 1024.

Definition fadd : spec_float → spec_float → spec_float := SFadd prec emax.
Definition fmul : spec_float → spec_float → spec_float := SFmul prec emax.
Definition fsqrt : spec_float → spec_float := SFsqrt prec emax.
Definition fopp : spec_float → spec_float := SFopp.
Definition fsub : spec_float → spec_float → spec_float := SFsub prec emax.

Definition inf : spec_float := S754_infinity false.
Definition zero : spec_float := S754_zero false.
Definition f1 : spec_float := S754_finite false 4503599627370496 (-52).
Definition f4 : spec_float := S754_finite false 4503599627370496 (-50).
Definition f8 : spec_float := S754_finite false 4503599627370496 (-49).
Definition f192 : spec_float := S754_finite false 6755399441055744 (-45).
Definition pi : spec_float := S754_finite false 7074237752028440 (-51).

(** A computation returns its value and the sticky IEEE flag
    "division by zero", which NumPy reports as a warning. *)
Definition FP (A : Type) : Type := A * bool.
Definition ret {A} (a : A) : FP A := (a, false).
Definition bind {A B} (m : FP A) (k : A → FP B) : FP B :=
  let '(a, flag) := m in let '(b, flag') := k a in (b, flag || flag').

Declare Scope fp_scope.
Delimit Scope fp_scope with fp.
Notation "x <- m ;; k" := (bind m (λ x, k))
  (at level 100, m at next level, right associativity) : fp_scope.
Local Open Scope fp_scope.

(** [x / y]: the flag is raised by a finite non-zero [x] over a zero. *)
Definition fdiv (x y : spec_float) : FP spec_float :=
  (SFdiv prec emax x y,
   match x, y with
   | S754_finite _ _ _, S754_zero _ => true
   | _, _ => false
   end).

(** [L != 0] on floats: false on both zeros, true on NaN. *)
Definition nonzero (L : spec_float) : bool := negb (SFeqb L zero).

Inductive segment := pore1 | throat | pore2.

(** The values gathered for one conduit. *)
Record conduit : Type := Conduit {
  area : segment → spec_float;
  conduit_length : segment → spec_float;
  shape_factor : segment → spec_float;
  diffusivity : segment → spec_float;
  pressure1 : spec_float;
  pressure2 : spec_float;
  hydraulic_conductance : spec_float
}.

Inductive transport_type :=
| flow
| diffusion
| taylor_aris_diffusion
| unknown.

(** The function returns a value, or raises for a transport type it does
    not know; the message is cut after its first words. *)
Inductive outcome : Type :=
| Returns (g : spec_float) (divide_by_zero : bool)
| Raises (msg : string).

(** [Qt = -gh*_sp.diff(P[cn], axis=1).squeeze()]. *)
Definition Qt (c : conduit) : spec_float :=
  fmul (fopp (hydraulic_conductance c)) (fsub (pressure2 c) (pressure1 c)).

(** The conductance [g1], [g2] or [gt] of one segment: infinite where the
    mask [Li != 0] is false, the formula of the transport type elsewhere,
    and the preallocated zero when no formula is applied. *)
Definition segment_conductance (t : transport_type) (c : conduit)
    (s : segment) : FP spec_float :=
  let A := area c s in
  let D := diffusivity c s in
  let L := conduit_length c s in
  if nonzero L then
    match t with
    | flow => fdiv (fmul A A) (fmul (fmul (fmul f8 pi) D) L)
    | diffusion => fdiv (fmul D A) L
    | taylor_aris_diffusion =>
        u <- fdiv (Qt c) A ;;
        x <- fdiv (fmul f4 A) pi ;;
        Pe <- fdiv (fmul u (fsqrt x)) D ;;
        y <- fdiv (fmul Pe Pe) f192 ;;
        fdiv (fmul (fmul D (fadd f1 y)) A) L
    | unknown => ret zero
    end
  else ret inf.

(** [generic_conductance] on one conduit:
    [(1/gt/SFt + 1/g1/SF1 + 1/g2/SF2)**(-1)]. *)
Definition generic_conductance (t : transport_type) (c : conduit) : outcome :=
  match t with
  | unknown =>
      Raises "Unknown keyword for transport_type"
  | _ =>
      let '(g, flag) :=
        g1 <- segment_conductance t c pore1 ;;
        g2 <- segment_conductance t c pore2 ;;
        gt <- segment_conductance t c throat ;;
        a <- fdiv f1 gt ;;
        rt <- fdiv a (shape_factor c throat) ;;
        b <- fdiv f1 g1 ;;
        r1 <- fdiv b (shape_factor c pore1) ;;
        d <- fdiv f1 g2 ;;
        r2 <- fdiv d (shape_factor c pore2) ;;
        fdiv f1 (fadd (fadd rt r1) r2) in
      Returns g flag
  end.

(** The series combination of two segments, as the conduit formula
    computes it for three. *)
Definition resistance (t : transport_type) (c : conduit) (s : segment)
  : FP spec_float :=
  g <- segment_conductance t c s ;;
  a <- fdiv f1 g ;;
  fdiv a (shape_factor c s).

Definition series_of_two (t : transport_type) (c : conduit)
    (s s' : segment) : FP spec_float :=
  r <- resistance t c s ;;
  r' <- resistance t c s' ;;
  fdiv f1 (fadd r r').

(** The segments left when [s] is taken out, in the order of the sum. *)
Definition series_without (t : transport_type) (c : conduit) (s : segment)
  : FP spec_float :=
  match s with
  | pore1 => series_of_two t c throat pore2
  | throat => series_of_two t c pore1 pore2
  | pore2 => series_of_two t c throat pore1
  end.

(** Sign bit clear, NaN included; and strictly positive. *)
Definition nonneg (x : spec_float) : bool :=
  match x with
  | S754_nan => true
  | S754_zero s | S754_infinity s | S754_finite s _ _ => negb s
  end.

Definition positive (x : spec_float) : bool :=
  match x with
  | S754_infinity s | S754_finite s _ _ => negb s
  | _ => false
  end.

(** A conduit with the same area, shape factor and diffusivity on its
    three segments, the length [L1] on the first pore and [L] elsewhere,
    and no pressure difference. *)
Definition uniform (A L SF D : spec_float) (L1 : spec_float) : conduit :=
  Conduit (λ _, A)
    (λ s, match s with pore1 => L1 | _ => L end)
    (λ _, SF) (λ _, D) zero zero zero.

(** The value and the flag of a computation, as an outcome. *)
Definition returns (m : FP spec_float) : outcome := Returns m.1 m.2.

End Physics.

(** ** The conductance matrix *)

Module Assembler.

Local Open Scope Qc_scope.

(** Modelled from the spec: the error of the assembler for a self-loop or
    an endpoint outside [0, N); the transport algorithms are not among
    the sources. *)
Inductive error := InvalidTopology.

(** Modelled from the spec: the sparse N by N matrix [A], kept as a map
    from positions to rational entries; an absent position holds zero. *)
Definition entry (A : gmap (nat * nat) Qc) (i j : nat) : Qc :=
  default 0 (A !! (i, j)).

(** Modelled from the spec: [A[i,j] += g]. *)
Definition add_entry (A : gmap (nat * nat) Qc) (i j : nat) (g : Qc)
  : gmap (nat * nat) Qc :=
  <[(i, j) := entry A i j + g]> A.

(** Modelled from the spec: the four updates made for an edge [(i,j)] of
    conductance [g]: [A[i,i] += g], [A[j,j] += g], [A[i,j] -= g],
    [A[j,i] -= g]. *)
Definition add_edge (A : gmap (nat * nat) Qc) (i j : nat) (g : Qc)
  : gmap (nat * nat) Qc :=
  add_entry (add_entry (add_entry (add_entry A i i g) j j g) i j (- g)) j i (- g).

(** Modelled from the spec: the assembly over the connectivity table and
    the per-edge conductances.  An edge that is a self-loop or names a
    node outside [0, N) fails; an edge of conductance zero contributes
    nothing. *)
Fixpoint assemble_from (A : gmap (nat * nat) Qc) (N : nat)
    (conns : list (nat * nat)) (g : list Qc) : error + gmap (nat * nat) Qc :=
  match conns, g with
  | (i, j) :: conns', ge :: g' =>
      if decide (i = j ∨ N ≤ i ∨ N ≤ j)%nat then inl InvalidTopology
      else assemble_from (if decide (ge = 0) then A else add_edge A i j ge)
             N conns' g'
  | _, _ => inr A
  end.

Definition assemble (N : nat) (conns : list (nat * nat)) (g : list Qc)
  : error + gmap (nat * nat) Qc :=
  assemble_from ∅ N conns g.

(** The sum of [f j] over [j < N], and the sum of a row. *)
Fixpoint sum_upto (f : nat → Qc) (N : nat) : Qc :=
  match N with
  | O => 0
  | S n => sum_upto f n + f n
  end.

Definition row_sum (A : gmap (nat * nat) Qc) (N i : nat) : Qc :=
  sum_upto (entry A i) N.

Definition symmetric (A : gmap (nat * nat) Qc) : Prop :=
  ∀ i j, entry A i j = entry A j i.

(** An edge names two distinct nodes of [0, N). *)
Definition valid_edge (N : nat) (e : nat * nat) : Prop :=
  (e.1 < N ∧ e.2 < N ∧ e.1 ≠ e.2)%nat.

(** The contribution [g] of an index [a] at the position [i]. *)
Definition ind (a i : nat) (g : Qc) : Qc := if decide (a = i) then g else 0.

End Assembler.

(** ** File names of the VTK reader and writer ([openpnm/io/VTK.py]) *)

Module VTK.

(** The file [save(simulation, filename)] writes: an empty name is
    replaced by the name of the network; the test
    [if ~filename.endswith('.vtp')] applies the bitwise complement to a
    Python [bool], that is to the integer 0 or 1, and takes the truth
    value of the resulting integer. *)
Definition save_filename (filename network_name : string) : string :=
  let filename :=
    if String.eqb filename EmptyString then network_name else filename in
  if negb (Z.eqb (Z.lnot (Np.int_of_bool (PyStr.endswith filename ".vtp"))) 0)
  then filename +:+ ".vtp"
  else filename.

(** The file [load(filename)] parses:
    [filename.rsplit('.', maxsplit=1)[0] + '.vtp']. *)
Definition load_filename (filename : string) : string :=
  PyStr.rsplit1_head "." filename +:+ ".vtp".

End VTK.

(** ** The assignment on arrays of further dtypes *)

(** The first statement of [__setitem__] turns the value into an array
    of the value's own dtype: a Python [float] gives a [float64] array and
    a [str] an array of strings.  [FloatBase] embeds the assignment a
    second time, on a dictionary whose arrays are of one of these four
    dtypes; on boolean and [int64] arrays it is the assignment of [Base]. *)
Module FloatBase.
Import Base.

Inductive ndarray : Type :=
| BoolArr (l : list bool)
| IntArr (l : list Z)
| FloatArr (l : list spec_float)
| StrArr (l : list string).

Inductive dtype := dt_bool | dt_int | dt_float | dt_str.

Definition dtype_of (a : ndarray) : dtype :=
  match a with
  | BoolArr _ => dt_bool
  | IntArr _ => dt_int
  | FloatArr _ => dt_float
  | StrArr _ => dt_str
  end.

Definition size (a : ndarray) : nat :=
  match a with
  | BoolArr l => length l
  | IntArr l => length l
  | FloatArr l => length l
  | StrArr l => length l
  end.

(** Every entry of an integer array is an [int64], and every entry of a
    float array a binary64 number. *)
Definition is_float64 (x : spec_float) : Prop :=
  valid_binary Physics.prec Physics.emax x = true.

Definition well_typed (a : ndarray) : Prop :=
  match a with
  | BoolArr _ | StrArr _ => True
  | IntArr l => Forall Np.is_int64 l
  | FloatArr l => Forall is_float64 l
  end.

(** [sp.ones((n, ), dtype=d)]; with a string dtype every entry is '1'. *)
Definition ones (n : nat) (d : dtype) : ndarray :=
  match d with
  | dt_bool => BoolArr (replicate n true)
  | dt_int => IntArr (replicate n 1)
  | dt_float => FloatArr (replicate n Physics.f1)
  | dt_str => StrArr (replicate n "1")
  end.

(** The conversion of a boolean and of an [int64] to [float64], the
    second rounding to the nearest binary64 number. *)
Definition float_of_bool (b : bool) : spec_float :=
  if b then Physics.f1 else Physics.zero.
Definition float_of_int (z : Z) : spec_float :=
  binary_normalize Physics.prec Physics.emax z 0 false.

Definition as_float (a : ndarray) : option (list spec_float) :=
  match a with
  | BoolArr l => Some (map float_of_bool l)
  | IntArr l => Some (map float_of_int l)
  | FloatArr l => Some l
  | StrArr _ => None
  end.

Definition lift_np {A} (o : option A) : result A :=
  match o with
  | Some a => Ok a
  | None => Raise ValueError
  end.

(** [a * b]: as in [Np] on booleans and integers, the binary64 product
    of the converted operands once one of them is a float, and a
    [TypeError] once one of them holds strings, for which [multiply] has
    no loop. *)
Definition mul (a b : ndarray) : result ndarray :=
  match a, b with
  | BoolArr x, BoolArr y => lift_np (BoolArr <$> Np.broadcast andb x y)
  | BoolArr x, IntArr y =>
      lift_np (IntArr <$>
        Np.broadcast (λ p q, Np.wrap64 (Np.int_of_bool p * q)) x y)
  | IntArr x, BoolArr y =>
      lift_np (IntArr <$>
        Np.broadcast (λ p q, Np.wrap64 (p * Np.int_of_bool q)) x y)
  | IntArr x, IntArr y =>
      lift_np (IntArr <$> Np.broadcast (λ p q, Np.wrap64 (p * q)) x y)
  | _, _ =>
      match as_float a, as_float b with
      | Some x, Some y => lift_np (FloatArr <$> Np.broadcast Physics.fmul x y)
      | _, _ => Raise TypeError
      end
  end.

(** The object's dictionary and the records received by [logger]. *)
Record state : Type := State {
  self : gmap string ndarray;
  logger : list (level * string)
}.

Definition M (A : Type) : Type := state → result A * state.

Definition ret {A} (a : A) : M A := λ st, (Ok a, st).
Definition raise {A} (e : exn) : M A := λ st, (Raise e, st).
Definition bind {A B} (m : M A) (k : A → M B) : M B :=
  λ st, match m st with
        | (Ok a, st') => k a st'
        | (Raise e, st') => (Raise e, st')
        end.
Definition lift {A} (r : result A) : M A := λ st, (r, st).

Declare Scope fpy_scope.
Delimit Scope fpy_scope with fpy.
Notation "x <- m ;; k" := (bind m (λ x, k))
  (at level 100, m at next level, right associativity) : fpy_scope.
Notation "m ;;; k" := (bind m (λ _, k))
  (at level 100, right associativity) : fpy_scope.
Local Open Scope fpy_scope.

Definition has_key (key : string) : M bool :=
  λ st, (Ok (bool_decide (is_Some (self st !! key))), st).
Definition dict_setitem (key : string) (value : ndarray) : M unit :=
  λ st, (Ok (), State (<[key := value]> (self st)) (logger st)).
Definition __getitem__ (key : string) : M ndarray :=
  λ st, match self st !! key with
        | Some a => (Ok a, st)
        | None => (Raise (KeyError key), st)
        end.
Definition log (lv : level) (msg : string) : M unit :=
  λ st, (Ok (), State (self st) (logger st ++ [(lv, msg)])%list).

Fixpoint for_each {A S} (l : list A) (body : S → A → M S) (acc : S) : M S :=
  match l with
  | [] => ret acc
  | x :: l' => acc' <- body acc x ;; for_each l' body acc'
  end.

(** [__init__(Np, Nt)], as in [Base]. *)
Definition __init__ (Np Nt : nat) : state :=
  State (<["throat.all" := ones Nt dt_bool]>
           (<["pore.all" := ones Np dt_bool]> ∅)) [].

(** [_count(element)] for a single element, as in [Base]. *)
Definition _count (element : string) : M nat :=
  element <- lift (_parse_element (PyStr element)) ;;
  temp <- for_each element
            (λ acc e, a <- __getitem__ (e +:+ ".all") ;; ret (acc ++ [size a])%list)
            [] ;;
  match temp with
  | [n] => ret n
  | _ => raise TypeError
  end.

(** [__setitem__(key, value)]; [value] stands for the array
    [sp.array(value, ndmin=1)]. *)
Definition __setitem__ (key : string) (value : ndarray) : M unit :=
  let element := PyStr.head_component key in
  if String.eqb element "constant" then dict_setitem key value
  else
    element <- lift (_parse_element_single (PyStr element)) ;;
    if mem key ["pore.coords"; "throat.conns"] then dict_setitem key value
    else
      match PyStr.item1 (PyStr.split "." key) with
      | None => raise IndexError
      | Some name =>
          if mem name protected_keys then
            defined <- has_key key ;;
            if defined : bool then
              old <- __getitem__ key ;;
              if decide (size old = 0%nat) then dict_setitem key value
              else log WARNING (key +:+ " is already defined.")
            else dict_setitem key value
          else if decide (size value = 1%nat) then
            log DEBUG ("Broadcasting scalar value into vector: " +:+ key) ;;;
            n <- _count element ;;
            value <- lift (mul (ones n (dtype_of value)) value) ;;
            dict_setitem key value
          else
            n <- _count element ;;
            if decide (size value = n) then
              log DEBUG ("Updating vector: " +:+ key) ;;;
              dict_setitem key value
            else
              n <- _count element ;;
              if decide (n = 0%nat) then dict_setitem key value
              else raise (Exception
                     ("Cannot write an array, wrong length: " +:+ key))
      end.

(** The arrays and the states of [Base] among those of this module. *)
Definition of_exact (a : Np.ndarray) : ndarray :=
  match a with
  | Np.BoolArr l => BoolArr l
  | Np.IntArr l => IntArr l
  end.

Definition of_state (st : Base.state) : state :=
  State (of_exact <$> Base.self st) (Base.logger st).

End FloatBase.

(** ** Notions used to state the properties of the store *)

Import Np Base.
Local Open Scope py_scope.

(** A Python scalar, the array [sp.array(v, ndmin=1)] made from it, and
    the arrays of the scalar's dtype whose entries are all the scalar (for
    a float the same binary64 value, which for a NaN is a NaN). *)
Inductive scalar : Type :=
| SBool (b : bool)
| SInt (z : Z)
| SFloat (x : spec_float)
| SStr (s : string).

Definition array_of_scalar (v : scalar) : FloatBase.ndarray :=
  match v with
  | SBool b => FloatBase.BoolArr [b]
  | SInt z => FloatBase.IntArr [z]
  | SFloat x => FloatBase.FloatArr [x]
  | SStr s => FloatBase.StrArr [s]
  end.

Definition entries_equal (a : FloatBase.ndarray) (v : scalar) : Prop :=
  match a, v with
  | FloatBase.BoolArr l, SBool b => Forall (eq b) l
  | FloatBase.IntArr l, SInt z => Forall (eq z) l
  | FloatBase.FloatArr l, SFloat x => Forall (eq x) l
  | FloatBase.StrArr l, SStr s => Forall (eq s) l
  | _, _ => False
  end.

(** The scalars of a numeric dtype: booleans, integers and floats. *)
Definition numeric (v : scalar) : Prop :=
  match v with
  | SStr _ => False
  | _ => True
  end.

(** A statement of [FloatBase] does on a state of [Base] what a statement
    of [Base] does, the results being related by [f]. *)
Definition result_map {A B} (f : A → B) (r : result A) : result B :=
  match r with
  | Ok a => Ok (f a)
  | Raise e => Raise e
  end.

Definition agrees {A B} (f : A → B) (m' : FloatBase.M B) (m : M A) : Prop :=
  ∀ st, m' (FloatBase.of_state st)
        = (result_map f (m st).1, FloatBase.of_state (m st).2).

(** A sequence of calls made on one object; a call that raises leaves the
    object as it is at that point and the next call is made on it. *)
Inductive call : Type :=
| SetItem (key : string) (value : ndarray)
| Clear (element mode : pyarg).

Definition exec (c : call) : M unit :=
  match c with
  | SetItem key value => __setitem__ key value
  | Clear element mode => clear element mode
  end.

Definition run (calls : list call) (st : state) : state :=
  fold_left (λ st c, snd (exec c st)) calls st.

(** Three pores and two throats, with the pore labels 'top' and 'left'. *)
Definition labelled_store : state :=
  run [SetItem "pore.top" (BoolArr [true; false; true]);
       SetItem "pore.left" (BoolArr [true; true; false])]
    (__init__ 3 2).

(** The element [__setitem__] derives from a key, and the keys it writes
    without looking at the length of the value. *)
Definition element_of_key (key : string) : result string :=
  _parse_element_single (PyStr (PyStr.head_component key)).

Definition unchecked_key (key : string) : Prop :=
  key ∈ ["pore.coords"; "throat.conns"] ∨
  ∃ name, PyStr.item1 (PyStr.split "." key) = Some name ∧ name ∈ protected_keys.

Definition count_of (Np Nt : nat) (element : string) : nat :=
  if decide (element = "pore") then Np else Nt.

Definition key_invariant (Np Nt : nat) (key : string) (a : ndarray) : Prop :=
  PyStr.head_component key = "constant" ∨
  ∃ element,
    element_of_key key = Ok element ∧
    (¬ unchecked_key key → size a = count_of Np Nt element).

Definition store_invariant (Np Nt : nat) (st : state) : Prop :=
  self st !! "pore.all" = Some (ones Np dt_bool) ∧
  self st !! "throat.all" = Some (ones Nt dt_bool) ∧
  ∀ key a, self st !! key = Some a → key_invariant Np Nt key a.

(** A label name is selected by a pattern the way [_parse_labels] does:
    the test on the end of the pattern is made last and prevails. *)
Definition label_matches (pattern name : string) : bool :=
  if PyStr.endswith pattern "*"
  then PyStr.startswith name (PyStr.strip "*" pattern)
  else PyStr.endswith name (PyStr.strip "*" pattern).

(** A label given by name, without wildcard, for which the key the query
    reads, the element followed by the last dot-separated component of
    the name, holds a boolean mask over the [N] locations. *)
Definition existing_label (st : state) (element : string) (N : nat)
    (label : string) : Prop :=
  PyStr.contains "*" label = false ∧
  ∃ m, self st !! (element +:+ "." +:+ PyStr.last_component label)
         = Some (BoolArr m) ∧ length m = N.

(** The entries of the parsed list are looked up by their last component. *)
Definition resolvable (d : gmap string ndarray) (element : string) (N : nat)
    (item : string) : Prop :=
  ∃ m, d !! (element +:+ "." +:+ PyStr.last_component item) = Some (BoolArr m)
       ∧ length m = N.

(** What a call of [__setitem__] can do to the state: it leaves the
    dictionary alone, or ends normally after writing one array under the
    key; the log only grows. *)
Definition setitem_outcome (key : string) (st : state)
    (o : result unit * state) : Prop :=
  ∃ d lg, o.2 = State d (logger st ++ lg)%list ∧
          (d = self st ∨ (o.1 = Ok () ∧ ∃ v, d = <[key := v]> (self st))).


(** The keys [clear] deletes for the elements [els]: those headed by one
    of the elements whose array is not boolean, the two [all] keys apart. *)
Definition cleared (els : list string) (d : gmap string ndarray)
    (key : string) : Prop :=
  PyStr.head_component key ∈ els ∧ is_bool d key = false ∧
  key ∉ ["pore.all"; "throat.all"].

(** The key a label names: the label itself when it is written with the
    element in front, the label behind the element and a dot otherwise. *)
Definition key_of_label (element label : string) : string :=
  if PyStr.startswith label (element +:+ ".") then label
  else element +:+ "." +:+ label.

(** A label whose name has no dot, written alone or behind the element. *)
Definition plain_label (element label : string) : Prop :=
  ∃ x, PyStr.contains "." x = false ∧
       (label = x ∨ label = element +:+ "." +:+ x).

(** A plain label without wildcard whose key holds a boolean mask over
    the [N] locations of the element. *)
Definition named_label (st : state) (element : string) (N : nat)
    (label : string) : Prop :=
  PyStr.contains "*" label = false ∧ plain_label element label ∧
  ∃ m, self st !! key_of_label element label = Some (BoolArr m) ∧
       length m = N.

(** The location [i] carries the label: the boolean array stored under
    the key of the label is true at [i]. *)
Definition has_label (st : state) (element label : string) (i : Z) : Prop :=
  0 ≤ i ∧
  ∃ m, self st !! key_of_label element label = Some (BoolArr m) ∧
       m !! Z.to_nat i = Some true.

(** The stored label looked up for an item of the parsed list is true
    at the position [k]. *)
Definition item_true (d : gmap string ndarray) (element item : string)
    (k : nat) : Prop :=
  ∃ m, d !! (element +:+ "." +:+ PyStr.last_component item) = Some (BoolArr m)
       ∧ m !! k = Some true.

(** The key is a label of the element, and it is true at a location. *)
Definition label_key (st : state) (element key : string) : Prop :=
  PyStr.head_component key = element ∧
  ∃ m, self st !! key = Some (BoolArr m).

Definition key_true (st : state) (key : string) (p : Z) : Prop :=
  ∃ m, self st !! key = Some (BoolArr m) ∧ m !! Z.to_nat p = Some true.

(** The column of [arr] that [_get_labels] fills for a label: the
    entries of the stored mask at the locations. *)
Definition mask_entry (d : gmap string ndarray) (key : string) (p : Z)
  : bool :=
  match d !! key with
  | Some (BoolArr m) => default false (m !! Z.to_nat p)
  | _ => false
  end.

Definition column (d : gmap string ndarray) (P : list Z) (key : string)
  : list bool :=
  map (mask_entry d key) P.

(** * Properties of the store *)

(** ** Strings *)

Lemma split_nonempty sep s : PyStr.split sep s ≠ [].
Proof.
  destruct s as [|c s]; simpl; [done|].
  destruct (Ascii.eqb c sep); [done|]. by destruct (PyStr.split sep s).
Qed.

Lemma contains_cons sub c s :
  PyStr.contains sub (String c s) =
  String.prefix sub (String c s) || PyStr.contains sub s.
Proof. reflexivity. Qed.

Lemma contains_char_cons c d s :
  PyStr.contains (String c EmptyString) (String d s) =
  Ascii.eqb c d || PyStr.contains (String c EmptyString) s.
Proof.
  rewrite contains_cons. cbn [String.prefix]. destruct (Ascii.eqb_spec c d) as [->|Hne].
  - destruct (ascii_dec d d); [|done]. by destruct s.
  - destruct (ascii_dec c d); [done|]. done.
Qed.

(** A string without the separator is its own single component. *)
Lemma split_no_sep sep s :
  PyStr.contains (String sep EmptyString) s = false → PyStr.split sep s = [s].
Proof.
  induction s as [|c s IH]; [done|].
  rewrite contains_char_cons. intros [Hc Hs]%orb_false_iff. simpl.
  rewrite Ascii.eqb_sym, Hc. by rewrite IH.
Qed.

(** No component of a split contains the separator, and a character
    absent from the string is absent from every component. *)
Lemma split_components sep c s :
  (c = sep ∨ PyStr.contains (String c EmptyString) s = false) →
  Forall (λ x, PyStr.contains (String c EmptyString) x = false)
    (PyStr.split sep s).
Proof.
  induction s as [|d s IH]; intros Hc.
  { simpl. constructor; [|constructor]. by destruct Hc. }
  simpl. destruct (Ascii.eqb_spec d sep) as [->|Hne].
  - constructor; [done|]. apply IH. destruct Hc as [->|Hc]; [by left|].
    rewrite contains_char_cons in Hc. apply orb_false_iff in Hc.
    right. apply Hc.
  - assert (Ascii.eqb c d = false ∧
            (c = sep ∨ PyStr.contains (String c EmptyString) s = false))
      as [Hcd Hs].
    { destruct Hc as [->|Hc].
      - split; [|by left]. apply Ascii.eqb_neq. congruence.
      - rewrite contains_char_cons in Hc. apply orb_false_iff in Hc.
        split; [apply Hc|right; apply Hc]. }
    specialize (IH Hs). pose proof (split_nonempty sep s) as Hne'.
    destruct (PyStr.split sep s) as [|h t]; [done|].
    inversion IH; subst. constructor; [|done].
    rewrite contains_char_cons, Hcd. done.
Qed.

Lemma last_component_split s :
  ∃ x, list.last (PyStr.split "." s) = Some x ∧ PyStr.last_component s = x.
Proof.
  unfold PyStr.last_component, PyStr.item_last.
  destruct (list.last (PyStr.split "." s)) as [x|] eqn:E; [by exists x|].
  apply last_None in E. by apply split_nonempty in E.
Qed.

Lemma last_component_no_dot s :
  PyStr.contains "." (PyStr.last_component s) = false.
Proof.
  destruct (last_component_split s) as (x & Hx & ->).
  pose proof (split_components "." "." s (or_introl eq_refl)) as HF.
  rewrite Forall_forall in HF. apply HF.
  apply list_elem_of_In, list_elem_of_lookup.
  rewrite last_lookup in Hx. eauto.
Qed.

Lemma last_component_id s :
  PyStr.contains "." s = false → PyStr.last_component s = s.
Proof.
  intros H. unfold PyStr.last_component. by rewrite (split_no_sep "." s H).
Qed.

Lemma last_component_keeps_absent c s :
  PyStr.contains (String c EmptyString) s = false →
  PyStr.contains (String c EmptyString) (PyStr.last_component s) = false.
Proof.
  intros H. destruct (last_component_split s) as (x & Hx & ->).
  pose proof (split_components "." c s (or_intror H)) as HF.
  rewrite Forall_forall in HF. apply HF.
  apply list_elem_of_In, list_elem_of_lookup.
  rewrite last_lookup in Hx. eauto.
Qed.

Lemma item0_split s :
  PyStr.item0 (PyStr.split "." s) = Some (PyStr.head_component s).
Proof.
  unfold PyStr.head_component, PyStr.item0.
  pose proof (split_nonempty "." s). by destruct (PyStr.split "." s).
Qed.

Lemma split_element element x :
  element ∈ ["pore"; "throat"] →
  PyStr.split "." (element +:+ "." +:+ x) = element :: PyStr.split "." x.
Proof.
  intros H. repeat (apply elem_of_cons in H as [->|H]); [| |by inversion H].
  - reflexivity.
  - reflexivity.
Qed.

Lemma head_component_element element x :
  element ∈ ["pore"; "throat"] →
  PyStr.head_component (element +:+ "." +:+ x) = element.
Proof.
  intros H. unfold PyStr.head_component. by rewrite split_element.
Qed.

Lemma last_component_element element x :
  element ∈ ["pore"; "throat"] →
  PyStr.last_component (element +:+ "." +:+ x) = PyStr.last_component x.
Proof.
  intros H. destruct (last_component_split x) as (y & Hy & ->).
  unfold PyStr.last_component, PyStr.item_last.
  rewrite split_element by done. by rewrite last_cons, Hy.
Qed.

(** ** Parsing of elements and modes *)

Lemma parse_element_single_element element :
  element ∈ ["pore"; "throat"] →
  _parse_element_single (PyStr element) = Ok element.
Proof.
  intros H. repeat (apply elem_of_cons in H as [->|H]);
    [by vm_compute|by vm_compute|by inversion H].
Qed.

Lemma parse_element_element element :
  element ∈ ["pore"; "throat"] → _parse_element (PyStr element) = Ok [element].
Proof.
  intros H. repeat (apply elem_of_cons in H as [->|H]);
    [by vm_compute|by vm_compute|by inversion H].
Qed.

Lemma count_element st element a :
  element ∈ ["pore"; "throat"] →
  self st !! (element +:+ ".all") = Some a →
  _count element st = (Ok (size a), st).
Proof.
  intros He Ha. unfold _count, bind, lift.
  rewrite parse_element_element by done. simpl.
  unfold bind, __getitem__. by rewrite Ha.
Qed.

(** ** Assignment *)

(** A key [element.x] that reaches the length checks of [__setitem__]. *)
Lemma setitem_checked st element x value :
  element ∈ ["pore"; "throat"] →
  element +:+ "." +:+ x ∉ ["pore.coords"; "throat.conns"] →
  PyStr.head_component x ∉ protected_keys →
  __setitem__ (element +:+ "." +:+ x) value st =
  (let key := element +:+ "." +:+ x in
   if decide (size value = 1%nat) then
     log DEBUG ("Broadcasting scalar value into vector: " +:+ key) ;;;
     n <- _count element ;;
     match mul (ones n (dtype_of value)) value with
     | Some value => dict_setitem key value
     | None => raise ValueError
     end
   else
     n <- _count element ;;
     if decide (size value = n) then
       log DEBUG ("Updating vector: " +:+ key) ;;;
       dict_setitem key value
     else
       n <- _count element ;;
       if decide (n = 0%nat) then dict_setitem key value
       else raise (Exception
              ("Cannot write an array, wrong length: " +:+ key))) st.
Proof.
  intros He Hskip Hprot. unfold __setitem__.
  rewrite head_component_element by done.
  assert (String.eqb element "constant" = false) as ->.
  { repeat (apply elem_of_cons in He as [->|He]); [done|done|by inversion He]. }
  unfold bind at 1, lift at 1. rewrite parse_element_single_element by done.
  unfold mem at 1. rewrite bool_decide_eq_false_2 by done.
  rewrite split_element by done. unfold PyStr.item1.
  change ((element :: PyStr.split "." x) !! 1%nat)
    with (PyStr.item0 (PyStr.split "." x)).
  rewrite item0_split.
  unfold mem at 1. rewrite bool_decide_eq_false_2 by done. done.
Qed.

Lemma wrap64_id z : is_int64 z → wrap64 z = z.
Proof.
  unfold is_int64, wrap64, wrap. intros H.
  rewrite Z.mod_small by lia. lia.
Qed.

(** The product [sp.ones((n, ), dtype=value.dtype) * value] of a scalar. *)
Lemma ones_mul_int n z :
  is_int64 z → mul (ones n dt_int) (IntArr [z]) = Some (IntArr (replicate n z)).
Proof.
  intros Hz. unfold mul, ones, broadcast. rewrite length_replicate. simpl.
  assert (wrap64 (1 * z) = z) as Hw by (rewrite Z.mul_1_l; by apply wrap64_id).
  destruct n as [|[|n]]; [done|simpl; by rewrite Hw|].
  rewrite decide_False by (simpl; lia). simpl. rewrite !Hw. do 3 f_equal.
  clear -Hw. induction n as [|n IH]; [done|]. simpl. by rewrite Hw, IH.
Qed.

(** ** C1: the documented query modes *)

(** C1 (does not hold of the code).  The docstrings of [pores] and
    [throats] document the modes 'any', 'all', 'one' and 'none'; the list
    of allowed modes of [_get_indices] holds 'union', 'intersection',
    'not_intersection', 'not' and 'difference' only, so each documented
    mode is refused with an exception, whatever the element, the labels
    and the store. *)
Theorem documented_modes_rejected :
  Forall
    (λ mode, ∀ element labels_arg st,
       _get_indices element labels_arg (PyStr mode) st =
       (Raise (Exception
          "'mode' must be one of the following: ['union', 'intersection', 'not_intersection', 'not', 'difference']"),
        st))
    ["any"; "all"; "one"; "none"].
Proof. repeat constructor. Qed.

(** ** C3: arrays of the wrong length *)

(** C3 as stated fails on the keys whose checks are skipped: a two-entry
    array is stored under 'pore.coords' on three pores, and a write to the
    defined 'pore.all' is dropped with a warning instead of an error. *)
Lemma setitem_skips_length_check :
  let st := __init__ 3 2 in
  fst (_count "pore" st) = Ok 3%nat ∧
  fst (__setitem__ "pore.coords" (IntArr [7; 7]) st) = Ok () ∧
  self (snd (__setitem__ "pore.coords" (IntArr [7; 7]) st)) !! "pore.coords"
    = Some (IntArr [7; 7]) ∧
  fst (__setitem__ "pore.all" (BoolArr [true; true]) st) = Ok ().
Proof. by vm_compute. Qed.

(** C3 (amended).  For a key [element.x] other than 'pore.coords' and
    'throat.conns' whose name [x] does not start with the protected
    component 'all': an array of more than one entry whose length differs
    from the element count raises at the assignment and leaves the
    dictionary and the log as they were, unless the count is zero, in
    which case it is stored. *)
Theorem setitem_wrong_length st element x value all :
  element ∈ ["pore"; "throat"] →
  element +:+ "." +:+ x ∉ ["pore.coords"; "throat.conns"] →
  PyStr.head_component x ∉ protected_keys →
  self st !! (element +:+ ".all") = Some all →
  (1 < size value)%nat →
  size value ≠ size all →
  __setitem__ (element +:+ "." +:+ x) value st =
  if decide (size all = 0%nat)
  then (Ok (),
        State (<[element +:+ "." +:+ x := value]> (self st)) (logger st))
  else (Raise (Exception ("Cannot write an array, wrong length: "
                          +:+ element +:+ "." +:+ x)), st).
Proof.
  intros He Hskip Hprot Hall Hlen Hne.
  rewrite setitem_checked by done. cbv zeta.
  rewrite decide_False by lia.
  unfold bind at 1. rewrite (count_element st element all) by done.
  rewrite decide_False by done.
  unfold bind at 1. rewrite (count_element st element all) by done.
  by destruct (decide (size all = 0%nat)).
Qed.

Lemma setitem_wrong_length_witness :
  __setitem__ "pore.diameter" (IntArr [1; 2]) (__init__ 3 2) =
  (Raise (Exception "Cannot write an array, wrong length: pore.diameter"),
   __init__ 3 2).
Proof.
  apply (setitem_wrong_length (__init__ 3 2) "pore" "diameter"
           (IntArr [1; 2]) (ones 3 dt_bool)).
  - by apply (bool_decide_unpack _).
  - by apply (bool_decide_unpack _).
  - by apply (bool_decide_unpack _).
  - reflexivity.
  - simpl. lia.
  - simpl. lia.
Defined.

(** ** C4: scalars are broadcast *)

(** The product [1.0 * x] of a binary64 number is the number: the
    mantissa is shifted by the 52 bits the product added, and nothing is
    rounded. *)
Lemma digits2_shifted m :
  Zdigits2 (Z.pos (4503599627370496 * m)) = Z.pos (digits2_pos m) + 52.
Proof.
  assert (∀ p, Z.pos (PosDef.Pos.succ p) = Z.pos p + 1) as Hs
    by (intros p; apply Pos2Z.inj_succ).
  cbv [Pos.mul]. cbn [Zdigits2 digits2_pos]. rewrite !Hs. lia.
Qed.

Lemma shr_shifted m :
  SpecFloat.iter_pos shr_1 52
    {| shr_m := Z.pos (4503599627370496 * m); shr_r := false; shr_s := false |}
  = {| shr_m := Z.pos m; shr_r := false; shr_s := false |}.
Proof. reflexivity. Qed.

Lemma fmul_one x :
  FloatBase.is_float64 x → Physics.fmul Physics.f1 x = x.
Proof.
  unfold FloatBase.is_float64. destruct x as [s|s| |s m e]; [done..|].
  unfold valid_binary, bounded, canonical_mantissa.
  intros [Hc%Z.eqb_eq He]%andb_prop.
  unfold Physics.fmul, Physics.f1, SFmul. cbn [xorb].
  unfold binary_round_aux, shr_fexp. rewrite digits2_shifted.
  replace (Z.pos (digits2_pos m) + 52 + (-52 + e))
    with (Z.pos (digits2_pos m) + e) by lia.
  rewrite Hc. replace (e - (-52 + e)) with 52 by lia.
  cbn [shr_record_of_loc shr]. rewrite shr_shifted.
  cbn [shr_m loc_of_shr_record round_nearest_even Zdigits2].
  replace (-52 + e + 52) with e by lia.
  rewrite Hc, Z.sub_diag. cbn [shr shr_m]. by rewrite He.
Qed.

(** The product [sp.ones((n, ), dtype=value.dtype) * value] of a scalar. *)
Lemma broadcast_scalar {A B} (f : A → A → B) (n : nat) (x y : A) :
  broadcast f (replicate n x) [y] = Some (replicate n (f x y)).
Proof.
  unfold broadcast. rewrite length_replicate.
  destruct n as [|[|n]]; [done|done|].
  rewrite decide_False by (simpl; lia).
  cbn [replicate]. f_equal. cbn [map]. do 2 f_equal.
  induction n as [|n IH]; [done|]. cbn [replicate map]. by rewrite IH.
Qed.

Lemma ones_mul_scalar (n : nat) (v : scalar) :
  numeric v →
  FloatBase.well_typed (array_of_scalar v) →
  ∃ a,
    FloatBase.mul (FloatBase.ones n (FloatBase.dtype_of (array_of_scalar v)))
      (array_of_scalar v) = Ok a ∧
    FloatBase.size a = n ∧ entries_equal a v.
Proof.
  intros Hnum Hv.
  assert (∀ {A} (x : A), Forall (eq x) (replicate n x)) as Hall.
  { intros A x. apply Forall_forall.
    by intros y ->%list_elem_of_In%elem_of_replicate_inv. }
  destruct v as [b|z|x|s]; [| | |done];
    cbn [array_of_scalar FloatBase.dtype_of FloatBase.ones FloatBase.mul
         FloatBase.as_float];
    rewrite broadcast_scalar; cbn [fmap option_fmap option_map FloatBase.lift_np];
    eexists; (split; [reflexivity|]);
    cbn [FloatBase.size entries_equal]; rewrite length_replicate;
    (split; [done|]).
  - apply Hall.
  - inversion Hv; subst. rewrite Z.mul_1_l, wrap64_id by done. apply Hall.
  - inversion Hv; subst. rewrite fmul_one by done. apply Hall.
Qed.

Lemma float_count_element st element a :
  element ∈ ["pore"; "throat"] →
  FloatBase.self st !! (element +:+ ".all") = Some a →
  FloatBase._count element st = (Ok (FloatBase.size a), st).
Proof.
  intros He Ha. unfold FloatBase._count, FloatBase.bind, FloatBase.lift.
  rewrite parse_element_element by done. simpl.
  unfold FloatBase.bind, FloatBase.__getitem__. by rewrite Ha.
Qed.

(** C4 as stated fails on 'pore.coords', which is not in [protected_keys]:
    a scalar is stored as the one-entry array it was converted to.  It
    also fails for a scalar that is a string: the product with the array
    of ones raises [TypeError] and nothing is stored. *)
Lemma setitem_coords_not_broadcast :
  let st := FloatBase.__init__ 3 2 in
  let tenth := S754_finite false 7205759403792794 (-56) in
  let st' :=
    snd (FloatBase.__setitem__ "pore.coords" (FloatBase.FloatArr [tenth]) st) in
  let st'' :=
    snd (FloatBase.__setitem__ "pore.phase" (FloatBase.StrArr ["air"]) st) in
  fst (FloatBase._count "pore" st) = Ok 3%nat ∧
  fst (FloatBase.__setitem__ "pore.coords" (FloatBase.FloatArr [tenth]) st)
    = Ok () ∧
  fst (FloatBase.__getitem__ "pore.coords" st')
    = Ok (FloatBase.FloatArr [tenth]) ∧
  fst (FloatBase.__setitem__ "pore.phase" (FloatBase.StrArr ["air"]) st)
    = Raise TypeError ∧
  fst (FloatBase.__getitem__ "pore.phase" st'')
    = Raise (KeyError "pore.phase").
Proof. by vm_compute. Qed.

(** C4 (amended).  A boolean, [int64] or [float64] scalar assigned under
    a key [element.x] other than 'pore.coords' and 'throat.conns', whose
    name does not start with 'all', is read back as an array of the
    scalar's dtype whose length is the element count and whose entries are
    all the scalar. *)
Theorem setitem_scalar_broadcast (st : FloatBase.state) (element x : string)
    (all : FloatBase.ndarray) (v : scalar) :
  element ∈ ["pore"; "throat"] →
  element +:+ "." +:+ x ∉ ["pore.coords"; "throat.conns"] →
  PyStr.head_component x ∉ protected_keys →
  FloatBase.self st !! (element +:+ ".all") = Some all →
  numeric v →
  FloatBase.well_typed (array_of_scalar v) →
  ∃ st' a,
    FloatBase.__setitem__ (element +:+ "." +:+ x) (array_of_scalar v) st
      = (Ok (), st') ∧
    FloatBase.__getitem__ (element +:+ "." +:+ x) st' = (Ok a, st') ∧
    FloatBase.size a = FloatBase.size all ∧ entries_equal a v.
Proof.
  intros He Hskip Hprot Hall Hnum Hv. unfold FloatBase.__setitem__.
  rewrite head_component_element by done.
  assert (String.eqb element "constant" = false) as ->.
  { repeat (apply elem_of_cons in He as [->|He]); [done|done|by inversion He]. }
  unfold FloatBase.bind at 1, FloatBase.lift at 1.
  rewrite parse_element_single_element by done.
  unfold mem at 1. rewrite bool_decide_eq_false_2 by done.
  rewrite split_element by done. unfold PyStr.item1.
  change ((element :: PyStr.split "." x) !! 1%nat)
    with (PyStr.item0 (PyStr.split "." x)).
  rewrite item0_split.
  unfold mem at 1. rewrite bool_decide_eq_false_2 by done.
  rewrite decide_True by (by destruct v).
  unfold FloatBase.bind at 1, FloatBase.log at 1. unfold FloatBase.bind at 1.
  rewrite float_count_element with (a := all) by done.
  destruct (ones_mul_scalar (FloatBase.size all) v Hnum Hv)
    as (a & Hmul & Hsize & Heq).
  unfold FloatBase.bind at 1, FloatBase.lift at 1. rewrite Hmul.
  eexists _, a. split; [reflexivity|].
  unfold FloatBase.__getitem__. cbn [FloatBase.self].
  by rewrite lookup_insert_eq.
Qed.

Lemma setitem_scalar_broadcast_witness :
  ∃ st' a,
    FloatBase.__setitem__ "pore.k"
      (FloatBase.FloatArr [S754_finite false 7205759403792794 (-56)])
      (FloatBase.__init__ 3 2) = (Ok (), st') ∧
    FloatBase.__getitem__ "pore.k" st' = (Ok a, st') ∧
    FloatBase.size a = 3%nat ∧
    entries_equal a (SFloat (S754_finite false 7205759403792794 (-56))).
Proof.
  apply (setitem_scalar_broadcast (FloatBase.__init__ 3 2) "pore" "k"
           (FloatBase.ones 3 FloatBase.dt_bool)
           (SFloat (S754_finite false 7205759403792794 (-56)))).
  - by apply (bool_decide_unpack _).
  - by apply (bool_decide_unpack _).
  - by apply (bool_decide_unpack _).
  - reflexivity.
  - exact I.
  - repeat constructor.
Defined.

(** On boolean and [int64] arrays the assignment of [FloatBase] is the
    assignment of [Base]. *)
Lemma result_map_id {A} (r : result A) : result_map id r = r.
Proof. by destruct r. Qed.

Lemma size_of_exact a : FloatBase.size (FloatBase.of_exact a) = size a.
Proof. by destruct a. Qed.

Lemma agrees_ret {A B} (f : A → B) (a : A) :
  agrees f (FloatBase.ret (f a)) (ret a).
Proof. by intros st. Qed.

Lemma agrees_raise {A B} (f : A → B) (e : exn) :
  agrees f (FloatBase.raise e) (raise e).
Proof. by intros st. Qed.

Lemma agrees_lift {A} (r : result A) : agrees id (FloatBase.lift r) (lift r).
Proof.
  intros st. unfold FloatBase.lift, lift. cbn [fst snd].
  by rewrite result_map_id.
Qed.

Lemma agrees_bind {A B A' B'} (f : A → A') (g : B → B')
    (m' : FloatBase.M A') (m : M A) (k' : A' → FloatBase.M B') (k : A → M B) :
  agrees f m' m →
  (∀ a, agrees g (k' (f a)) (k a)) →
  agrees g (FloatBase.bind m' k') (bind m k).
Proof.
  intros Hm Hk st. unfold FloatBase.bind, bind. rewrite Hm.
  destruct (m st) as [[a|e] st1]; cbn [fst snd result_map]; [|done].
  apply Hk.
Qed.

Lemma agrees_getitem key :
  agrees FloatBase.of_exact (FloatBase.__getitem__ key) (__getitem__ key).
Proof.
  intros st. unfold FloatBase.__getitem__, __getitem__, FloatBase.of_state.
  cbn [FloatBase.self]. rewrite lookup_fmap.
  by destruct (self st !! key).
Qed.

Lemma agrees_has_key key : agrees id (FloatBase.has_key key) (has_key key).
Proof.
  intros st. unfold FloatBase.has_key, has_key, FloatBase.of_state.
  cbn [FloatBase.self fst snd result_map id]. rewrite lookup_fmap.
  do 2 f_equal. apply bool_decide_ext. by rewrite fmap_is_Some.
Qed.

Lemma agrees_dict_setitem key value :
  agrees id (FloatBase.dict_setitem key (FloatBase.of_exact value))
    (dict_setitem key value).
Proof.
  intros st. unfold FloatBase.dict_setitem, dict_setitem, FloatBase.of_state.
  cbn [FloatBase.self FloatBase.logger self logger fst snd result_map id].
  by rewrite fmap_insert.
Qed.

Lemma agrees_log lv msg : agrees id (FloatBase.log lv msg) (log lv msg).
Proof. by intros st. Qed.

Lemma agrees_for_each {A S S'} (f : S → S') (l : list A)
    (body' : S' → A → FloatBase.M S') (body : S → A → M S) (acc : S) :
  (∀ acc x, agrees f (body' (f acc) x) (body acc x)) →
  agrees f (FloatBase.for_each l body' (f acc)) (for_each l body acc).
Proof.
  intros Hbody. revert acc. induction l as [|x l IH]; intros acc.
  { apply agrees_ret. }
  cbn [FloatBase.for_each for_each]. by apply (agrees_bind f f).
Qed.

Lemma agrees_count element :
  agrees id (FloatBase._count element) (_count element).
Proof.
  unfold FloatBase._count, _count.
  apply (agrees_bind id id); [apply agrees_lift|]. intros els.
  apply (agrees_bind id id).
  - apply (agrees_for_each id). intros acc e.
    apply (agrees_bind FloatBase.of_exact id); [apply agrees_getitem|].
    intros a. rewrite size_of_exact. apply (agrees_ret id).
  - intros temp. unfold id. destruct temp as [|n [|]];
      [apply agrees_raise|apply (agrees_ret id)|apply agrees_raise].
Qed.

Lemma mul_of_exact n value :
  FloatBase.mul
    (FloatBase.ones n (FloatBase.dtype_of (FloatBase.of_exact value)))
    (FloatBase.of_exact value)
  = result_map FloatBase.of_exact
      (match mul (ones n (dtype_of value)) value with
       | Some a => Ok a
       | None => Raise ValueError
       end).
Proof.
  destruct value as [l|l];
    cbn [FloatBase.of_exact FloatBase.dtype_of FloatBase.ones FloatBase.mul
         dtype_of ones mul];
    by destruct (broadcast _ _ _).
Qed.

Lemma agrees_setitem key value :
  agrees id (FloatBase.__setitem__ key (FloatBase.of_exact value))
    (__setitem__ key value).
Proof.
  unfold FloatBase.__setitem__, __setitem__.
  destruct (String.eqb (PyStr.head_component key) "constant");
    [apply agrees_dict_setitem|].
  apply (agrees_bind id id); [apply agrees_lift|]. intros element.
  unfold id at 1 2 3.
  destruct (mem key ["pore.coords"; "throat.conns"]);
    [apply agrees_dict_setitem|].
  destruct (PyStr.item1 (PyStr.split "." key)) as [name|];
    [|apply agrees_raise].
  destruct (mem name protected_keys).
  { apply (agrees_bind id id); [apply agrees_has_key|]. intros [|]; unfold id.
    - apply (agrees_bind FloatBase.of_exact id); [apply agrees_getitem|].
      intros old. rewrite size_of_exact.
      case_decide; [apply agrees_dict_setitem|apply agrees_log].
    - apply agrees_dict_setitem. }
  rewrite size_of_exact. case_decide.
  - apply (agrees_bind id id); [apply agrees_log|]. intros _.
    apply (agrees_bind id id); [apply agrees_count|]. intros n. unfold id.
    intros st. unfold FloatBase.bind, FloatBase.lift. rewrite mul_of_exact.
    destruct (mul (ones n (dtype_of value)) value) as [a|];
      cbn [result_map]; [apply agrees_dict_setitem|done].
  - apply (agrees_bind id id); [apply agrees_count|]. intros n. unfold id.
    case_decide.
    + apply (agrees_bind id id); [apply agrees_log|]. intros _.
      apply agrees_dict_setitem.
    + apply (agrees_bind id id); [apply agrees_count|]. intros n'. unfold id.
      case_decide; [apply agrees_dict_setitem|apply agrees_raise].
Qed.

Lemma setitem_of_exact key value st :
  FloatBase.__setitem__ key (FloatBase.of_exact value) (FloatBase.of_state st)
  = ((__setitem__ key value st).1,
     FloatBase.of_state (__setitem__ key value st).2).
Proof. rewrite (agrees_setitem key value st). by rewrite result_map_id. Qed.

(** ** Invariants of the dictionary *)

(** Refutes a membership of a literal in a list of other literals. *)
Ltac not_listed H :=
  repeat (apply elem_of_cons in H as [H|H]; [discriminate H|]);
  by inversion H.

Lemma parse_element_single_cases s element :
  _parse_element_single (PyStr s) = Ok element →
  element ∈ ["pore"; "throat"].
Proof.
  unfold _parse_element_single, _parse_element. cbn [map check_elements].
  set (x := PyStr.rsplit1_head "s" (PyStr.lower (PyStr.head_component s))).
  unfold mem. destruct (bool_decide_reflect (x ∈ ["pore"; "throat"])) as [Hx|Hx];
    [|done].
  cbn [negb]. clearbody x.
  repeat (apply elem_of_cons in Hx as [->|Hx]); [| |by inversion Hx].
  - vm_compute. intros [= <-]. set_solver.
  - vm_compute. intros [= <-]. set_solver.
Qed.

Lemma size_ones n d : size (ones n d) = n.
Proof. destruct d; simpl; by rewrite length_replicate. Qed.

Lemma size_ones_mul n value :
  size value = 1%nat →
  ∃ v, mul (ones n (dtype_of value)) value = Some v ∧ size v = n.
Proof.
  intros Hv. destruct value as [[|b [|??]]|[|z [|??]]]; try done; simpl.
  - unfold broadcast. rewrite length_replicate. simpl.
    destruct (decide (n = 1%nat)) as [->|Hn].
    + by eexists.
    + destruct n as [|[|n]]; [by eexists|done|].
      eexists. split; [done|]. simpl. by rewrite length_map, length_replicate.
  - unfold broadcast. rewrite length_replicate. simpl.
    destruct (decide (n = 1%nat)) as [->|Hn].
    + by eexists.
    + destruct n as [|[|n]]; [by eexists|done|].
      eexists. split; [done|]. simpl. by rewrite length_map, length_replicate.
Qed.

Lemma count_invariant Np Nt st element :
  store_invariant Np Nt st →
  element ∈ ["pore"; "throat"] →
  _count element st = (Ok (count_of Np Nt element), st).
Proof.
  intros (Hp & Ht & _) He.
  repeat (apply elem_of_cons in He as [->|He]); [| |by inversion He].
  - rewrite (count_element st "pore" (ones Np dt_bool)); [|set_solver|done].
    by rewrite size_ones.
  - rewrite (count_element st "throat" (ones Nt dt_bool)); [|set_solver|done].
    by rewrite size_ones.
Qed.

(** Writing under a key that is neither [all] label keeps the invariant
    when the new entry satisfies it. *)
Lemma store_invariant_insert Np Nt st key value lg :
  store_invariant Np Nt st →
  key ≠ "pore.all" → key ≠ "throat.all" →
  key_invariant Np Nt key value →
  store_invariant Np Nt (State (<[key := value]> (self st)) lg).
Proof.
  intros (Hp & Ht & Hk) Hne1 Hne2 Hv. split_and!; simpl.
  - by rewrite lookup_insert_ne.
  - by rewrite lookup_insert_ne.
  - intros key' a. rewrite lookup_insert. case_decide; [|by apply Hk].
    intros [= <-]. by subst.
Qed.

Lemma store_invariant_log Np Nt st lg :
  store_invariant Np Nt st → store_invariant Np Nt (State (self st) lg).
Proof. done. Qed.

Lemma setitem_invariant Np Nt key value st :
  (0 < Np)%nat → (0 < Nt)%nat →
  store_invariant Np Nt st →
  store_invariant Np Nt (snd (__setitem__ key value st)).
Proof.
  intros HNp HNt Hinv. unfold __setitem__.
  destruct (String.eqb_spec (PyStr.head_component key) "constant") as [Hc|Hc].
  { simpl. apply store_invariant_insert; [done| | |by left].
    - intros ->. by vm_compute in Hc.
    - intros ->. by vm_compute in Hc. }
  unfold bind at 1, lift at 1.
  destruct (_parse_element_single (PyStr (PyStr.head_component key)))
    as [element|e] eqn:He; [|done].
  assert (element ∈ ["pore"; "throat"]) as Hel
    by (by eapply parse_element_single_cases).
  unfold mem at 1. case_bool_decide as Hskip.
  { simpl. apply store_invariant_insert; [done| | |].
    - intros ->. not_listed Hskip.
    - intros ->. not_listed Hskip.
    - right. exists element. split; [done|]. intros []. by left. }
  destruct (PyStr.item1 (PyStr.split "." key)) as [name|] eqn:Hname; [|done].
  unfold mem at 1. case_bool_decide as Hprot.
  { assert (key_invariant Np Nt key value) as Hkey.
    { right. exists element. split; [done|]. intros []. right. eauto. }
    unfold bind at 1, has_key at 1. case_bool_decide as Hdef.
    - destruct Hdef as [old Hold]. unfold bind, __getitem__. rewrite Hold.
      destruct Hinv as (Hp & Ht & Hk).
      case_decide as Hsz; [|done]. simpl.
      apply store_invariant_insert; [done| | |done].
      + intros ->. assert (old = ones Np dt_bool) as -> by congruence.
        rewrite size_ones in Hsz. lia.
      + intros ->. assert (old = ones Nt dt_bool) as -> by congruence.
        rewrite size_ones in Hsz. lia.
    - simpl. destruct Hinv as (Hp & Ht & Hk).
      apply store_invariant_insert; [done| | |done].
      + intros ->. apply Hdef. by rewrite Hp.
      + intros ->. apply Hdef. by rewrite Ht. }
  assert (key ≠ "pore.all" ∧ key ≠ "throat.all") as [Hne1 Hne2].
  { split; intros ->; vm_compute in Hname; injection Hname as <-;
      apply Hprot; by vm_compute; left. }
  case_decide as Hscalar.
  - unfold bind at 1, log at 1. unfold bind at 1.
    rewrite (count_invariant Np Nt) by done.
    destruct (size_ones_mul (count_of Np Nt element) value Hscalar)
      as (v & -> & Hv).
    simpl. apply store_invariant_insert; [done|done|done|].
    right. exists element. by split.
  - unfold bind at 1. rewrite (count_invariant Np Nt) by done.
    case_decide as Hlen.
    + simpl. apply store_invariant_insert; [done|done|done|].
      right. exists element. by split.
    + unfold bind at 1. rewrite (count_invariant Np Nt) by done.
      rewrite decide_False; [done|].
      unfold count_of. case_decide; lia.
Qed.

Lemma for_each_invariant {A S} (P : state → Prop) (l : list A)
    (body : S → A → M S) :
  (∀ acc x st, P st → P (snd (body acc x st))) →
  ∀ acc st, P st → P (snd (for_each l body acc st)).
Proof.
  intros Hbody. induction l as [|x l IH]; intros acc st Hst; [done|].
  simpl. unfold bind. specialize (Hbody acc x st Hst).
  destruct (body acc x st) as [[acc'|e] st']; [by apply IH|done].
Qed.

Lemma props_state element mode st : snd (props element mode st) = st.
Proof.
  unfold props, bind, lift, keys, get_self, ret.
  destruct (_parse_mode mode _); [|done].
  by destruct (_parse_element element).
Qed.

Lemma store_invariant_delete Np Nt st key lg :
  store_invariant Np Nt st →
  key ∉ ["pore.all"; "throat.all"] →
  store_invariant Np Nt (State (delete key (self st)) lg).
Proof.
  intros (Hp & Ht & Hk) Hne. split_and!; simpl.
  - rewrite lookup_delete_ne; [done|]. intros ->. apply Hne. set_solver.
  - rewrite lookup_delete_ne; [done|]. intros ->. apply Hne. set_solver.
  - intros key' a. rewrite lookup_delete. case_decide; [done|]. apply Hk.
Qed.

Lemma clear_invariant Np Nt element mode st :
  store_invariant Np Nt st →
  store_invariant Np Nt (snd (clear element mode st)).
Proof.
  intros Hinv. unfold clear. unfold bind at 1, lift at 1.
  destruct (_parse_mode mode _) as [mode'|e]; [|done].
  unfold bind at 1. pose proof (props_state element (PyList mode') st) as Hst.
  destruct (props element (PyList mode') st) as [[items|e] st']; simpl in Hst;
    subst st'; [|done].
  apply for_each_invariant; [|done].
  intros _ item st' Hst'. unfold mem. case_bool_decide as Hitem; simpl; [done|].
  unfold dict_delitem. destruct (self st' !! item); [|done].
  by apply store_invariant_delete.
Qed.

Lemma init_invariant Np Nt : store_invariant Np Nt (__init__ Np Nt).
Proof.
  unfold __init__. split_and!; simpl.
  - by rewrite lookup_insert_ne, lookup_insert_eq.
  - by rewrite lookup_insert_eq.
  - intros key a. rewrite !lookup_insert, lookup_empty.
    repeat case_decide; try done; intros [= <-]; subst key;
      right; eexists; (split; [by vm_compute|]); intros _;
      simpl; by rewrite length_replicate.
Qed.

Lemma run_invariant Np Nt calls st :
  (0 < Np)%nat → (0 < Nt)%nat →
  store_invariant Np Nt st → store_invariant Np Nt (run calls st).
Proof.
  intros HNp HNt. revert st. induction calls as [|c calls IH]; intros st Hst;
    [done|].
  simpl. apply IH. destruct c as [key value|element mode]; simpl.
  - by apply setitem_invariant.
  - by apply clear_invariant.
Qed.

(** A write to an [all] key that holds a non-empty array only warns. *)
Lemma setitem_all_defined st key value a :
  key ∈ ["pore.all"; "throat.all"] →
  self st !! key = Some a → size a ≠ 0%nat →
  __setitem__ key value st =
  (Ok (),
   State (self st) (logger st ++ [(WARNING, key +:+ " is already defined.")])).
Proof.
  intros Hkey Ha Hsz.
  repeat (apply elem_of_cons in Hkey as [->|Hkey]); [| |by inversion Hkey].
  - unfold __setitem__.
    change (PyStr.head_component "pore.all") with "pore".
    change (String.eqb "pore" "constant") with false. cbv iota.
    change (_parse_element_single (PyStr "pore")) with (@Ok string "pore").
    unfold bind at 1, lift at 1.
    change (mem "pore.all" ["pore.coords"; "throat.conns"]) with false.
    cbv iota.
    change (PyStr.item1 (PyStr.split "." "pore.all")) with (Some "all").
    cbv iota.
    change (mem "all" protected_keys) with true. cbv iota.
    unfold bind, has_key, __getitem__. rewrite Ha.
    rewrite bool_decide_eq_true_2 by done. cbv beta iota. rewrite Ha.
    cbv beta iota. by rewrite decide_False.
  - unfold __setitem__.
    change (PyStr.head_component "throat.all") with "throat".
    change (String.eqb "throat" "constant") with false. cbv iota.
    change (_parse_element_single (PyStr "throat")) with (@Ok string "throat").
    unfold bind at 1, lift at 1.
    change (mem "throat.all" ["pore.coords"; "throat.conns"]) with false.
    cbv iota.
    change (PyStr.item1 (PyStr.split "." "throat.all")) with (Some "all").
    cbv iota.
    change (mem "all" protected_keys) with true. cbv iota.
    unfold bind, has_key, __getitem__. rewrite Ha.
    rewrite bool_decide_eq_true_2 by done. cbv beta iota. rewrite Ha.
    cbv beta iota. by rewrite decide_False.
Qed.

(** ** C5: the two [all] labels *)

(** C5.  On an object created with [Np > 0] pores and [Nt > 0] throats,
    after any sequence of assignments and calls of [clear], 'pore.all' and
    'throat.all' are still the all-true masks of lengths [Np] and [Nt]
    written at creation, so the counts [Np] and [Nt] are unchanged; a
    further write to either key changes nothing in the dictionary. *)
Theorem all_labels_persist (Np Nt : nat) (calls : list call) :
  (0 < Np)%nat → (0 < Nt)%nat →
  let st := run calls (__init__ Np Nt) in
  self st !! "pore.all" = Some (ones Np dt_bool) ∧
  self st !! "throat.all" = Some (ones Nt dt_bool) ∧
  Base.Np st = (Ok Np, st) ∧ Base.Nt st = (Ok Nt, st) ∧
  ∀ value,
    self (snd (__setitem__ "pore.all" value st)) = self st ∧
    self (snd (__setitem__ "throat.all" value st)) = self st.
Proof.
  intros HNp HNt st.
  destruct (run_invariant Np Nt calls (__init__ Np Nt) HNp HNt
              (init_invariant Np Nt)) as (Hp & Ht & _).
  fold st in Hp, Ht. split_and!; [done|done| | |].
  - unfold Base.Np, count_prop. by rewrite Hp, size_ones.
  - unfold Base.Nt, count_prop. by rewrite Ht, size_ones.
  - intros value. split.
    + rewrite (setitem_all_defined st "pore.all" value (ones Np dt_bool));
        [done|set_solver|done|rewrite size_ones; lia].
    + rewrite (setitem_all_defined st "throat.all" value (ones Nt dt_bool));
        [done|set_solver|done|rewrite size_ones; lia].
Qed.

Lemma all_labels_persist_witness :
  let st := run [SetItem "pore.all" (BoolArr []); Clear PyNone (PyStr "all")]
              (__init__ 3 2) in
  self st !! "pore.all" = Some (ones 3 dt_bool) ∧
  self st !! "throat.all" = Some (ones 2 dt_bool) ∧
  Base.Np st = (Ok 3%nat, st) ∧ Base.Nt st = (Ok 2%nat, st) ∧
  ∀ value,
    self (snd (__setitem__ "pore.all" value st)) = self st ∧
    self (snd (__setitem__ "throat.all" value st)) = self st.
Proof.
  apply (all_labels_persist 3 2
           [SetItem "pore.all" (BoolArr []); Clear PyNone (PyStr "all")]); lia.
Defined.


(** ** C2: keys and lengths of the stored arrays *)

(** C2 as stated fails in three ways: a key headed by 'constant' is
    stored although it names no element; 'pore.coords' takes an array of
    any length; and on an object without pores an array of any length is
    stored under a pore key. *)
Lemma stored_entries_unchecked :
  let st := __init__ 3 2 in
  let st1 := snd (__setitem__ "constant.gas" (IntArr [8; 3]) st) in
  let st2 := snd (__setitem__ "pore.coords" (IntArr [7; 7]) st) in
  let st3 := snd (__setitem__ "pore.seed" (IntArr [4; 5; 6]) (__init__ 0 0)) in
  (fst (__setitem__ "constant.gas" (IntArr [8; 3]) st) = Ok () ∧
   self st1 !! "constant.gas" = Some (IntArr [8; 3]) ∧
   PyStr.startswith "constant.gas" "pore." = false ∧
   PyStr.startswith "constant.gas" "throat." = false) ∧
  (fst (__setitem__ "pore.coords" (IntArr [7; 7]) st) = Ok () ∧
   self st2 !! "pore.coords" = Some (IntArr [7; 7]) ∧
   fst (Base.Np st2) = Ok 3%nat) ∧
  (fst (__setitem__ "pore.seed" (IntArr [4; 5; 6]) (__init__ 0 0)) = Ok () ∧
   self st3 !! "pore.seed" = Some (IntArr [4; 5; 6]) ∧
   fst (Base.Np st3) = Ok 0%nat).
Proof. by vm_compute. Qed.

(** C2 (amended).  On an object created with [Np > 0] pores and [Nt > 0]
    throats, after any sequence of assignments (and calls of [clear]),
    every stored key is headed by 'constant' or by a component that
    [_parse_element] reads as 'pore' or 'throat', and in the second case
    the array has exactly [Np], respectively [Nt], entries unless the key
    is 'pore.coords', 'throat.conns' or has 'all' as second component. *)
Theorem stored_entries_invariant (Np Nt : nat) (calls : list call)
    (key : string) (a : ndarray) :
  (0 < Np)%nat → (0 < Nt)%nat →
  self (run calls (__init__ Np Nt)) !! key = Some a →
  PyStr.head_component key = "constant" ∨
  ∃ element,
    element ∈ ["pore"; "throat"] ∧
    element_of_key key = Ok element ∧
    (¬ unchecked_key key → size a = count_of Np Nt element).
Proof.
  intros HNp HNt Hkey.
  destruct (run_invariant Np Nt calls (__init__ Np Nt) HNp HNt
              (init_invariant Np Nt)) as (_ & _ & Hk).
  destruct (Hk key a Hkey) as [Hc|(element & He & Hsz)]; [by left|].
  right. exists element. split_and!; [|done|done].
  by eapply parse_element_single_cases.
Qed.

Lemma stored_entries_invariant_witness :
  PyStr.head_component "throat.radius" = "constant" ∨
  ∃ element,
    element ∈ ["pore"; "throat"] ∧
    element_of_key "throat.radius" = Ok element ∧
    (¬ unchecked_key "throat.radius" →
     size (IntArr [4; 4]) = count_of 3 2 element).
Proof.
  apply (stored_entries_invariant 3 2
           [SetItem "pore.diameter" (IntArr [5; 6; 7]);
            SetItem "throat.radius" (IntArr [4]);
            SetItem "pore.diameter" (IntArr [1; 2])]).
  - lia.
  - lia.
  - by vm_compute.
Defined.

(** ** C6: wildcards that match no label *)

Lemma startswith_contains p s :
  PyStr.startswith s p = true → PyStr.contains p s = true.
Proof.
  unfold PyStr.startswith. intros H.
  destruct s; cbn [PyStr.contains]; by rewrite H.
Qed.

Lemma endswith_contains p s :
  PyStr.endswith s p = true → PyStr.contains p s = true.
Proof.
  induction s as [|c s IH]; cbn [PyStr.endswith PyStr.contains].
  - rewrite orb_false_r. by intros <-%String.eqb_eq.
  - intros [H|H]%orb_true_iff.
    + apply String.eqb_eq in H as <-. rewrite orb_true_iff. left.
      clear. cbn [String.prefix]. destruct (ascii_dec c c); [|done].
      induction s as [|d s IH]; [done|]. cbn [String.prefix].
      by destruct (ascii_dec d d).
    + rewrite IH by done. apply orb_true_r.
Qed.

Lemma labels_element st element :
  element ∈ ["pore"; "throat"] →
  labels (PyStr element) st =
  (Ok (filter (λ key, is_bool (self st) key = true)
         (filter (λ key, PyStr.head_component key = element)
            (map_to_list (self st)).*1)), st).
Proof.
  intros He. unfold labels, bind, lift, keys, get_self.
  rewrite parse_element_element by done. reflexivity.
Qed.





Lemma remove_dupes_singleton {A} `{EqDecision A} (x : A) :
  PyStr.remove_dupes [x] = [x].
Proof.
  unfold PyStr.remove_dupes. cbn [length PyStr.remove_dupes_from].
  change ([x] !! 0%nat) with (Some x). unfold PyStr.count.
  rewrite filter_cons_True by done. rewrite filter_nil.
  by rewrite decide_False by (simpl; lia).
Qed.

Lemma parse_mode_single_allowed mode allowed :
  mode ∈ allowed → _parse_mode_single (PyStr mode) (Some allowed) = Ok mode.
Proof.
  intros H. unfold _parse_mode_single, _parse_mode. cbn [as_list check_allowed].
  unfold mem. rewrite bool_decide_eq_true_2 by done. cbn [negb].
  by rewrite remove_dupes_singleton.
Qed.



(** ** C10: query results are canonical index sets *)

Lemma nonzero_from_canonical l i :
  StronglySorted Z.lt (nonzero_from i l) ∧
  Forall (λ j, i ≤ j < i + Z.of_nat (length l)) (nonzero_from i l).
Proof.
  revert i. induction l as [|b l IH]; intros i; [by split; constructor|].
  destruct (IH (i + 1)) as [Hs Hr]. simpl nonzero_from.
  assert (Forall (λ j, i ≤ j < i + Z.of_nat (length (b :: l)))
            (nonzero_from (i + 1) l)) as Hr'.
  { eapply Forall_impl; [|exact Hr]. intros j [??]. cbn [length]. lia. }
  destruct b; [|done]. split.
  - constructor; [done|]. eapply Forall_impl; [|exact Hr]. intros j [??]. lia.
  - constructor; [cbn [length]; lia|done].
Qed.

Lemma where_canonical m :
  StronglySorted Z.lt (where_ (BoolArr m)) ∧
  Forall (λ j, 0 ≤ j < Z.of_nat (length m)) (where_ (BoolArr m)).
Proof. apply (nonzero_from_canonical m 0). Qed.

Lemma broadcast_same_length {A B C} (f : A → B → C) a b :
  length a = length b →
  broadcast f a b = Some (zip_with f a b) ∧ length (zip_with f a b) = length a.
Proof.
  intros H. unfold broadcast. rewrite decide_True by done.
  split; [done|]. rewrite length_zip_with. lia.
Qed.

(** A loop whose body succeeds and keeps the dictionary and an invariant
    of the accumulator does so as a whole. *)
Lemma for_each_ok {A S} (I : S → Prop) (d : gmap string ndarray)
    (l : list A) (body : S → A → M S) :
  (∀ acc x st, x ∈ l → I acc → self st = d →
     ∃ acc' st', body acc x st = (Ok acc', st') ∧ I acc' ∧ self st' = d) →
  ∀ acc st, I acc → self st = d →
    ∃ acc' st', for_each l body acc st = (Ok acc', st') ∧ I acc' ∧ self st' = d.
Proof.
  induction l as [|x l IH]; intros Hbody acc st Hacc Hst.
  { exists acc, st. by split. }
  destruct (Hbody acc x st) as (acc1 & st1 & Hb & Hacc1 & Hst1);
    [by left|done|done|].
  simpl. unfold bind. rewrite Hb. apply IH; [|done|done].
  intros acc' y st' Hy. apply Hbody. by right.
Qed.

Lemma length_remove_first {A} `{EqDecision A} (x : A) l :
  (length (PyStr.remove_first x l) ≤ length l)%nat.
Proof.
  induction l as [|y l IH]; [done|]. simpl. case_decide; simpl; lia.
Qed.

(** The walk of [remove_dupes] ends by passing the end of the list: more
    fuel than the length of the list gives the same result. *)
Lemma remove_dupes_from_fuel {A} `{EqDecision A} fuel k i (l : list A) :
  (length l ≤ i + fuel)%nat →
  PyStr.remove_dupes_from (fuel + k) i l = PyStr.remove_dupes_from fuel i l.
Proof.
  revert i l. induction fuel as [|fuel IH]; intros i l Hlen.
  - destruct k; simpl; [done|]. by rewrite lookup_ge_None_2 by lia.
  - simpl. destruct (l !! i) as [L|]; [|done]. case_decide.
    + apply IH. pose proof (length_remove_first L l). lia.
    + apply IH. lia.
Qed.

Lemma remove_dupes_fuel {A} `{EqDecision A} k (l : list A) :
  PyStr.remove_dupes_from (length l + k) 0 l = PyStr.remove_dupes l.
Proof. apply remove_dupes_from_fuel. lia. Qed.

Lemma remove_first_subseteq {A} `{EqDecision A} (x : A) l :
  PyStr.remove_first x l ⊆ l.
Proof.
  induction l as [|y l IH]; [done|]. simpl. case_decide.
  - intros z Hz. by right.
  - intros z [->|Hz]%elem_of_cons; [by left|]. right. by apply IH.
Qed.

Lemma remove_dupes_from_subseteq {A} `{EqDecision A} fuel i (l : list A) :
  PyStr.remove_dupes_from fuel i l ⊆ l.
Proof.
  revert i l. induction fuel as [|fuel IH]; intros i l; [done|].
  simpl. destruct (l !! i) as [L|]; [|done]. case_decide; [|apply IH].
  etrans; [apply IH|]. apply remove_first_subseteq.
Qed.

Lemma remove_dupes_subseteq {A} `{EqDecision A} (l : list A) :
  PyStr.remove_dupes l ⊆ l.
Proof. apply remove_dupes_from_subseteq. Qed.

Lemma parse_label_existing st0 st element N loop label :
  element ∈ ["pore"; "throat"] →
  existing_label st0 element N label →
  Forall (resolvable (self st0) element N) loop.1 →
  self st = self st0 →
  ∃ loop' st',
    parse_label element loop label st = (Ok loop', st') ∧
    Forall (resolvable (self st0) element N) loop'.1 ∧ self st' = self st0.
Proof.
  intros He (Hstar & m & Hm & Hlen) Hparsed Hst.
  destruct loop as [parsed temp]. unfold parse_label.
  set (label' := strip_element element label). unfold strip_element in label'.
  assert (PyStr.contains "*" label' = false) as ->.
  { subst label'. destruct (PyStr.contains element label); [|done].
    by apply last_component_keeps_absent. }
  assert (PyStr.last_component label' = PyStr.last_component label) as Hlast.
  { subst label'. destruct (PyStr.contains element label); [|done].
    apply last_component_id, last_component_no_dot. }
  assert (resolvable (self st0) element N (element +:+ "." +:+ label'))
    as Hres.
  { exists m. by rewrite last_component_element, Hlast. }
  assert (Forall (resolvable (self st0) element N)
            (PyStr.remove_dupes (parsed ++ [element +:+ "." +:+ label'])))
    as Hall.
  { apply Forall_forall. intros x Hx%list_elem_of_In.
    apply remove_dupes_subseteq in Hx. apply elem_of_app in Hx as [Hx|Hx].
    - rewrite Forall_forall in Hparsed. by apply Hparsed, list_elem_of_In.
    - by apply list_elem_of_singleton in Hx as ->. }
  unfold bind at 1. unfold bind at 1. unfold has_key at 1.
  case_bool_decide; cbn -[PyStr.remove_dupes]; by eexists _, _.
Qed.

Lemma parse_labels_existing st element N labels_arg labels_list :
  element ∈ ["pore"; "throat"] →
  as_list labels_arg = Ok labels_list →
  Forall (existing_label st element N) labels_list →
  ∃ parsed st',
    _parse_labels labels_arg element st = (Ok parsed, st') ∧
    Forall (resolvable (self st) element N) parsed ∧ self st' = self st.
Proof.
  intros He Hl Hex. unfold _parse_labels.
  assert (match labels_arg with
          | PyStr s => [s] | PyList l => l | PyNone => []
          end = labels_list) as ->.
  { destruct labels_arg; simpl in Hl; congruence. }
  destruct (for_each_ok
         (λ acc : list string * option (list string),
            Forall (resolvable (self st) element N) acc.1)
         (self st) labels_list (parse_label element))
    with (([], None) : list string * option (list string)) st
    as (acc & st' & Hloop & Hacc & Hst').
  - intros acc label st1 Hlabel Hparsed Hst1.
    rewrite Forall_forall in Hex.
    eapply parse_label_existing; [done| |done|done].
    by apply Hex, list_elem_of_In.
  - by apply Forall_nil.
  - reflexivity.
  - destruct labels_arg as [|s|l]; [done| |];
      unfold bind; rewrite Hloop; by exists acc.1, st'.
Qed.

(** Evaluates the tests of a literal against a list of literals. *)
Ltac eval_mem :=
  repeat match goal with
         | |- context [mem ?a ?l] =>
             let b := eval vm_compute in (mem a l) in
             change (mem a l) with b
         end;
  cbv iota.

Lemma getitem_resolvable st st0 element N item :
  self st = self st0 →
  resolvable (self st0) element N item →
  ∃ m, __getitem__ (element +:+ "." +:+ PyStr.last_component item) st
         = (Ok (BoolArr m), st) ∧ length m = N.
Proof.
  intros Hst (m & Hm & Hlen). exists m. split; [|done].
  unfold __getitem__. by rewrite Hst, Hm.
Qed.

Lemma length_int8_bool m : length (int8 (BoolArr m)) = length m.
Proof. simpl. by rewrite length_map. Qed.

(** The loops of [_get_indices] over the parsed labels: on boolean masks
    for 'union' and 'intersection', on integer counts for the others. *)
Lemma mask_loop_ok st0 st1 element N parsed
    (op : ndarray → ndarray → option ndarray) (f : bool → bool → bool) init :
  (∀ m m', op (BoolArr m) (BoolArr m') = BoolArr <$> broadcast f m m') →
  self st1 = self st0 →
  Forall (resolvable (self st0) element N) parsed →
  length init = N →
  ∃ m st2,
    for_each parsed
      (λ acc item,
         a <- __getitem__ (element +:+ "." +:+ PyStr.last_component item) ;;
         lift_np (op acc a))
      (BoolArr init) st1 = (Ok (BoolArr m), st2) ∧ length m = N.
Proof.
  intros Hop Hst1 Hparsed Hinit.
  destruct (for_each_ok (λ acc, ∃ m, acc = BoolArr m ∧ length m = N)
              (self st0) parsed
              (λ acc item,
                 a <- __getitem__
                        (element +:+ "." +:+ PyStr.last_component item) ;;
                 lift_np (op acc a)))
    with (BoolArr init) st1 as (acc & st2 & Hloop & (m & -> & Hm) & _).
  - intros acc item st2 Hitem (m & -> & Hm) Hst2.
    rewrite Forall_forall in Hparsed.
    destruct (getitem_resolvable st2 st0 element N item)
      as (m' & Hg & Hm'); [done|by apply Hparsed, list_elem_of_In|].
    unfold bind. rewrite Hg, Hop.
    destruct (broadcast_same_length f m m') as [-> Hlen]; [congruence|].
    eexists _, _. split; [reflexivity|]. split; [|done].
    eexists. split; [done|]. congruence.
  - by eexists.
  - done.
  - by exists m, st2.
Qed.

Lemma count_loop_ok st0 st1 element N parsed
    (op : list Z → ndarray → option (list Z)) (f : Z → Z → Z) :
  (∀ a b, op a b = broadcast f a (int8 b)) →
  self st1 = self st0 →
  Forall (resolvable (self st0) element N) parsed →
  ∃ acc st2,
    for_each parsed
      (λ acc item,
         info <- __getitem__
                   (element +:+ "." +:+ PyStr.last_component item) ;;
         lift_np (op acc info))
      (replicate N 0) st1 = (Ok acc, st2) ∧ length acc = N.
Proof.
  intros Hop Hst1 Hparsed.
  destruct (for_each_ok (λ acc : list Z, length acc = N)
              (self st0) parsed
              (λ acc item,
                 info <- __getitem__
                           (element +:+ "." +:+ PyStr.last_component item) ;;
                 lift_np (op acc info)))
    with (replicate N 0) st1 as (acc & st2 & Hloop & Hm & _).
  - intros acc item st2 Hitem Hm Hst2.
    rewrite Forall_forall in Hparsed.
    destruct (getitem_resolvable st2 st0 element N item)
      as (m' & Hg & Hm'); [done|by apply Hparsed, list_elem_of_In|].
    unfold bind. rewrite Hg, Hop.
    destruct (broadcast_same_length f acc (int8 (BoolArr m'))) as [-> Hlen];
      [rewrite length_int8_bool; congruence|].
    eexists _, _. split; [reflexivity|]. split; [|done]. congruence.
  - by rewrite length_replicate.
  - done.
  - by exists acc, st2.
Qed.

(** C10 as stated fails on labels that exist but are not masks the query
    can read over the locations.  'pore.coords' is written without a check
    of its length: a boolean array of five entries stored under it on one
    pore is a label, and the query for it returns indices beyond the pore
    count.  A mask stored under 'pore.a.b' is a label too, and the query
    for 'a.b' looks up 'pore.b' and raises [KeyError]. *)
Lemma query_indices_not_canonical :
  let st :=
    snd (__setitem__ "pore.coords" (BoolArr [true; true; true; true; true])
           (__init__ 1 1)) in
  let st' :=
    snd (__setitem__ "pore.a.b" (BoolArr [true; false; false])
           (__init__ 3 2)) in
  fst (_count "pore" st) = Ok 1%nat ∧
  (∃ l, fst (labels (PyStr "pore") st) = Ok l ∧ "pore.coords" ∈ l) ∧
  fst (pores (PyStr "coords") (PyStr "union") st) = Ok [0; 1; 2; 3; 4] ∧
  (∃ l, fst (labels (PyStr "pore") st') = Ok l ∧ "pore.a.b" ∈ l) ∧
  fst (pores (PyStr "a.b") (PyStr "union") st') = Raise (KeyError "pore.b").
Proof.
  split_and!; try by vm_compute.
  - eexists. split; [by vm_compute|]. repeat constructor.
  - eexists. split; [by vm_compute|]. repeat constructor.
Qed.

(** C10 (amended).  For an element with [N] locations, labels given by
    name for which the key the query reads, the element followed by the
    last dot-separated component of the name, holds a boolean mask of [N]
    entries, and any accepted mode, the query returns an index array that
    is strictly increasing (hence without duplicates) and whose entries
    lie in [0, N). *)
Theorem query_indices_canonical st element N all labels_arg labels_list mode :
  element ∈ ["pore"; "throat"] →
  mode ∈ ["union"; "intersection"; "not_intersection"; "not"; "difference"] →
  self st !! (element +:+ ".all") = Some all →
  size all = N →
  as_list labels_arg = Ok labels_list →
  Forall (existing_label st element N) labels_list →
  ∃ ind,
    fst (_get_indices (PyStr element) labels_arg (PyStr mode) st) = Ok ind ∧
    StronglySorted Z.lt ind ∧
    Forall (λ i, 0 ≤ i < Z.of_nat N) ind.
Proof.
  intros He Hmode Hall HN Hl Hex. unfold _get_indices.
  rewrite parse_mode_single_allowed by done.
  rewrite parse_element_single_element by done.
  unfold bind at 1, lift at 1. unfold bind at 1, lift at 1.
  destruct (parse_labels_existing st element N labels_arg labels_list)
    as (parsed & st1 & Hparse & Hparsed & Hst1); [done..|].
  unfold bind at 1. rewrite Hparse.
  unfold bind at 1, has_key at 1. rewrite Hst1, Hall.
  rewrite bool_decide_eq_true_2 by done. cbn [negb].
  assert (__getitem__ (element +:+ ".all") st1 = (Ok all, st1)) as Hget.
  { unfold __getitem__. by rewrite Hst1, Hall. }
  assert (∀ mask, length mask = N →
            ∃ ind, (Ok (where_ (BoolArr mask)) : result (list Z)) = Ok ind ∧
                   StronglySorted Z.lt ind ∧
                   Forall (λ i, 0 ≤ i < Z.of_nat N) ind) as Hwhere.
  { intros mask <-. eexists. split; [done|]. apply where_canonical. }
  repeat (apply elem_of_cons in Hmode as [->|Hmode]);
    [| | | | |by inversion Hmode]; eval_mem;
    unfold bind at 1; unfold bind at 1; rewrite Hget; rewrite HN.
  - (* union *)
    change (zeros N dt_bool) with (BoolArr (replicate N false)).
    destruct (mask_loop_ok st st1 element N parsed add orb
                (replicate N false)) as (m & st2 & -> & Hm);
      [done|done|done|by rewrite length_replicate|].
    by apply Hwhere.
  - (* intersection *)
    change (ones N dt_bool) with (BoolArr (replicate N true)).
    destruct (mask_loop_ok st st1 element N parsed mul andb
                (replicate N true)) as (m & st2 & -> & Hm);
      [done|done|done|by rewrite length_replicate|].
    by apply Hwhere.
  - (* not_intersection *)
    unfold bind at 1.
    destruct (count_loop_ok st st1 element N parsed add_int8
                (λ p q, wrap64 (p + q))) as (acc & st2 & -> & Hm);
      [done|done|done|].
    apply Hwhere. unfold eq_scalar. by rewrite length_map.
  - (* not *)
    unfold bind at 1.
    destruct (count_loop_ok st st1 element N parsed sub_int8
                (λ p q, wrap64 (p - q))) as (acc & st2 & -> & Hm);
      [done|done|done|].
    apply Hwhere. unfold eq_scalar. by rewrite length_map.
  - (* difference *)
    unfold bind at 1.
    destruct (count_loop_ok st st1 element N parsed sub_int8
                (λ p q, wrap64 (p - q))) as (acc & st2 & -> & Hm);
      [done|done|done|].
    apply Hwhere. unfold eq_scalar. by rewrite length_map.
Qed.

Lemma query_indices_canonical_witness :
  ∃ ind,
    fst (_get_indices (PyStr "pore") (PyList ["top"; "pore.left"])
           (PyStr "not_intersection")
           (run [SetItem "pore.top" (BoolArr [true; false; true]);
                 SetItem "pore.left" (BoolArr [true; true; false])]
              (__init__ 3 2))) = Ok ind ∧
    StronglySorted Z.lt ind ∧
    Forall (λ i, 0 ≤ i < Z.of_nat 3) ind.
Proof.
  apply (query_indices_canonical _ "pore" 3 (ones 3 dt_bool)
           (PyList ["top"; "pore.left"]) ["top"; "pore.left"]
           "not_intersection").
  - by apply (bool_decide_unpack _).
  - by apply (bool_decide_unpack _).
  - by vm_compute.
  - reflexivity.
  - reflexivity.
  - repeat constructor; try reflexivity.
    + exists [true; false; true]. split; [by vm_compute|reflexivity].
    + exists [true; true; false]. split; [by vm_compute|reflexivity].
Defined.

(** ** C9: masks and index arrays *)

Lemma set_true_spec (I : list Z) (m0 : list bool) :
  Forall (λ i, 0 ≤ i < Z.of_nat (length m0)) I →
  ∃ m, set_true m0 I = Some m ∧ length m = length m0 ∧
       ∀ k, m !! k = Some true ↔
            (m0 !! k = Some true ∨ (Z.of_nat k ∈ I ∧ (k < length m0)%nat)).
Proof.
  revert m0. induction I as [|i I IH]; intros m0 HI.
  { exists m0. split_and!; [done|done|]. intros k. split; [by left|].
    intros [?|[H _]]; [done|by inversion H]. }
  inversion HI as [|?? Hi HI']; subst. clear HI. rename HI' into HI. simpl.
  unfold norm_index. rewrite decide_True by done.
  destruct (IH (<[Z.to_nat i := true]> m0)) as (m & -> & Hlen & Hm).
  { by rewrite length_insert. }
  exists m. rewrite length_insert in Hlen. split_and!; [done|done|].
  intros k. rewrite Hm, length_insert. clear Hm IH.
  destruct (decide (k = Z.to_nat i)) as [->|Hne].
  - rewrite list_lookup_insert_eq by lia. split; [|by left].
    intros _. right. split; [|lia]. rewrite Z2Nat.id by lia. by left.
  - rewrite list_lookup_insert_ne by done. split.
    + intros [?|[??]]; [by left|]. right. split; [by right|done].
    + intros [?|[Hk ?]]; [by left|]. right. split; [|done].
      apply elem_of_cons in Hk as [Hk|Hk]; [lia|done].
Qed.

Lemma select_arange_from s m :
  select (map Z.of_nat (seq s (length m))) m = nonzero_from (Z.of_nat s) m.
Proof.
  revert s. induction m as [|b m IH]; intros s; [done|].
  simpl. rewrite IH. replace (Z.of_nat (S s)) with (Z.of_nat s + 1) by lia.
  done.
Qed.

Lemma select_arange m : select (arange (length m)) m = where_ (BoolArr m).
Proof. apply (select_arange_from 0). Qed.

Lemma elem_of_nonzero_from j i m :
  j ∈ nonzero_from i m ↔ ∃ k, j = i + Z.of_nat k ∧ m !! k = Some true.
Proof.
  revert i. induction m as [|b m IH]; intros i.
  { split; [by intros H; inversion H|by intros (k & _ & ?)]. }
  assert (j ∈ nonzero_from (i + 1) m ↔
          ∃ k, j = i + Z.of_nat (S k) ∧ (b :: m) !! S k = Some true) as Htl.
  { rewrite IH. split; intros (k & -> & Hk); exists k; (split; [lia|done]). }
  simpl nonzero_from. destruct b.
  - rewrite elem_of_cons, Htl. split.
    + intros [->|(k & ? & ?)]; [exists 0%nat; split; [lia|done]|by exists (S k)].
    + intros ([|k] & ? & ?); [left; lia|right; by exists k].
  - rewrite Htl. split.
    + intros (k & ? & ?). by exists (S k).
    + intros ([|k] & ? & ?); [done|by exists k].
Qed.

Lemma strongly_sorted_lt_NoDup (l : list Z) : StronglySorted Z.lt l → NoDup l.
Proof.
  induction 1 as [|x l Hs IH Hx]; constructor; [|done].
  intros Hin. rewrite Forall_forall in Hx.
  apply list_elem_of_In, Hx in Hin. lia.
Qed.

(** The indices read back from the mask of a canonical index list. *)
Lemma where_set_true (I : list Z) (n : nat) :
  StronglySorted Z.lt I →
  Forall (λ i, 0 ≤ i < Z.of_nat n) I →
  ∃ mask, set_true (replicate n false) I = Some mask ∧ length mask = n ∧
          where_ (BoolArr mask) = I.
Proof.
  intros Hs HI.
  destruct (set_true_spec I (replicate n false)) as (mask & Hset & Hlen & Hm).
  { by rewrite length_replicate. }
  rewrite length_replicate in Hlen, Hm.
  exists mask. split_and!; [done|done|].
  apply (StronglySorted_unique_strong Z.lt).
  - intros; lia.
  - apply where_canonical.
  - done.
  - apply NoDup_Permutation.
    + apply strongly_sorted_lt_NoDup, where_canonical.
    + by apply strongly_sorted_lt_NoDup.
    + intros j. unfold where_, truth. rewrite elem_of_nonzero_from.
      rewrite Forall_forall in HI. split.
      * intros (k & -> & Hk). apply Hm in Hk as [Hk|[Hk _]].
        -- apply lookup_replicate in Hk as [? _]. done.
        -- by rewrite Z.add_0_l.
      * intros Hj. pose proof (HI j (proj1 (list_elem_of_In _ _) Hj)) as Hr.
        exists (Z.to_nat j). split; [lia|]. apply Hm. right.
        split; [|lia]. by rewrite Z2Nat.id by lia.
Qed.

(** The true entries of the mask made of an index list. *)
Lemma set_true_members (I : list Z) (n : nat) (mask : list bool) :
  Forall (λ i, 0 ≤ i < Z.of_nat n) I →
  set_true (replicate n false) I = Some mask →
  ∀ k, mask !! k = Some true ↔ Z.of_nat k ∈ I.
Proof.
  intros HI Hset k.
  destruct (set_true_spec I (replicate n false)) as (m & Hset' & _ & Hm).
  { by rewrite length_replicate. }
  assert (m = mask) as -> by congruence.
  rewrite Hm, length_replicate. split.
  - intros [[? _]%lookup_replicate|[? _]]; done.
  - intros Hk. right. split; [done|].
    rewrite Forall_forall in HI.
    pose proof (HI _ (proj1 (list_elem_of_In _ _) Hk)). lia.
Qed.

(** C9.  For a strictly increasing list of pore indices below [Np],
    [tomask] returns a boolean mask of [Np] entries that is true exactly
    at the listed indices, and [toindices] recovers the list from it; the
    same holds for a list of throat indices below [Nt] and a mask of [Nt]
    entries, whether or not [Np] and [Nt] differ.  Neither call changes
    the state. *)
Theorem tomask_toindices_roundtrip st (I : list Z) allp allt :
  self st !! "pore.all" = Some allp →
  self st !! "throat.all" = Some allt →
  StronglySorted Z.lt I →
  (Forall (λ i, 0 ≤ i < Z.of_nat (size allp)) I →
   ∃ mask, tomask (Some (IntArr I)) None st = (Ok (BoolArr mask), st) ∧
           length mask = size allp ∧
           (∀ k, mask !! k = Some true ↔ Z.of_nat k ∈ I) ∧
           toindices (BoolArr mask) st = (Ok I, st)) ∧
  (Forall (λ i, 0 ≤ i < Z.of_nat (size allt)) I →
   ∃ mask, tomask None (Some (IntArr I)) st = (Ok (BoolArr mask), st) ∧
           length mask = size allt ∧
           (∀ k, mask !! k = Some true ↔ Z.of_nat k ∈ I) ∧
           toindices (BoolArr mask) st = (Ok I, st)).
Proof.
  intros Hp Ht Hs.
  assert (Base.Np st = (Ok (size allp), st)) as HNp
    by (unfold Base.Np, count_prop; by rewrite Hp).
  assert (Base.Nt st = (Ok (size allt), st)) as HNt
    by (unfold Base.Nt, count_prop; by rewrite Ht).
  split; intros HI.
  - destruct (where_set_true I (size allp) Hs HI) as (mask & Hset & Hlen & Hw).
    exists mask. split_and!; [|done|by apply (set_true_members I (size allp))|].
    + unfold tomask, _tomask, bind, lift, _parse_indices, __getitem__, ret.
      change (_parse_element_single (PyStr "pore")) with (@Ok string "pore").
      change (default (IntArr []) (Some (IntArr I))) with (IntArr I).
      cbv beta iota. change ("pore" +:+ ".all") with "pore.all".
      rewrite Hp. cbv beta iota. by rewrite Hset.
    + unfold toindices, _parse_indices.
      change (default (IntArr []) (Some (BoolArr mask))) with (BoolArr mask).
      cbv beta iota. unfold bind at 1.
      rewrite HNp. rewrite decide_True by done.
      unfold Ps, bind, ret. rewrite HNp. by rewrite <- Hlen, select_arange, Hw.
  - destruct (where_set_true I (size allt) Hs HI) as (mask & Hset & Hlen & Hw).
    exists mask. split_and!; [|done|by apply (set_true_members I (size allt))|].
    + unfold tomask, _tomask, bind, lift, _parse_indices, __getitem__, ret.
      change (_parse_element_single (PyStr "throat")) with (@Ok string "throat").
      change (default (IntArr []) (Some (IntArr I))) with (IntArr I).
      cbv beta iota. change ("throat" +:+ ".all") with "throat.all".
      rewrite Ht. cbv beta iota. by rewrite Hset.
    + unfold toindices, _parse_indices.
      change (default (IntArr []) (Some (BoolArr mask))) with (BoolArr mask).
      cbv beta iota. unfold bind at 1.
      rewrite HNp. case_decide as Hsame.
      * unfold Ps, bind, ret. rewrite HNp.
        by rewrite <- Hsame, select_arange, Hw.
      * unfold bind at 1. rewrite HNt. rewrite decide_True by done.
        unfold Ts, bind, ret. rewrite HNt.
        by rewrite <- Hlen, select_arange, Hw.
Qed.

Lemma tomask_toindices_roundtrip_witness :
  (∃ mask, tomask (Some (IntArr [0; 2; 3])) None (__init__ 5 4)
             = (Ok (BoolArr mask), __init__ 5 4) ∧
           length mask = 5%nat ∧
           (∀ k, mask !! k = Some true ↔ Z.of_nat k ∈ [0; 2; 3]) ∧
           toindices (BoolArr mask) (__init__ 5 4)
             = (Ok [0; 2; 3], __init__ 5 4)) ∧
  (∃ mask, tomask None (Some (IntArr [0; 2; 3])) (__init__ 5 4)
             = (Ok (BoolArr mask), __init__ 5 4) ∧
           length mask = 4%nat ∧
           (∀ k, mask !! k = Some true ↔ Z.of_nat k ∈ [0; 2; 3]) ∧
           toindices (BoolArr mask) (__init__ 5 4)
             = (Ok [0; 2; 3], __init__ 5 4)).
Proof.
  destruct (tomask_toindices_roundtrip (__init__ 5 4) [0; 2; 3]
              (ones 5 dt_bool) (ones 4 dt_bool)) as [Hpores Hthroats].
  - reflexivity.
  - reflexivity.
  - repeat constructor; lia.
  - split; [apply Hpores|apply Hthroats]; repeat constructor; simpl; lia.
Defined.

(** ** Checks of the queries and of the string functions *)

(** The four selections, under the mode names the code accepts. *)
Example query_union :
  fst (pores (PyList ["top"; "left"]) (PyStr "union") labelled_store)
  = Ok [0; 1; 2].
Proof. by vm_compute. Qed.
Example query_intersection :
  fst (pores (PyList ["top"; "left"]) (PyStr "intersection") labelled_store)
  = Ok [0].
Proof. by vm_compute. Qed.
Example query_not_intersection :
  fst (pores (PyList ["top"; "left"]) (PyStr "not_intersection") labelled_store)
  = Ok [1; 2].
Proof. by vm_compute. Qed.
Example query_not :
  fst (pores (PyList ["top"]) (PyStr "not") labelled_store) = Ok [1].
Proof. by vm_compute. Qed.
Example query_all_throats :
  fst (throats (PyStr "all") (PyStr "union") labelled_store) = Ok [0; 1].
Proof. by vm_compute. Qed.

(** A matching wildcard, a label that is not stored (logged, then a
    [KeyError] at the lookup) and a pattern with '*' in the middle. *)
Example query_wildcard :
  fst (pores (PyStr "to*") (PyStr "union") labelled_store) = Ok [0; 2].
Proof. by vm_compute. Qed.
Example query_missing_label :
  fst (pores (PyStr "inlet") (PyStr "union") labelled_store)
  = Raise (KeyError "pore.inlet").
Proof. by vm_compute. Qed.
Example query_inner_wildcard :
  fst (pores (PyStr "to*p") (PyStr "union") labelled_store)
  = Raise (UnboundLocalError "temp").
Proof. by vm_compute. Qed.


Example split_key : PyStr.split "." "pore.all" = ["pore"; "all"].
Proof. reflexivity. Qed.
Example rsplit_plural : PyStr.rsplit1_head "s" "throats" = "throat".
Proof. reflexivity. Qed.
Example dedup_skip : PyStr.remove_dupes [1; 1; 1; 2]%nat = [1; 2]%nat.
Proof. reflexivity. Qed.
Example dedup_skip2 : PyStr.remove_dupes [1; 1; 1; 1]%nat = [1; 1]%nat.
Proof. reflexivity. Qed.
Example strip_star : PyStr.strip "*" "**to*p**" = "to*p".
Proof. reflexivity. Qed.
Example endswith_ex : PyStr.endswith "bottom" "tom" = true.
Proof. reflexivity. Qed.
Example wrap_ex : Np.wrap8 200 = -56.
Proof. reflexivity. Qed.

(** * Properties of the conductance model *)

Module Conduit.
Import Physics.

Lemma binary_round_aux_nonneg mx ex lx :
  nonneg (binary_round_aux prec emax false mx ex lx) = true.
Proof.
  unfold binary_round_aux.
  destruct (shr_fexp prec emax mx ex lx) as [mrs' e'].
  destruct (shr_fexp prec emax _ e' loc_Exact) as [mrs'' e''].
  destruct (shr_m mrs''); [done| |done].
  by destruct (Z.leb e'' (Z.sub emax prec)).
Qed.

Lemma fmul_nonneg x y :
  nonneg x = true → nonneg y = true → nonneg (fmul x y) = true.
Proof.
  destruct x as [[]|[]| |[] ??], y as [[]|[]| |[] ??]; try done.
  intros _ _. apply binary_round_aux_nonneg.
Qed.

Lemma fmul_self_nonneg x : nonneg (fmul x x) = true.
Proof. destruct x as [[]|[]| |[] ??]; try done; apply binary_round_aux_nonneg. Qed.

Lemma SFdiv_nonneg x y :
  nonneg x = true → nonneg y = true → nonneg (SFdiv prec emax x y) = true.
Proof.
  destruct x as [[]|[]| |[] mx ex], y as [[]|[]| |[] my ey]; try done.
  intros _ _. unfold SFdiv.
  destruct (SFdiv_core_binary prec emax (Zpos mx) ex (Zpos my) ey) as [[mz ez] lz].
  apply binary_round_aux_nonneg.
Qed.

Lemma fadd_nonneg x y :
  nonneg x = true → nonneg y = true → nonneg (fadd x y) = true.
Proof.
  destruct x as [[]|[]| |[] mx ex], y as [[]|[]| |[] my ey]; try done.
  intros _ _. unfold fadd, SFadd, cond_Zopp, binary_normalize.
  destruct (shl_align mx ex (Z.min ex ey)) as [mx' ex'].
  destruct (shl_align my ey (Z.min ex ey)) as [my' ey'].
  cbn [fst]. change (Z.pos mx' + Z.pos my') with (Z.pos (mx' + my')).
  cbv iota. unfold binary_round.
  destruct (shl_align _ _ _) as [mz ez]. apply binary_round_aux_nonneg.
Qed.

Lemma fsqrt_nonneg x : nonneg x = true → nonneg (fsqrt x) = true.
Proof.
  destruct x as [[]|[]| |[] mx ex]; try done. intros _. unfold fsqrt, SFsqrt.
  destruct (SFsqrt_core_binary prec emax (Zpos mx) ex) as [[mz ez] lz].
  apply binary_round_aux_nonneg.
Qed.

Lemma fadd_zero_r x : nonneg x = true → fadd x zero = x.
Proof. by destruct x as [[]|[]| |[] ??]. Qed.

Lemma fadd_zero_l x : nonneg x = true → fadd zero x = x.
Proof. by destruct x as [[]|[]| |[] ??]. Qed.

Lemma fdiv_nonneg x y :
  nonneg x = true → nonneg y = true → nonneg (fdiv x y).1 = true.
Proof. apply SFdiv_nonneg. Qed.

Lemma segment_conductance_nonneg t c s :
  (∀ s', nonneg (area c s') = true ∧ nonneg (conduit_length c s') = true ∧
         nonneg (diffusivity c s') = true) →
  nonneg (segment_conductance t c s).1 = true.
Proof.
  intros Hc. destruct (Hc s) as (HA & HL & HD).
  unfold segment_conductance. destruct (nonzero (conduit_length c s)); [|done].
  destruct t; cbn [fst fdiv]; [..|done].
  - apply SFdiv_nonneg; [by apply fmul_nonneg|].
    repeat apply fmul_nonneg; done.
  - apply SFdiv_nonneg; [by apply fmul_nonneg|done].
  - unfold bind, fdiv. cbn [fst].
    apply SFdiv_nonneg; [|done].
    apply fmul_nonneg; [|done]. apply fmul_nonneg; [done|].
    apply fadd_nonneg; [done|]. apply SFdiv_nonneg; [|done].
    apply fmul_self_nonneg.
Qed.

Lemma resistance_nonneg t c s :
  (∀ s', nonneg (area c s') = true ∧ nonneg (conduit_length c s') = true ∧
         nonneg (diffusivity c s') = true) →
  nonneg (shape_factor c s) = true →
  nonneg (resistance t c s).1 = true.
Proof.
  intros Hc HSF. pose proof (segment_conductance_nonneg t c s Hc) as Hg.
  unfold resistance, bind.
  destruct (segment_conductance t c s) as [g flag]. cbn [fst] in Hg.
  unfold fdiv. cbn [fst]. apply SFdiv_nonneg; [|done].
  by apply SFdiv_nonneg.
Qed.

(** The terms of a segment of zero length. *)
Lemma resistance_zero_length t c s :
  nonzero (conduit_length c s) = false →
  positive (shape_factor c s) = true →
  segment_conductance t c s = (inf, false) ∧
  resistance t c s = (zero, false).
Proof.
  intros HL HSF. unfold resistance, segment_conductance. rewrite HL.
  split; [done|]. unfold bind, ret, fdiv. cbn.
  by destruct (shape_factor c s) as [[]|[]| |[] ??].
Qed.


(** The conduit formula in terms of the three resistances. *)
Lemma generic_conductance_resistances t c :
  t ≠ unknown →
  generic_conductance t c =
  returns (rt <- resistance t c throat ;;
           r1 <- resistance t c pore1 ;;
           r2 <- resistance t c pore2 ;;
           fdiv f1 (fadd (fadd rt r1) r2))%fp.
Proof.
  intros Ht. unfold generic_conductance, resistance, returns, bind.
  destruct (segment_conductance t c pore1) as [g1 F1].
  destruct (segment_conductance t c pore2) as [g2 F2].
  destruct (segment_conductance t c throat) as [gt Ft].
  destruct (fdiv f1 gt) as [a fa]. destruct (fdiv a _) as [rt frt].
  destruct (fdiv f1 g1) as [b fb]. destruct (fdiv b _) as [r1 fr1].
  destruct (fdiv f1 g2) as [d fd]. destruct (fdiv d _) as [r2 fr2].
  destruct (fdiv f1 _) as [g fg]. cbn [fst snd].
  destruct t; [| | |done]; f_equal;
    destruct F1, F2, Ft, fa, frt, fb, fr1, fd, fr2, fg; reflexivity.
Qed.

(** C7 (amended).  For a known transport type, a segment of zero length
    is given an infinite conductance without any division, and the
    returned value and division-by-zero flag are those of the series
    combination of the two other segments, when the areas, lengths,
    diffusivities and shape factors have a clear sign bit and the shape
    factor of the segment is positive. *)
Theorem zero_length_segment t c s :
  t ≠ unknown →
  nonzero (conduit_length c s) = false →
  positive (shape_factor c s) = true →
  (∀ s', nonneg (area c s') = true ∧ nonneg (conduit_length c s') = true ∧
         nonneg (diffusivity c s') = true) →
  (∀ s', nonneg (shape_factor c s') = true) →
  segment_conductance t c s = (inf, false) ∧
  generic_conductance t c = returns (series_without t c s).
Proof.
  intros Ht HL HSF Hc Hsf.
  destruct (resistance_zero_length t c s HL HSF) as [Hg Hr].
  split; [done|]. rewrite generic_conductance_resistances by done.
  pose proof (λ s', resistance_nonneg t c s' Hc (Hsf s')) as Hnn.
  unfold series_without, series_of_two, bind.
  destruct s; rewrite Hr.
  - pose proof (Hnn throat). destruct (resistance t c throat) as [rt frt].
    destruct (resistance t c pore2) as [r2 fr2].
    cbn [fst] in *. rewrite fadd_zero_r by done.
    destruct (fdiv f1 _) as [g fg]. unfold returns. cbn [fst snd].
    f_equal; by destruct frt, fr2, fg.
  - pose proof (Hnn pore1). destruct (resistance t c pore1) as [r1 fr1].
    destruct (resistance t c pore2) as [r2 fr2].
    cbn [fst] in *. rewrite fadd_zero_l by done.
    destruct (fdiv f1 _) as [g fg]. unfold returns. cbn [fst snd].
    f_equal; by destruct fr1, fr2, fg.
  - pose proof (Hnn throat). pose proof (Hnn pore1).
    destruct (resistance t c throat) as [rt frt].
    destruct (resistance t c pore1) as [r1 fr1].
    cbn [fst] in *. rewrite fadd_zero_r by (by apply fadd_nonneg).
    destruct (fdiv f1 _) as [g fg]. unfold returns. cbn [fst snd].
    f_equal; by destruct frt, fr1, fg.
Qed.

Lemma zero_length_segment_witness :
  segment_conductance diffusion (uniform f1 f1 f1 f1 zero) pore1 = (inf, false) ∧
  generic_conductance diffusion (uniform f1 f1 f1 f1 zero) =
  returns (series_without diffusion (uniform f1 f1 f1 f1 zero) pore1).
Proof.
  apply (zero_length_segment diffusion (uniform f1 f1 f1 f1 zero) pore1).
  - discriminate.
  - reflexivity.
  - reflexivity.
  - intros s'. by destruct s'.
  - intros s'. reflexivity.
Defined.

(** The witness conduit: a pore of zero length in front of a throat and a
    pore of unit conductance gives one half, without a flag. *)
Example boundary_conduit_value :
  generic_conductance diffusion (uniform f1 f1 f1 f1 zero) =
  Returns (S754_finite false 4503599627370496 (-53)) false.
Proof. by vm_compute. Qed.

(** C7 as stated fails on "no division by zero occurs": when the three
    lengths are zero the three terms of the sum are zero and the final
    reciprocal divides one by zero; and next to a pore of zero length, a
    throat and a pore of zero area have a zero conductance, whose
    reciprocal divides one by zero. *)
Lemma zero_length_still_divides_by_zero :
  generic_conductance diffusion (uniform f1 zero f1 f1 zero) =
    Returns inf true ∧
  generic_conductance diffusion (uniform zero f1 f1 f1 zero) =
    Returns zero true.
Proof. by vm_compute. Qed.

End Conduit.

(** * Properties of the conductance matrix *)

Module Laplacian.
Import Assembler.
Local Open Scope Qc_scope.

Lemma entry_add_entry A a b g i j :
  entry (add_entry A a b g) i j = entry A i j + ind a i (ind b j g).
Proof.
  unfold add_entry, entry at 1, ind. rewrite lookup_insert.
  repeat case_decide; simplify_eq; fold (entry A i j); try ring.
  simpl. ring.
Qed.

Lemma entry_add_edge A a b g i j :
  entry (add_edge A a b g) i j =
  entry A i j +
  (ind a i (ind a j g) + ind b i (ind b j g)
   + ind a i (ind b j (- g)) + ind b i (ind a j (- g))).
Proof. unfold add_edge. rewrite !entry_add_entry. ring. Qed.

Lemma sum_upto_plus f h N :
  sum_upto (λ j, f j + h j) N = sum_upto f N + sum_upto h N.
Proof. induction N as [|N IH]; simpl; [ring|]. rewrite IH. ring. Qed.

Lemma sum_upto_ext f h N :
  (∀ j, f j = h j) → sum_upto f N = sum_upto h N.
Proof. intros H. induction N as [|N IH]; simpl; [done|]. by rewrite IH, H. Qed.

Lemma sum_upto_ind b g N :
  sum_upto (λ j, ind b j g) N = if decide (b < N)%nat then g else 0.
Proof.
  induction N as [|N IH]; cbn [sum_upto].
  - case_decide; [lia|done].
  - rewrite IH. unfold ind. repeat case_decide; try lia; ring.
Qed.

Lemma sum_upto_ind_row a i b g N :
  sum_upto (λ j, ind a i (ind b j g)) N =
  ind a i (if decide (b < N)%nat then g else 0).
Proof.
  unfold ind at 1 3. case_decide.
  - apply sum_upto_ind.
  - clear. induction N as [|N IH]; simpl; [done|]. rewrite IH. ring.
Qed.

Lemma add_edge_symmetric A a b g : symmetric A → symmetric (add_edge A a b g).
Proof.
  intros Hsym i j. rewrite !entry_add_edge, (Hsym i j). f_equal.
  unfold ind. repeat case_decide; simplify_eq; ring.
Qed.

Lemma add_edge_row_sum A N a b g i :
  (a < N)%nat → (b < N)%nat →
  row_sum (add_edge A a b g) N i = row_sum A N i.
Proof.
  intros Ha Hb. unfold row_sum.
  rewrite (sum_upto_ext _ _ N (entry_add_edge A a b g i)).
  rewrite !sum_upto_plus, !sum_upto_ind_row.
  rewrite !decide_True by done. unfold ind. repeat case_decide; ring.
Qed.

Lemma assemble_from_laplacian A N conns g :
  length conns = length g →
  Forall (valid_edge N) conns →
  symmetric A → (∀ i, row_sum A N i = 0) →
  ∃ A', assemble_from A N conns g = inr A' ∧
        symmetric A' ∧ ∀ i, row_sum A' N i = 0.
Proof.
  revert A g. induction conns as [|[a b] conns IH]; intros A g Hlen Hvalid Hs Hr.
  { exists A. by destruct g. }
  destruct g as [|ge g]; [done|]. simpl in Hlen.
  inversion Hvalid as [|?? (Ha & Hb & Hab) Hvalid']; subst. simpl in Ha, Hb, Hab.
  simpl. rewrite decide_False by lia.
  apply IH; [lia|done| |].
  - case_decide; [done|]. by apply add_edge_symmetric.
  - intros i. case_decide; [done|]. by rewrite add_edge_row_sum.
Qed.

(** C8.  For a connectivity table of [M] edges that each name two
    distinct nodes of [0, N) and [M] non-negative conductances, the
    assembly succeeds and the matrix is symmetric with every row summing
    to zero. *)
Theorem conductance_matrix_laplacian N conns g :
  length conns = length g →
  Forall (valid_edge N) conns →
  Forall (λ ge, 0 ≤ ge) g →
  ∃ A, assemble N conns g = inr A ∧
       symmetric A ∧ ∀ i, row_sum A N i = 0.
Proof.
  intros Hlen Hvalid _. apply assemble_from_laplacian; [done|done| |].
  - intros i j. done.
  - intros i. unfold row_sum. clear. induction N as [|N IH]; simpl; [done|].
    rewrite IH. unfold entry. rewrite lookup_empty. simpl. ring.
Qed.

Lemma conductance_matrix_laplacian_witness :
  ∃ A, assemble 3 [(0, 1); (1, 2)]%nat [Q2Qc 1; Q2Qc (1 # 2)] = inr A ∧
       symmetric A ∧ ∀ i, row_sum A 3 i = 0.
Proof.
  apply (conductance_matrix_laplacian 3 [(0, 1); (1, 2)]%nat
           [Q2Qc 1; Q2Qc (1 # 2)]).
  - reflexivity.
  - repeat constructor; simpl; lia.
  - repeat constructor; by vm_compute.
Defined.

End Laplacian.

(** * Further properties of the store *)

(** ** The removal of duplicates *)

Lemma count_pos_elem_of {A} `{EqDecision A} (x : A) l :
  (0 < PyStr.count x l)%nat → x ∈ l.
Proof.
  unfold PyStr.count. induction l as [|y l IH]; simpl; [lia|].
  rewrite filter_cons. case_decide as Hy; [subst; intros _; by left|].
  intros H. right. by apply IH.
Qed.

Lemma count_cons {A} `{EqDecision A} (x y : A) l :
  PyStr.count x (y :: l) =
  if decide (y = x) then S (PyStr.count x l) else PyStr.count x l.
Proof. unfold PyStr.count. rewrite filter_cons. by case_decide. Qed.

Lemma remove_first_keeps {A} `{EqDecision A} (x L : A) l :
  x ∈ l → x ≠ L ∨ (1 < PyStr.count L l)%nat → x ∈ PyStr.remove_first L l.
Proof.
  induction l as [|y l IH]; [by intros H; inversion H|].
  rewrite count_cons. simpl. intros Hx Hc. case_decide as Hy.
  - subst y. apply elem_of_cons in Hx as [->|Hx]; [|done].
    destruct Hc as [Hc|Hc]; [done|]. apply count_pos_elem_of. lia.
  - apply elem_of_cons in Hx as [->|Hx]; [by left|]. right. by apply IH.
Qed.

Lemma remove_dupes_from_keeps {A} `{EqDecision A} fuel i (x : A) l :
  x ∈ l → x ∈ PyStr.remove_dupes_from fuel i l.
Proof.
  revert i l. induction fuel as [|fuel IH]; intros i l Hx; [done|].
  simpl. destruct (l !! i) as [L|]; [|done]. case_decide as Hc; [|by apply IH].
  apply IH, remove_first_keeps; [done|]. by right.
Qed.

(** The idiom loses no item: the list it leaves has the items of the
    list it was given. *)
Lemma remove_dupes_elem_of {A} `{EqDecision A} (x : A) l :
  x ∈ PyStr.remove_dupes l ↔ x ∈ l.
Proof.
  split; [apply remove_dupes_subseteq|apply remove_dupes_from_keeps].
Qed.

Lemma count_replicate {A} `{EqDecision A} (x : A) n :
  PyStr.count x (replicate n x) = n.
Proof.
  induction n as [|n IH]; [done|]. cbn [replicate].
  by rewrite count_cons, decide_True, IH.
Qed.

Lemma remove_first_replicate {A} `{EqDecision A} (x : A) n :
  PyStr.remove_first x (replicate (S n) x) = replicate n x.
Proof. simpl. by rewrite decide_True. Qed.

(** On [n] copies of one item the walk removes a copy at every step
    until the position it visits passes the end of what is left. *)
Lemma remove_dupes_from_replicate {A} `{EqDecision A} (x : A) fuel i n :
  (n ≤ i + fuel)%nat →
  PyStr.remove_dupes_from fuel i (replicate n x) =
  replicate (if decide (i < n ∧ 1 < n)%nat then (n + i) / 2 else n)%nat x.
Proof.
  revert i n. induction fuel as [|fuel IH]; intros i n Hfuel.
  { cbn [PyStr.remove_dupes_from]. by rewrite decide_False by lia. }
  cbn [PyStr.remove_dupes_from]. destruct (replicate n x !! i) as [L|] eqn:HL.
  - apply lookup_replicate in HL as [-> Hi]. rewrite count_replicate.
    destruct (decide (1 < n)%nat) as [Hn|Hn].
    + destruct n as [|n]; [lia|]. rewrite remove_first_replicate.
      rewrite IH by lia. rewrite (decide_True (P := (i < S n ∧ 1 < S n)%nat))
        by lia.
      f_equal. case_decide as Hc.
      * by replace (n + S i)%nat with (S n + i)%nat by lia.
      * assert (S n = i + 1 ∨ S n = i + 2)%nat as [Hcase|Hcase] by lia.
        -- rewrite Hcase. replace (i + 1 + i)%nat with (1 + i * 2)%nat by lia.
           rewrite Nat.div_add by lia. cbn. lia.
        -- rewrite Hcase. replace (i + 2 + i)%nat with ((i + 1) * 2)%nat by lia.
           rewrite Nat.div_mul by lia. lia.
    + rewrite IH by lia. by rewrite !decide_False by lia.
  - apply lookup_ge_None in HL. rewrite length_replicate in HL.
    by rewrite decide_False by lia.
Qed.

Lemma remove_dupes_replicate {A} `{EqDecision A} (x : A) n :
  PyStr.remove_dupes (replicate n x) =
  replicate (if decide (1 < n)%nat then n / 2 else n)%nat x.
Proof.
  unfold PyStr.remove_dupes. rewrite length_replicate.
  rewrite remove_dupes_from_replicate by lia. f_equal.
  destruct (decide (1 < n)%nat).
  - rewrite decide_True by lia. by rewrite Nat.add_0_r.
  - by rewrite decide_False by lia.
Qed.

(** ** Parsing of modes *)

Lemma check_allowed_ok allowed l :
  Forall (λ m, m ∈ allowed) l → check_allowed (Some allowed) l = Ok ().
Proof.
  induction l as [|m l IH]; [done|]. intros Hl.
  inversion Hl as [|?? Hm Hl']; subst. simpl. unfold mem.
  rewrite bool_decide_eq_true_2 by done. simpl. by apply IH.
Qed.

Lemma check_allowed_raise allowed l :
  ¬ Forall (λ m, m ∈ allowed) l →
  check_allowed (Some allowed) l =
  Raise (Exception ("'mode' must be one of the following: "
                    +:+ PyStr.repr_list allowed)).
Proof.
  induction l as [|m l IH]; intros Hl; [by destruct Hl|].
  simpl. unfold mem. case_bool_decide as Hm; simpl; [|done].
  apply IH. intros Hl'. apply Hl. by constructor.
Qed.

(** X1.  [_parse_mode] accepts a list of modes exactly when each of them
    is in the allowed list; it then returns a list with the same modes as
    the list given, none lost and none added, and otherwise raises the
    exception that names the allowed modes. *)
Theorem parse_mode_members (l allowed : list string) :
  (Forall (λ m, m ∈ allowed) l →
   ∃ r, _parse_mode (PyList l) (Some allowed) = Ok r ∧ ∀ m, m ∈ r ↔ m ∈ l) ∧
  (¬ Forall (λ m, m ∈ allowed) l →
   _parse_mode (PyList l) (Some allowed) =
   Raise (Exception ("'mode' must be one of the following: "
                     +:+ PyStr.repr_list allowed))).
Proof.
  split; intros Hl; unfold _parse_mode; cbn [as_list].
  - rewrite check_allowed_ok by done. eexists. split; [done|].
    intros m. apply remove_dupes_elem_of.
  - by rewrite check_allowed_raise.
Qed.

Lemma parse_mode_members_witness :
  (∃ r, _parse_mode (PyList ["not"; "union"; "not"])
          (Some ["union"; "intersection"; "not"]) = Ok r ∧
        ∀ m, m ∈ r ↔ m ∈ ["not"; "union"; "not"]) ∧
  _parse_mode (PyList ["any"]) (Some ["union"; "intersection"; "not"]) =
  Raise (Exception
    "'mode' must be one of the following: ['union', 'intersection', 'not']").
Proof.
  split.
  - apply (parse_mode_members ["not"; "union"; "not"]
             ["union"; "intersection"; "not"]).
    repeat constructor; by apply (bool_decide_unpack _).
  - apply (parse_mode_members ["any"] ["union"; "intersection"; "not"]).
    intros H. inversion H as [|?? Hm _]; subst. not_listed Hm.
Defined.

(** X2.  With [single=True] a mode repeated in the list is accepted when
    it is given one, two or three times and refused as "multiple modes"
    when it is given four times or more: the removal of duplicates leaves
    [n / 2] of [n] copies.  The empty list ends in an [IndexError]. *)
Theorem parse_mode_single_repeated (n : nat) (m : string)
    (allowed : list string) :
  m ∈ allowed →
  _parse_mode_single (PyList (replicate n m)) (Some allowed) =
  if decide (n = 0)%nat then Raise IndexError
  else if decide (n ≤ 3)%nat then Ok m
  else Raise (Exception "Multiple modes received when only one mode allowed").
Proof.
  intros Hm. unfold _parse_mode_single, _parse_mode. cbn [as_list].
  rewrite check_allowed_ok
    by (apply Forall_forall; by intros ? ->%list_elem_of_In%elem_of_replicate_inv).
  rewrite remove_dupes_replicate, length_replicate.
  destruct n as [|[|[|[|n]]]]; try reflexivity.
  rewrite (decide_True (P := (1 < S (S (S (S n))))%nat)) by lia.
  assert (2 ≤ S (S (S (S n))) / 2)%nat.
  { apply Nat.div_le_lower_bound; lia. }
  rewrite decide_True by lia. by rewrite decide_False by lia.
Qed.

Lemma parse_mode_single_repeated_witness :
  _parse_mode_single (PyList ["union"; "union"; "union"; "union"])
    (Some ["union"; "intersection"]) =
  Raise (Exception "Multiple modes received when only one mode allowed").
Proof.
  apply (parse_mode_single_repeated 4 "union" ["union"; "intersection"]).
  by apply (bool_decide_unpack _).
Defined.

(** ** Parsing of elements *)

Lemma before_last_None sep s :
  PyStr.before_last sep s = None ↔
  PyStr.contains (String sep EmptyString) s = false.
Proof.
  induction s as [|c s IH]; [done|].
  rewrite contains_char_cons, orb_false_iff, <- IH. simpl.
  destruct (PyStr.before_last sep s) as [h|].
  - split; [done|]. by intros [_ ?].
  - destruct (Ascii.eqb_spec c sep) as [->|Hne].
    + rewrite Ascii.eqb_refl. split; [done|]. by intros [? _].
    + split; [|done]. intros _. split; [|done].
      apply Ascii.eqb_neq. congruence.
Qed.

Lemma before_last_Some sep s h :
  PyStr.before_last sep s = Some h ↔
  ∃ rest, s = h +:+ String sep rest ∧
          PyStr.contains (String sep EmptyString) rest = false.
Proof.
  revert h. induction s as [|c s IH]; intros h.
  { split; [done|]. intros (rest & Hs & _). by destruct h. }
  simpl. destruct (PyStr.before_last sep s) as [h'|] eqn:Hb.
  - split.
    + intros [= <-]. destruct (proj1 (IH h') eq_refl) as (rest & -> & Hrest).
      by exists rest.
    + intros (rest & Hs & Hrest). destruct h as [|d h].
      * injection Hs as -> ->. apply before_last_None in Hrest. congruence.
      * injection Hs as -> ->. f_equal. f_equal.
        assert (Some h' = Some h) as [= ->]; [|done].
        apply IH. by exists rest.
  - split.
    + destruct (Ascii.eqb_spec c sep) as [->|Hne]; [|done].
      intros H. simplify_eq. exists s. split; [done|].
      by apply before_last_None.
    + intros (rest & Hs & Hrest). destruct h as [|d h].
      * injection Hs as -> ->. by rewrite Ascii.eqb_refl.
      * injection Hs as -> ->.
        assert (None = Some h) as [=]. apply IH. by exists rest.
Qed.

(** X3.  [_parse_element] with [single=True] reads a string as an
    element in two cases only: its first component, in lower case, is
    'pore' or 'throat', or is one of these followed by an 's' and by any
    text without a further 's'; 'Pores' and 'THROATS.length' are read
    as elements in this way, and so is 'poresize'.  Every other string
    is refused. *)
Theorem parse_element_spellings (s e : string) :
  _parse_element_single (PyStr s) = Ok e ↔
  e ∈ ["pore"; "throat"] ∧
  (PyStr.lower (PyStr.head_component s) = e ∨
   ∃ rest, PyStr.lower (PyStr.head_component s) = e +:+ String "s" rest ∧
           PyStr.contains "s" rest = false).
Proof.
  set (y := PyStr.lower (PyStr.head_component s)).
  assert (_parse_element_single (PyStr s) =
          if mem (PyStr.rsplit1_head "s" y) ["pore"; "throat"]
          then Ok (PyStr.rsplit1_head "s" y)
          else Raise (Exception ("Invalid element received: "
                                 +:+ PyStr.rsplit1_head "s" y))) as ->.
  { unfold _parse_element_single, _parse_element. cbn [map check_elements].
    fold y. destruct (mem (PyStr.rsplit1_head "s" y) _); [|done].
    cbn [negb]. by rewrite remove_dupes_singleton. }
  assert (∀ e', e' ∈ ["pore"; "throat"] →
            PyStr.before_last "s" e' = None) as Hnone.
  { intros e' He'. repeat (apply elem_of_cons in He' as [->|He']);
      [done|done|by inversion He']. }
  unfold mem, PyStr.rsplit1_head. split.
  - case_bool_decide as Hx; [|done]. intros [= <-]. split; [done|].
    destruct (PyStr.before_last "s" y) as [h|] eqn:Hb; simpl in *.
    + right. by apply before_last_Some.
    + by left.
  - intros [He [Hy|(rest & Hy & Hrest)]].
    + rewrite Hy, (Hnone e He). simpl. by rewrite bool_decide_eq_true_2.
    + assert (PyStr.before_last "s" y = Some e) as ->.
      { apply before_last_Some. by exists rest. }
      simpl. by rewrite bool_decide_eq_true_2.
Qed.

(** ** Assignment: what it refuses and what it leaves alone *)

Lemma for_each_state {A S} (l : list A) (body : S → A → M S) :
  (∀ acc x st, snd (body acc x st) = st) →
  ∀ acc st, snd (for_each l body acc st) = st.
Proof.
  intros Hbody acc st.
  by apply (for_each_invariant (λ st', st' = st) l body);
    [intros acc' x st' ->|].
Qed.

Lemma count_state element st : snd (_count element st) = st.
Proof.
  unfold _count. unfold bind at 1, lift at 1.
  destruct (_parse_element (PyStr element)) as [els|e]; [|done].
  unfold bind at 1.
  pose proof (for_each_state els
    (λ acc e, a <- __getitem__ (e +:+ ".all") ;; ret (acc ++ [size a])%list))
    as Hst.
  specialize (Hst (λ acc x st', ltac:(
    unfold bind, __getitem__, ret; by destruct (self st' !! _))) [] st).
  destruct (for_each els _ [] st) as [[temp|e] st']; simpl in Hst; subst st';
    [|done].
  by destruct temp as [|n [|??]].
Qed.

Lemma count_result element st : ∃ r, _count element st = (r, st).
Proof.
  pose proof (count_state element st) as H.
  destruct (_count element st) as [r st']. simpl in H. subst. by exists r.
Qed.

Lemma setitem_effect key value st :
  setitem_outcome key st (__setitem__ key value st).
Proof.
  assert (∀ r, setitem_outcome key st (r, st)) as Hsame.
  { intros r. exists (self st), []. rewrite app_nil_r. split; [by destruct st|].
    by left. }
  assert (∀ v, setitem_outcome key st (dict_setitem key v st)) as Hset.
  { intros v. exists (<[key := v]> (self st)), []. rewrite app_nil_r.
    split; [done|]. right. split; [done|]. by exists v. }
  unfold __setitem__.
  destruct (String.eqb _ "constant"); [apply Hset|].
  unfold bind at 1, lift at 1.
  destruct (_parse_element_single _) as [element|e]; [|apply Hsame].
  destruct (mem key _); [apply Hset|].
  destruct (PyStr.item1 _) as [name|]; [|apply Hsame].
  destruct (mem name protected_keys).
  { unfold bind at 1, has_key at 1. case_bool_decide as Hdef.
    - destruct Hdef as [old Hold]. unfold bind, __getitem__. rewrite Hold.
      case_decide; [apply Hset|].
      exists (self st), [(WARNING, key +:+ " is already defined.")].
      split; [done|by left].
    - apply Hset. }
  case_decide as Hscalar.
  - unfold bind at 1, log at 1. unfold bind at 1.
    set (st1 := State _ _).
    destruct (count_result element st1) as (rn & ->).
    destruct rn as [n|e].
    + destruct (mul _ value) as [v|].
      * eexists _, _. split; [reflexivity|]. right. split; [done|by exists v].
      * eexists _, _. split; [reflexivity|]. by left.
    + eexists _, _. split; [reflexivity|]. by left.
  - unfold bind at 1. destruct (count_result element st) as (rn & ->).
    destruct rn as [n|e]; [|apply Hsame].
    case_decide.
    + eexists _, _. split; [reflexivity|]. right. split; [done|by exists value].
    + unfold bind at 1. destruct (count_result element st) as (rn & ->).
      destruct rn as [n'|e]; [|apply Hsame].
      case_decide; [apply Hset|apply Hsame].
Qed.

(** X4.  An assignment never touches another key: whatever the key, the
    value and the outcome, every other key holds after the call what it
    held before, no record is taken from the log, and a call that raises
    leaves the whole dictionary as it was. *)
Theorem setitem_frame (key : string) (value : ndarray) (st : state) :
  let st' := snd (__setitem__ key value st) in
  (∀ key', key' ≠ key → self st' !! key' = self st !! key') ∧
  (∃ lg, logger st' = (logger st ++ lg)%list) ∧
  (∀ e, fst (__setitem__ key value st) = Raise e → self st' = self st).
Proof.
  destruct (setitem_effect key value st) as (d & lg & Hst & Hd).
  destruct (__setitem__ key value st) as [r st']. simpl in *. subst st'.
  simpl. split_and!; [|by exists lg|].
  - intros key' Hne. destruct Hd as [->|(_ & v & ->)]; [done|].
    by rewrite lookup_insert_ne.
  - intros e ->. by destruct Hd as [->|([=] & _)].
Qed.

(** X5.  A key that is not headed by 'constant' is refused when its
    first component does not name an element, and also when it has no
    second component; the call raises and the state is unchanged. *)
Theorem setitem_refused (key : string) (value : ndarray) (st : state) :
  PyStr.head_component key ≠ "constant" →
  (∀ element, element_of_key key ≠ Ok element) ∨
  PyStr.contains "." key = false →
  ∃ e, __setitem__ key value st = (Raise e, st).
Proof.
  intros Hc Hkey. unfold __setitem__.
  rewrite (proj2 (String.eqb_neq _ _) Hc).
  unfold bind at 1, lift at 1. unfold element_of_key in Hkey.
  destruct (_parse_element_single _) as [element|e] eqn:He; [|by exists e].
  destruct Hkey as [Hkey|Hdot]; [by destruct (Hkey element)|].
  unfold mem at 1. case_bool_decide as Hskip.
  { repeat (apply elem_of_cons in Hskip as [->|Hskip]);
      [done|done|by inversion Hskip]. }
  rewrite (split_no_sep "." key Hdot). by exists IndexError.
Qed.

Lemma setitem_refused_witness :
  (∃ e, __setitem__ "diameter.pore" (IntArr [1; 2; 3]) (__init__ 3 2)
        = (Raise e, __init__ 3 2)) ∧
  (∃ e, __setitem__ "pores" (IntArr [1; 2; 3]) (__init__ 3 2)
        = (Raise e, __init__ 3 2)).
Proof.
  split.
  - apply (setitem_refused "diameter.pore" (IntArr [1; 2; 3]) (__init__ 3 2)).
    + discriminate.
    + left. intros element. discriminate.
  - apply (setitem_refused "pores" (IntArr [1; 2; 3]) (__init__ 3 2)).
    + discriminate.
    + right. reflexivity.
Defined.

Lemma mul_ones_one value :
  size value = 1%nat → well_typed value →
  mul (ones 1 (dtype_of value)) value = Some value.
Proof.
  destruct value as [[|b [|??]]|[|z [|??]]]; try done; intros _ Hv.
  apply ones_mul_int. by inversion Hv.
Qed.

Lemma checked_key_not_all element x :
  element ∈ ["pore"; "throat"] →
  PyStr.head_component x ∉ protected_keys →
  element +:+ "." +:+ x ≠ element +:+ ".all".
Proof.
  intros He Hprot Heq. apply Hprot.
  assert (PyStr.head_component x = "all") as ->; [|by left].
  apply (f_equal (PyStr.split ".")) in Heq.
  change (element +:+ ".all") with (element +:+ "." +:+ "all") in Heq.
  rewrite (split_element element x), (split_element element "all") in Heq
    by done.
  injection Heq as Heq. unfold PyStr.head_component. by rewrite Heq.
Qed.

(** An array with one entry per location is written as it is. *)
Lemma setitem_stores st element x value all :
  element ∈ ["pore"; "throat"] →
  element +:+ "." +:+ x ∉ ["pore.coords"; "throat.conns"] →
  PyStr.head_component x ∉ protected_keys →
  self st !! (element +:+ ".all") = Some all →
  size value = size all →
  well_typed value →
  ∃ lg, __setitem__ (element +:+ "." +:+ x) value st =
        (Ok (), State (<[element +:+ "." +:+ x := value]> (self st)) lg).
Proof.
  intros He Hskip Hprot Hall Hsize Hv.
  rewrite setitem_checked by done. cbv zeta. case_decide as Hscalar.
  - unfold bind at 1, log at 1. unfold bind at 1.
    rewrite count_element with (a := all) by done.
    assert (mul (ones (size all) (dtype_of value)) value = Some value) as ->.
    { replace (size all) with 1%nat by congruence. by apply mul_ones_one. }
    by eexists.
  - unfold bind at 1. rewrite count_element with (a := all) by done.
    rewrite decide_True by done. unfold bind, log. by eexists.
Qed.



(** ** Properties, labels and [clear] *)

Lemma elem_of_keys (d : gmap string ndarray) k :
  k ∈ (map_to_list d).*1 ↔ is_Some (d !! k).
Proof.
  rewrite list_elem_of_fmap. split.
  - intros ([k' a] & -> & Hk). apply elem_of_map_to_list in Hk. by exists a.
  - intros [a Ha]. exists (k, a). split; [done|]. by apply elem_of_map_to_list.
Qed.

Lemma props_all els element st :
  _parse_element element = Ok els →
  props element (PyList ["all"]) st =
  (Ok (filter (λ i, is_bool (self st) i = false)
         (filter (λ i, PyStr.head_component i ∈ els)
            (map_to_list (self st)).*1)), st).
Proof.
  intros He. unfold props.
  change (_parse_mode (PyList ["all"]) _) with (@Ok (list string) ["all"]).
  unfold bind at 1, lift at 1.
  change (mem "all" ["all"]) with true. cbv iota.
  unfold bind at 1, lift at 1. rewrite He.
  change (mem "data" _) with true. cbv iota. reflexivity.
Qed.

(** The loop of [clear] over distinct stored keys. *)
Lemma clear_loop items st :
  NoDup items →
  (∀ k, k ∈ items → is_Some (self st !! k)) →
  ∃ st',
    for_each items
      (λ _ item,
         if negb (mem item ["pore.all"; "throat.all"]) then dict_delitem item
         else ret ())
      () st = (Ok (), st') ∧
    logger st' = logger st ∧
    ∀ k, self st' !! k =
         if decide (k ∈ items ∧ k ∉ ["pore.all"; "throat.all"]) then None
         else self st !! k.
Proof.
  revert st. induction items as [|item items IH]; intros st Hnd Hin.
  { exists st. split_and!; [done|done|]. intros k.
    rewrite decide_False; [done|]. intros [H _]. by inversion H. }
  inversion Hnd as [|?? Hitem Hnd']; subst.
  cbn [for_each]. unfold bind at 1, mem at 1.
  case_bool_decide as Hprot; cbn [negb].
  - destruct (IH st Hnd') as (st' & Hloop & Hlog & Hd).
    { intros k Hk. apply Hin. by right. }
    unfold ret at 1. exists st'. split_and!; [done|done|].
    intros k. rewrite Hd. destruct (decide (k = item)) as [->|Hne].
    + by rewrite !decide_False by (intros [_ ?]; done).
    + apply decide_ext. split; intros [Hk ?]; (split; [|done]).
      * by right.
      * by apply elem_of_cons in Hk as [?|?].
  - unfold dict_delitem at 1.
    destruct (Hin item) as [a Ha]; [by left|]. rewrite Ha.
    destruct (IH (State (delete item (self st)) (logger st)) Hnd')
      as (st' & Hloop & Hlog & Hd).
    { intros k Hk. simpl. rewrite lookup_delete_ne by (by intros ->).
      apply Hin. by right. }
    exists st'. split_and!; [done|done|].
    intros k. rewrite Hd. simpl. destruct (decide (k = item)) as [->|Hne].
    + rewrite lookup_delete_eq. rewrite (decide_True (P := item ∈ item :: items ∧ _))
        by (split; [by left|done]).
      by case_decide.
    + rewrite lookup_delete_ne by done. apply decide_ext.
      split; intros [Hk ?]; (split; [|done]).
      * by right.
      * by apply elem_of_cons in Hk as [?|?].
Qed.

(** X7.  [clear] in its default mode 'all' ends normally, sends nothing
    to the log and deletes exactly the keys headed by a requested element
    whose array is not boolean, 'pore.all' and 'throat.all' apart; every
    label, every key of the other element and every 'constant' key is
    kept with its array.  [props] of the same elements then lists no key
    other than these two. *)
Theorem clear_all (element : pyarg) (els : list string) (st : state) :
  _parse_element element = Ok els →
  ∃ st' P,
    clear element (PyStr "all") st = (Ok (), st') ∧
    logger st' = logger st ∧
    (∀ key, self st' !! key =
            if decide (cleared els (self st) key) then None
            else self st !! key) ∧
    props element (PyStr "all") st' = (Ok P, st') ∧
    ∀ key, key ∈ P → key ∈ ["pore.all"; "throat.all"].
Proof.
  intros He. unfold clear.
  change (_parse_mode (PyStr "all") _) with (@Ok (list string) ["all"]).
  unfold bind at 1, lift at 1. unfold bind at 1.
  rewrite (props_all els) by done.
  set (items := filter _ (filter _ _)).
  assert (∀ k, k ∈ items ↔
               is_Some (self st !! k) ∧ PyStr.head_component k ∈ els ∧
               is_bool (self st) k = false) as Hitems.
  { intros k. subst items. rewrite !list_elem_of_filter, elem_of_keys. tauto. }
  destruct (clear_loop items st) as (st' & Hloop & Hlog & Hd).
  { subst items. do 2 apply list.NoDup_filter. apply NoDup_fst_map_to_list. }
  { intros k Hk. by apply Hitems in Hk as [? _]. }
  assert (∀ key, self st' !! key =
                 if decide (cleared els (self st) key) then None
                 else self st !! key) as Hd'.
  { intros key. rewrite Hd. unfold cleared.
    destruct (self st !! key) as [a|] eqn:Ha.
    - apply decide_ext. rewrite Hitems, Ha. split.
      + intros [(_ & ? & ?) ?]. done.
      + intros (? & ? & ?). split; [|done]. split; [by exists a|done].
    - by repeat case_decide. }
  eexists st', _. split_and!; [done|done|done| |].
  - change (props element (PyStr "all") st')
      with (props element (PyList ["all"]) st').
    by apply props_all.
  - intros key. rewrite !list_elem_of_filter, elem_of_keys.
    intros (Hb & Hh & [a Ha]). pose proof (Hd' key) as Heq.
    rewrite Ha in Heq. case_decide as Hc; [done|].
    destruct (decide (key ∈ ["pore.all"; "throat.all"])) as [|Hprot]; [done|].
    destruct Hc. split_and!; [done| |done].
    unfold is_bool in *. rewrite <- Heq. by rewrite Ha in Hb.
Qed.

Lemma clear_all_witness :
  let st := run [SetItem "pore.diameter" (IntArr [5; 6; 7]);
                 SetItem "throat.length" (IntArr [1; 1])] labelled_store in
  ∃ st' P,
    clear (PyStr "pores") (PyStr "all") st = (Ok (), st') ∧
    logger st' = logger st ∧
    (∀ key, self st' !! key =
            if decide (cleared ["pore"] (self st) key) then None
            else self st !! key) ∧
    props (PyStr "pores") (PyStr "all") st' = (Ok P, st') ∧
    ∀ key, key ∈ P → key ∈ ["pore.all"; "throat.all"].
Proof.
  intros st. apply (clear_all (PyStr "pores") ["pore"] st). reflexivity.
Defined.

(** X8.  Of the other modes of [clear], the documented 'props' and
    'labels' raise, the first refused by [clear] and the second by
    [props], and 'constants' and 'models' are accepted and delete
    nothing: the call ends normally when the element is one
    [_parse_element] accepts, and with its exception otherwise.  In each
    case the state is left as it was. *)
Theorem clear_other_modes (element : pyarg) (st : state) :
  Forall (λ mode, ∃ msg, clear element (PyStr mode) st
                         = (Raise (Exception msg), st))
    ["props"; "labels"] ∧
  Forall (λ mode, clear element (PyStr mode) st
                  = (match _parse_element element with
                     | Ok _ => Ok ()
                     | Raise e => Raise e
                     end, st))
    ["constants"; "models"].
Proof.
  split.
  - repeat constructor; eexists; reflexivity.
  - repeat constructor; unfold clear.
    + change (_parse_mode (PyStr "constants") _)
        with (@Ok (list string) ["constants"]).
      unfold bind at 1, lift at 1. unfold bind at 1, props.
      change (_parse_mode (PyList ["constants"]) _)
        with (@Ok (list string) ["constants"]).
      unfold bind at 1, lift at 1.
      change (mem "all" ["constants"]) with false. cbv iota.
      unfold bind at 1, lift at 1.
      destruct (_parse_element element); [|done].
      change (mem "data" ["constants"]) with false. by cbv iota.
    + change (_parse_mode (PyStr "models") _)
        with (@Ok (list string) ["models"]).
      unfold bind at 1, lift at 1. unfold bind at 1, props.
      change (_parse_mode (PyList ["models"]) _)
        with (@Ok (list string) ["models"]).
      unfold bind at 1, lift at 1.
      change (mem "all" ["models"]) with false. cbv iota.
      unfold bind at 1, lift at 1.
      destruct (_parse_element element); [|done].
      change (mem "data" ["models"]) with false. by cbv iota.
Qed.

(** X9.  For one element, [props] lists exactly the stored keys headed
    by the element whose array is not boolean and [labels] exactly those
    whose array is boolean: no key is in both lists and every key of the
    element is in one of them; neither call changes the state. *)
Theorem props_labels_partition (element : string) (st : state) :
  element ∈ ["pore"; "throat"] →
  ∃ P L,
    props (PyStr element) (PyStr "all") st = (Ok P, st) ∧
    labels (PyStr element) st = (Ok L, st) ∧
    ∀ key,
      (key ∈ P ↔ PyStr.head_component key = element ∧
                 ∃ a, self st !! key = Some a ∧ dtype_of a = dt_int) ∧
      (key ∈ L ↔ PyStr.head_component key = element ∧
                 ∃ a, self st !! key = Some a ∧ dtype_of a = dt_bool).
Proof.
  intros He. eexists _, _. split_and!.
  - change (props (PyStr element) (PyStr "all") st)
      with (props (PyStr element) (PyList ["all"]) st).
    apply props_all. by apply parse_element_element.
  - by apply labels_element.
  - intros key. rewrite !list_elem_of_filter, elem_of_keys, list_elem_of_singleton.
    unfold is_bool. split.
    + split.
      * intros (Hb & Hh & [a Ha]). split; [done|]. exists a. split; [done|].
        rewrite Ha in Hb. by destruct a.
      * intros (Hh & a & Ha & Hd). rewrite Ha. by destruct a.
    + split.
      * intros (Hb & Hh & [a Ha]). split; [done|]. exists a. split; [done|].
        rewrite Ha in Hb. by destruct a.
      * intros (Hh & a & Ha & Hd). rewrite Ha. by destruct a.
Qed.

Lemma props_labels_partition_witness :
  ∃ P L,
    props (PyStr "pore") (PyStr "all") labelled_store = (Ok P, labelled_store) ∧
    labels (PyStr "pore") labelled_store = (Ok L, labelled_store) ∧
    ∀ key,
      (key ∈ P ↔ PyStr.head_component key = "pore" ∧
                 ∃ a, self labelled_store !! key = Some a ∧
                      dtype_of a = dt_int) ∧
      (key ∈ L ↔ PyStr.head_component key = "pore" ∧
                 ∃ a, self labelled_store !! key = Some a ∧
                      dtype_of a = dt_bool).
Proof.
  apply (props_labels_partition "pore" labelled_store).
  by apply (bool_decide_unpack _).
Defined.

(** ** What the queries select *)

Lemma strip_element_no_star element label :
  PyStr.contains "*" label = false →
  PyStr.contains "*" (strip_element element label) = false.
Proof.
  intros H. unfold strip_element. destruct (PyStr.contains element label);
    [by apply last_component_keeps_absent|done].
Qed.

Lemma last_component_parsed element label :
  element ∈ ["pore"; "throat"] →
  PyStr.last_component (element +:+ "." +:+ strip_element element label)
  = PyStr.last_component label.
Proof.
  intros He. rewrite last_component_element by done. unfold strip_element.
  destruct (PyStr.contains element label); [|done].
  apply last_component_id, last_component_no_dot.
Qed.

Lemma strip_element_plain element label :
  PyStr.contains "." label = false → strip_element element label = label.
Proof.
  intros Hdot. unfold strip_element.
  destruct (PyStr.contains element label); [|done].
  by apply last_component_id.
Qed.

(** For a plain label, the key the parsed list holds and the key the
    query reads are both the key the label names. *)
Lemma prefix_dot_contains e x :
  String.prefix (e +:+ ".") x = true → PyStr.contains "." x = true.
Proof.
  revert x. induction e as [|c e IH]; intros x.
  - destruct x as [|d x]; [done|]. intros Hp.
    change (String.prefix "." (String d x) = true) in Hp.
    by rewrite contains_cons, Hp.
  - destruct x as [|d x]; [done|].
    change (String c e +:+ ".") with (String c (e +:+ ".")).
    cbn [String.prefix].
    destruct (ascii_dec c d); [|done]. intros Hp%IH.
    rewrite contains_cons, Hp. apply orb_true_r.
Qed.

Lemma prefix_append a b : String.prefix a (a +:+ b) = true.
Proof.
  induction a as [|c a IH]; [by destruct b|].
  change (String c a +:+ b) with (String c (a +:+ b)). cbn [String.prefix].
  by destruct (ascii_dec c c).
Qed.

Lemma prefix_contains sub s :
  String.prefix sub s = true → PyStr.contains sub s = true.
Proof. destruct s; simpl; by intros ->. Qed.

Lemma append_assoc_dot e x : e +:+ "." +:+ x = (e +:+ ".") +:+ x.
Proof.
  induction e as [|c e IH]; [done|].
  change (String c (e +:+ "." +:+ x) = String c ((e +:+ ".") +:+ x)).
  by rewrite IH.
Qed.

Lemma key_of_plain_label element label :
  element ∈ ["pore"; "throat"] →
  plain_label element label →
  element +:+ "." +:+ strip_element element label = key_of_label element label
  ∧ element +:+ "." +:+ PyStr.last_component label = key_of_label element label.
Proof.
  intros He (x & Hx & [ -> | -> ]).
  - rewrite strip_element_plain, last_component_id by done.
    unfold key_of_label, PyStr.startswith.
    destruct (String.prefix (element +:+ ".") x) eqn:Hp; [|done].
    apply prefix_dot_contains in Hp. congruence.
  - assert (key_of_label element (element +:+ "." +:+ x)
            = element +:+ "." +:+ x) as ->.
    { unfold key_of_label, PyStr.startswith.
      rewrite (append_assoc_dot element x) at 1. by rewrite prefix_append. }
    unfold strip_element.
    rewrite (prefix_contains element) by apply prefix_append.
    rewrite last_component_element, last_component_id by done. done.
Qed.

Lemma named_labels_existing st element N labels_list :
  element ∈ ["pore"; "throat"] →
  Forall (named_label st element N) labels_list →
  Forall (existing_label st element N) labels_list.
Proof.
  intros He. apply Forall_impl. intros l (Hstar & Hplain & m & Hm & Hlen).
  split; [done|]. exists m. split; [|done].
  by rewrite (proj2 (key_of_plain_label element l He Hplain)).
Qed.

Lemma has_label_item st element N labels_list l i :
  element ∈ ["pore"; "throat"] →
  Forall (named_label st element N) labels_list →
  l ∈ labels_list →
  has_label st element l i ↔
  0 ≤ i ∧ item_true (self st) element l (Z.to_nat i).
Proof.
  intros He Hnamed Hl. rewrite Forall_forall in Hnamed.
  destruct (Hnamed l (proj1 (list_elem_of_In _ _) Hl)) as (_ & Hplain & _).
  unfold has_label, item_true.
  by rewrite (proj2 (key_of_plain_label element l He Hplain)).
Qed.

Lemma length_remove_dupes_from {A} `{EqDecision A} fuel i (l : list A) :
  (length (PyStr.remove_dupes_from fuel i l) ≤ length l)%nat.
Proof.
  revert i l. induction fuel as [|fuel IH]; intros i l; [done|].
  simpl. destruct (l !! i) as [L|]; [|done]. case_decide; [|apply IH].
  etrans; [apply IH|]. apply length_remove_first.
Qed.

Lemma length_remove_dupes {A} `{EqDecision A} (l : list A) :
  (length (PyStr.remove_dupes l) ≤ length l)%nat.
Proof. apply length_remove_dupes_from. Qed.

(** A label without '*' adds one key to the parsed list. *)
Lemma parse_label_plain st element parsed temp label :
  PyStr.contains "*" label = false →
  ∃ st',
    parse_label element (parsed, temp) label st =
    (Ok (PyStr.remove_dupes
           (parsed ++ [element +:+ "." +:+ strip_element element label])%list,
         Some [element +:+ "." +:+ strip_element element label]), st') ∧
    self st' = self st.
Proof.
  intros Hstar. unfold parse_label.
  rewrite (strip_element_no_star element label Hstar).
  unfold bind at 1. unfold bind at 1. unfold has_key at 1.
  case_bool_decide; cbn -[PyStr.remove_dupes]; by eexists.
Qed.

Lemma parse_labels_loop element labels_list :
  Forall (λ l, PyStr.contains "*" l = false) labels_list →
  ∀ parsed temp st,
    ∃ parsed' temp' st',
      for_each labels_list (parse_label element) (parsed, temp) st
        = (Ok (parsed', temp'), st') ∧
      self st' = self st ∧
      (length parsed' ≤ length parsed + length labels_list)%nat ∧
      ∀ x, x ∈ parsed' ↔
           x ∈ parsed ∨
           ∃ l, l ∈ labels_list ∧
                x = element +:+ "." +:+ strip_element element l.
Proof.
  induction labels_list as [|label labels_list IH]; intros Hstar parsed temp st.
  { exists parsed, temp, st. split_and!; [done|done|simpl; lia|].
    intros x. split; [by left|]. intros [?|(l & Hl & _)]; [done|by inversion Hl]. }
  inversion Hstar as [|?? Hlabel Hstar']; subst.
  destruct (parse_label_plain st element parsed temp label Hlabel)
    as (st1 & Hstep & Hst1).
  destruct (IH Hstar'
              (PyStr.remove_dupes
                 (parsed ++ [element +:+ "." +:+ strip_element element label])%list)
              (Some [element +:+ "." +:+ strip_element element label])
              st1) as (parsed' & temp' & st' & Hloop & Hst' & Hlen & Hmem).
  exists parsed', temp', st'. split_and!.
  - cbn [for_each]. unfold bind. by rewrite Hstep.
  - congruence.
  - pose proof (length_remove_dupes
      (parsed ++ [element +:+ "." +:+ strip_element element label])%list) as Hd.
    rewrite length_app in Hd. simpl in *. lia.
  - intros x. rewrite Hmem, remove_dupes_elem_of, elem_of_app,
      list_elem_of_singleton. split.
    + intros [[?| -> ]|(l & Hl & ->)]; [by left| |].
      * right. exists label. split; [by left|done].
      * right. exists l. split; [by right|done].
    + intros [?|(l & [ -> |Hl]%elem_of_cons & ->)]; [by left; left|by left; right|].
      right. by exists l.
Qed.

(** The parsed list of labels given by name: one key per label, and no
    other key. *)
Lemma parse_labels_spec st element labels_arg labels_list :
  as_list labels_arg = Ok labels_list →
  Forall (λ l, PyStr.contains "*" l = false) labels_list →
  ∃ parsed st',
    _parse_labels labels_arg element st = (Ok parsed, st') ∧
    self st' = self st ∧
    (length parsed ≤ length labels_list)%nat ∧
    ∀ x, x ∈ parsed ↔
         ∃ l, l ∈ labels_list ∧
              x = element +:+ "." +:+ strip_element element l.
Proof.
  intros Hl Hstar. unfold _parse_labels.
  assert (match labels_arg with
          | PyStr s => [s] | PyList l => l | PyNone => []
          end = labels_list) as ->.
  { destruct labels_arg; simpl in Hl; congruence. }
  destruct (parse_labels_loop element labels_list Hstar [] None st)
    as (parsed & temp & st' & Hloop & Hst' & Hlen & Hmem).
  exists parsed, st'. split_and!; [|done|done|].
  - destruct labels_arg as [|s|l]; [done| |]; unfold bind; by rewrite Hloop.
  - intros x. rewrite Hmem. split; [|by right].
    intros [H|?]; [by inversion H|done].
Qed.

Lemma existing_labels_resolvable st element N labels_list parsed :
  element ∈ ["pore"; "throat"] →
  Forall (existing_label st element N) labels_list →
  (∀ x, x ∈ parsed ↔
        ∃ l, l ∈ labels_list ∧
             x = element +:+ "." +:+ strip_element element l) →
  Forall (resolvable (self st) element N) parsed.
Proof.
  intros He Hex Hmem. apply Forall_forall. intros x Hx%list_elem_of_In.
  apply Hmem in Hx as (l & Hl & ->). rewrite Forall_forall in Hex.
  destruct (Hex l) as (_ & m & Hm & Hlen); [by apply list_elem_of_In|].
  exists m. by rewrite last_component_parsed.
Qed.

Lemma lookup_zip_with_bool (f : bool → bool → bool) a b k :
  length a = length b →
  zip_with f a b !! k =
  match a !! k, b !! k with
  | Some x, Some y => Some (f x y)
  | _, _ => None
  end.
Proof.
  intros Hlen. rewrite lookup_zip_with.
  destruct (a !! k) as [x|] eqn:Ha; simpl; [|done].
  by destruct (b !! k).
Qed.

(** The loop of mode 'union'. *)
Lemma union_loop d element N parsed :
  Forall (resolvable d element N) parsed →
  ∀ init st1, self st1 = d → length init = N →
    ∃ m st2,
      for_each parsed
        (λ union item,
           a <- __getitem__ (element +:+ "." +:+ PyStr.last_component item) ;;
           lift_np (add union a))
        (BoolArr init) st1 = (Ok (BoolArr m), st2) ∧
      self st2 = d ∧ length m = N ∧
      ∀ k, m !! k = Some true ↔
           init !! k = Some true ∨
           ∃ item, item ∈ parsed ∧ item_true d element item k.
Proof.
  induction parsed as [|item parsed IH]; intros Hres init st1 Hst1 Hinit.
  { exists init, st1. split_and!; [done..|]. intros k. split; [by left|].
    intros [?|(item & Hitem & _)]; [done|by inversion Hitem]. }
  inversion Hres as [|?? (m' & Hm' & Hlen') Hres']; subst.
  destruct (IH Hres' (zip_with orb init m') st1) as (m & st2 & Hloop & Hst2 & Hm & Hk);
    [done|rewrite length_zip_with; lia|].
  exists m, st2. split_and!; [|done|done|].
  - cbn [for_each]. unfold bind at 1. unfold bind at 1, __getitem__ at 1.
    rewrite Hm'. cbn [add]. unfold broadcast.
    rewrite decide_True by congruence. exact Hloop.
  - intros k. rewrite Hk, lookup_zip_with_bool by congruence. split.
    + intros [H|(item' & Hitem' & Htrue)].
      * destruct (init !! k) as [[]|] eqn:Hi; [by left| |done].
        destruct (m' !! k) as [[]|] eqn:Hmk; [|done|done].
        right. exists item. split; [by left|]. by exists m'.
      * right. exists item'. split; [by right|done].
    + intros [H|(item' & [ -> |Hitem']%elem_of_cons & Htrue)].
      * left. rewrite H. destruct (m' !! k) as [y|] eqn:Hmk; [done|].
        apply lookup_ge_None in Hmk. apply lookup_lt_Some in H. lia.
      * left. destruct Htrue as (m'' & Hm'' & Htrue).
        assert (m'' = m') as -> by congruence. rewrite Htrue.
        destruct (init !! k) as [x|] eqn:Hi; [by destruct x|].
        apply lookup_ge_None in Hi. apply lookup_lt_Some in Htrue. lia.
      * right. by exists item'.
Qed.

(** The loop of mode 'intersection'. *)
Lemma intersection_loop d element N parsed :
  Forall (resolvable d element N) parsed →
  ∀ init st1, self st1 = d → length init = N →
    ∃ m st2,
      for_each parsed
        (λ intersect item,
           a <- __getitem__ (element +:+ "." +:+ PyStr.last_component item) ;;
           lift_np (mul intersect a))
        (BoolArr init) st1 = (Ok (BoolArr m), st2) ∧
      self st2 = d ∧ length m = N ∧
      ∀ k, m !! k = Some true ↔
           init !! k = Some true ∧
           ∀ item, item ∈ parsed → item_true d element item k.
Proof.
  induction parsed as [|item parsed IH]; intros Hres init st1 Hst1 Hinit.
  { exists init, st1. split_and!; [done..|]. intros k. split; [|by intros [? _]].
    intros ?. split; [done|]. intros item Hitem. by inversion Hitem. }
  inversion Hres as [|?? (m' & Hm' & Hlen') Hres']; subst.
  destruct (IH Hres' (zip_with andb init m') st1)
    as (m & st2 & Hloop & Hst2 & Hm & Hk);
    [done|rewrite length_zip_with; lia|].
  exists m, st2. split_and!; [|done|done|].
  - cbn [for_each]. unfold bind at 1. unfold bind at 1, __getitem__ at 1.
    rewrite Hm'. cbn [mul]. unfold broadcast.
    rewrite decide_True by congruence. exact Hloop.
  - intros k. rewrite Hk, lookup_zip_with_bool by congruence. split.
    + intros [H Hall].
      destruct (init !! k) as [[]|] eqn:Hi, (m' !! k) as [[]|] eqn:Hmk;
        try done.
      split; [done|]. intros item' [ -> |Hitem']%elem_of_cons; [|by apply Hall].
      by exists m'.
    + intros [H Hall]. split.
      * rewrite H. destruct (Hall item) as (m'' & Hm'' & Htrue); [by left|].
        assert (m'' = m') as -> by congruence. by rewrite Htrue.
      * intros item' Hitem'. apply Hall. by right.
Qed.

Lemma wrap64_sub_bool p b :
  - 2 ^ 63 < p < 2 ^ 63 → wrap64 (p - int_of_bool b) = p - int_of_bool b.
Proof. intros Hp. apply wrap64_id. unfold is_int64. destruct b; simpl; lia. Qed.

(** The loop of modes 'not' and 'difference': every label that is true
    at a position lowers the count kept for it, which starts at zero;
    the counts cannot wrap around with fewer than 2^63 labels. *)
Lemma not_loop d element N parsed :
  Forall (resolvable d element N) parsed →
  ∀ acc st1, self st1 = d → length acc = N →
    Forall (λ z, - 2 ^ 63 + Z.of_nat (length parsed) < z ≤ 0) acc →
    ∃ acc' st2,
      for_each parsed
        (λ none item,
           info <- __getitem__
                     (element +:+ "." +:+ PyStr.last_component item) ;;
           lift_np (sub_int8 none info))
        acc st1 = (Ok acc', st2) ∧
      self st2 = d ∧ length acc' = N ∧
      ∀ k z, acc !! k = Some z →
             ∃ z', acc' !! k = Some z' ∧ z' ≤ z ∧
                   (z' = z ↔ ∀ item, item ∈ parsed → ¬ item_true d element item k).
Proof.
  induction parsed as [|item parsed IH]; intros Hres acc st1 Hst1 Hacc Hrange.
  { exists acc, st1. split_and!; [done..|]. intros k z Hz. exists z.
    split_and!; [done|lia|]. split; [|done]. intros _ item Hitem.
    by inversion Hitem. }
  inversion Hres as [|?? (m' & Hm' & Hlen') Hres']; subst.
  set (acc1 := zip_with (λ p q, wrap64 (p - q)) acc (int8 (BoolArr m'))).
  assert (length acc1 = length acc) as Hlen1.
  { subst acc1. rewrite length_zip_with, length_int8_bool. lia. }
  assert (∀ k z, acc !! k = Some z →
            ∃ b, m' !! k = Some b ∧ acc1 !! k = Some (z - int_of_bool b))
    as Hstep.
  { intros k z Hz. destruct (m' !! k) as [b|] eqn:Hb.
    - exists b. split; [done|]. subst acc1. rewrite lookup_zip_with, Hz.
      simpl. rewrite list_lookup_fmap, Hb. simpl. f_equal.
      apply wrap64_sub_bool. rewrite Forall_forall in Hrange.
      pose proof (Hrange z (proj1 (list_elem_of_In _ _)
                   (list_elem_of_lookup_2 _ _ _ Hz))) as Hr.
      cbn [length] in Hr. lia.
    - apply lookup_ge_None in Hb. apply lookup_lt_Some in Hz. lia. }
  destruct (IH Hres' acc1 st1) as (acc' & st2 & Hloop & Hst2 & Hlen & Hk);
    [done|congruence| |].
  { apply Forall_forall. intros z1 Hz1%list_elem_of_In.
    apply list_elem_of_lookup in Hz1 as [k Hk].
    assert (is_Some (acc !! k)) as [z Hz].
    { apply lookup_lt_is_Some. rewrite <- Hlen1. by eapply lookup_lt_Some. }
    destruct (Hstep k z Hz) as (b & Hb & Hacc1).
    assert (z1 = z - int_of_bool b) as -> by congruence.
    rewrite Forall_forall in Hrange.
    pose proof (Hrange z (proj1 (list_elem_of_In _ _)
                 (list_elem_of_lookup_2 _ _ _ Hz))) as Hr.
    cbn [length] in Hr. destruct b; simpl; lia. }
  exists acc', st2. split_and!; [|done|congruence|].
  - cbn [for_each]. unfold bind at 1. unfold bind at 1, __getitem__ at 1.
    rewrite Hm'. unfold sub_int8, broadcast.
    rewrite decide_True by (rewrite length_int8_bool; congruence). exact Hloop.
  - intros k z Hz. destruct (Hstep k z Hz) as (b & Hb & Hacc1).
    destruct (Hk k _ Hacc1) as (z' & Hz' & Hle & Heq).
    exists z'. split_and!; [done|destruct b; simpl in *; lia|]. split.
    + intros ->. assert (b = false) as -> by (destruct b; simpl in *; [lia|done]).
      simpl in Heq. rewrite Z.sub_0_r in Heq.
      intros item' [ -> |Hitem']%elem_of_cons.
      * intros (m'' & Hm'' & Htrue). congruence.
      * by apply Heq.
    + intros Hnone. assert (b = false) as ->.
      { destruct b; [|done]. destruct (Hnone item); [by left|by exists m']. }
      simpl in *. rewrite Z.sub_0_r in Heq. apply Heq.
      intros item' Hitem'. apply Hnone. by right.
Qed.

Lemma item_true_parsed d element l k :
  element ∈ ["pore"; "throat"] →
  item_true d element (element +:+ "." +:+ strip_element element l) k ↔
  item_true d element l k.
Proof. intros He. unfold item_true. by rewrite last_component_parsed. Qed.

(** Runs [_get_indices] up to the choice of the mode, given the result
    of [_parse_labels] and the [all] label of the element. *)
Ltac start_query Hparse Hall :=
  unfold _get_indices;
  rewrite parse_mode_single_allowed by (by apply (bool_decide_unpack _));
  rewrite parse_element_single_element by done;
  unfold bind at 1, lift at 1; unfold bind at 1, lift at 1;
  unfold bind at 1; rewrite Hparse;
  unfold bind at 1, has_key at 1; rewrite Hall;
  rewrite bool_decide_eq_true_2 by done; cbn [negb].

(** The masks behind the results of the modes 'union', 'intersection'
    and 'not' for labels given by name. *)
Lemma query_mask st element N all labels_arg labels_list :
  element ∈ ["pore"; "throat"] →
  self st !! (element +:+ ".all") = Some all →
  size all = N →
  as_list labels_arg = Ok labels_list →
  Forall (existing_label st element N) labels_list →
  (∃ m st',
     _get_indices (PyStr element) labels_arg (PyStr "union") st
       = (Ok (where_ (BoolArr m)), st') ∧
     self st' = self st ∧ length m = N ∧
     ∀ k, m !! k = Some true ↔
          ∃ l, l ∈ labels_list ∧ item_true (self st) element l k) ∧
  (∃ m st',
     _get_indices (PyStr element) labels_arg (PyStr "intersection") st
       = (Ok (where_ (BoolArr m)), st') ∧
     self st' = self st ∧ length m = N ∧
     ∀ k, m !! k = Some true ↔
          (k < N)%nat ∧
          ∀ l, l ∈ labels_list → item_true (self st) element l k) ∧
  (Z.of_nat (length labels_list) < 2 ^ 63 →
   ∃ m st',
     _get_indices (PyStr element) labels_arg (PyStr "not") st
       = (Ok (where_ (BoolArr m)), st') ∧
     self st' = self st ∧ length m = N ∧
     ∀ k, m !! k = Some true ↔
          (k < N)%nat ∧
          ∀ l, l ∈ labels_list → ¬ item_true (self st) element l k).
Proof.
  intros He Hall HN Hl Hex.
  destruct (parse_labels_spec st element labels_arg labels_list Hl)
    as (parsed & st1 & Hparse & Hst1 & Hlen & Hmem).
  { eapply Forall_impl; [|exact Hex]. by intros l [? _]. }
  pose proof (existing_labels_resolvable st element N labels_list parsed
                He Hex Hmem) as Hres.
  assert (self st1 !! (element +:+ ".all") = Some all) as Hall1
    by (by rewrite Hst1).
  assert (__getitem__ (element +:+ ".all") st1 = (Ok all, st1)) as Hget.
  { unfold __getitem__. by rewrite Hall1. }
  assert (∀ (Q : string → Prop),
            (∃ item, item ∈ parsed ∧ Q (PyStr.last_component item)) ↔
            (∃ l, l ∈ labels_list ∧ Q (PyStr.last_component l))) as Hsome.
  { intros Q. split.
    - intros (item & Hitem & HQ). apply Hmem in Hitem as (l & Hl' & ->).
      rewrite last_component_parsed in HQ by done. by exists l.
    - intros (l & Hl' & HQ). eexists. split; [apply Hmem; by exists l|].
      by rewrite last_component_parsed. }
  assert (∀ (Q : string → Prop),
            (∀ item, item ∈ parsed → Q (PyStr.last_component item)) ↔
            (∀ l, l ∈ labels_list → Q (PyStr.last_component l))) as Hevery.
  { intros Q. split.
    - intros HQ l Hl'.
      rewrite <- (last_component_parsed element l) by done.
      apply HQ, Hmem. by exists l.
    - intros HQ item Hitem. apply Hmem in Hitem as (l & Hl' & ->).
      rewrite last_component_parsed by done. by apply HQ. }
  split_and!.
  - start_query Hparse Hall1.
    eval_mem. unfold bind at 1. unfold bind at 1. rewrite Hget, HN.
    change (zeros N dt_bool) with (BoolArr (replicate N false)).
    destruct (union_loop (self st) element N parsed Hres
                (replicate N false) st1)
      as (m & st2 & -> & Hst2 & Hm & Hk); [done|by rewrite length_replicate|].
    exists m, st2. split_and!; [done..|].
    intros k. rewrite Hk. unfold item_true.
    rewrite (Hsome (λ c, ∃ m0, self st !! (element +:+ "." +:+ c)
                          = Some (BoolArr m0) ∧ m0 !! k = Some true)).
    split; [|by right]. intros [H|?]; [|done].
    by apply lookup_replicate in H as [? _].
  - start_query Hparse Hall1.
    eval_mem. unfold bind at 1. unfold bind at 1. rewrite Hget, HN.
    change (ones N dt_bool) with (BoolArr (replicate N true)).
    destruct (intersection_loop (self st) element N parsed Hres
                (replicate N true) st1)
      as (m & st2 & -> & Hst2 & Hm & Hk); [done|by rewrite length_replicate|].
    exists m, st2. split_and!; [done..|].
    intros k. rewrite Hk. unfold item_true.
    rewrite (Hevery (λ c, ∃ m0, self st !! (element +:+ "." +:+ c)
                           = Some (BoolArr m0) ∧ m0 !! k = Some true)).
    rewrite lookup_replicate. split; intros [? ?]; (split; [|done]); tauto.
  - intros Hbound. start_query Hparse Hall1.
    eval_mem. unfold bind at 1. unfold bind at 1. rewrite Hget, HN.
    unfold bind at 1.
    destruct (not_loop (self st) element N parsed Hres (replicate N 0) st1)
      as (acc & st2 & -> & Hst2 & Hacc & Hk);
      [done|by rewrite length_replicate| |].
    { apply Forall_forall. intros z ->%list_elem_of_In%elem_of_replicate_inv.
      lia. }
    exists (eq_scalar acc 0), st2. split_and!; [done|done| |].
    { unfold eq_scalar. by rewrite length_map. }
    intros k. unfold eq_scalar. rewrite list_lookup_fmap.
    unfold item_true.
    rewrite <- (Hevery (λ c, ¬ ∃ m0, self st !! (element +:+ "." +:+ c)
                              = Some (BoolArr m0) ∧ m0 !! k = Some true)).
    destruct (decide (k < N)%nat) as [HkN|HkN].
    + destruct (Hk k 0) as (z' & Hz' & Hle & Heq).
      { by apply lookup_replicate. }
      rewrite Hz'. simpl. split.
      * intros [= Hz%Z.eqb_eq]. split; [done|]. by apply Heq.
      * intros [_ Hnone]. f_equal. apply Z.eqb_eq. by apply Heq.
    + rewrite (lookup_ge_None_2 acc k) by lia. simpl. split; [done|].
      by intros [? _].
Qed.

(** X10.  For plain labels (a name without dots, written alone or
    behind the element) whose keys hold masks over the [N] locations of
    the element, the index [i] is returned in mode 'union' exactly when it
    carries at least one of the labels, in mode 'intersection' exactly
    when it lies in [0, N) and carries every label, and in mode 'not'
    exactly when it lies in [0, N) and carries none of them. *)
Theorem query_semantics (st : state) (element : string) (N : nat)
    (all : ndarray) (labels_arg : pyarg) (labels_list : list string) :
  element ∈ ["pore"; "throat"] →
  self st !! (element +:+ ".all") = Some all →
  size all = N →
  as_list labels_arg = Ok labels_list →
  Forall (named_label st element N) labels_list →
  Z.of_nat (length labels_list) < 2 ^ 63 →
  ∃ u n t,
    fst (_get_indices (PyStr element) labels_arg (PyStr "union") st) = Ok u ∧
    fst (_get_indices (PyStr element) labels_arg (PyStr "intersection") st)
      = Ok n ∧
    fst (_get_indices (PyStr element) labels_arg (PyStr "not") st) = Ok t ∧
    ∀ i,
      (i ∈ u ↔ ∃ l, l ∈ labels_list ∧ has_label st element l i) ∧
      (i ∈ n ↔ 0 ≤ i < Z.of_nat N ∧
               ∀ l, l ∈ labels_list → has_label st element l i) ∧
      (i ∈ t ↔ 0 ≤ i < Z.of_nat N ∧
               ∀ l, l ∈ labels_list → ¬ has_label st element l i).
Proof.
  intros He Hall HN Hl Hnamed Hbound.
  pose proof (named_labels_existing st element N labels_list He Hnamed) as Hex.
  pose proof (has_label_item st element N labels_list) as Hhas.
  destruct (query_mask st element N all labels_arg labels_list)
    as ((mu & stu & Hu & _ & Hlu & Hku) & (mn & stn & Hn & _ & Hln & Hkn) & Hnot);
    [done..|].
  destruct (Hnot Hbound) as (mt & stt & Ht & _ & Hlt & Hkt).
  exists (where_ (BoolArr mu)), (where_ (BoolArr mn)), (where_ (BoolArr mt)).
  rewrite Hu, Hn, Ht. split_and!; [done..|].
  intros i. unfold where_, truth. rewrite !elem_of_nonzero_from.
  split_and!.
  - split.
    + intros (k & -> & Hk). apply Hku in Hk as (l & Hl' & Htrue).
      exists l. split; [done|]. apply Hhas; [done..|]. split; [lia|].
      by rewrite Z.add_0_l, Nat2Z.id.
    + intros (l & Hl' & Hi). apply Hhas in Hi as [Hi Htrue]; [|done..].
      exists (Z.to_nat i). split; [lia|]. apply Hku. by exists l.
  - split.
    + intros (k & -> & Hk). apply Hkn in Hk as [HkN Hevery].
      split; [lia|]. intros l Hl'. apply Hhas; [done..|]. split; [lia|].
      rewrite Z.add_0_l, Nat2Z.id. by apply Hevery.
    + intros [Hi Hevery]. exists (Z.to_nat i). split; [lia|].
      apply Hkn. split; [lia|]. intros l Hl'.
      by apply (Hhas l i He Hnamed Hl'), Hevery.
  - split.
    + intros (k & -> & Hk). apply Hkt in Hk as [HkN Hnone].
      split; [lia|]. intros l Hl' Hi.
      apply Hhas in Hi as [_ Htrue]; [|done..].
      rewrite Z.add_0_l, Nat2Z.id in Htrue. by eapply Hnone.
    + intros [Hi Hnone]. exists (Z.to_nat i). split; [lia|].
      apply Hkt. split; [lia|]. intros l Hl' Htrue.
      apply (Hnone l Hl'). apply Hhas; [done..|]. split; [lia|done].
Qed.

Lemma query_semantics_witness :
  ∃ u n t,
    fst (_get_indices (PyStr "pore") (PyList ["top"; "pore.left"])
           (PyStr "union") labelled_store) = Ok u ∧
    fst (_get_indices (PyStr "pore") (PyList ["top"; "pore.left"])
           (PyStr "intersection") labelled_store) = Ok n ∧
    fst (_get_indices (PyStr "pore") (PyList ["top"; "pore.left"])
           (PyStr "not") labelled_store) = Ok t ∧
    ∀ i,
      (i ∈ u ↔ ∃ l, l ∈ ["top"; "pore.left"] ∧
                    has_label labelled_store "pore" l i) ∧
      (i ∈ n ↔ 0 ≤ i < Z.of_nat 3 ∧
               ∀ l, l ∈ ["top"; "pore.left"] →
                    has_label labelled_store "pore" l i) ∧
      (i ∈ t ↔ 0 ≤ i < Z.of_nat 3 ∧
               ∀ l, l ∈ ["top"; "pore.left"] →
                    ¬ has_label labelled_store "pore" l i).
Proof.
  apply (query_semantics labelled_store "pore" 3 (ones 3 dt_bool)
           (PyList ["top"; "pore.left"]) ["top"; "pore.left"]).
  - by apply (bool_decide_unpack _).
  - by vm_compute.
  - reflexivity.
  - reflexivity.
  - repeat constructor; try reflexivity.
    + exists "top". split; [reflexivity|by left].
    + exists [true; false; true]. split; [by vm_compute|reflexivity].
    + exists "left". split; [reflexivity|by right].
    + exists [true; true; false]. split; [by vm_compute|reflexivity].
  - simpl. lia.
Defined.

(** X11.  A query for a label given by a plain name (no '.', no '*') that
    is not stored for the element sends one warning to the log and then
    raises [KeyError] for the key, in every mode; the dictionary is left
    as it was. *)
Theorem query_missing_label_raises (st : state) (element label mode : string)
    (all : ndarray) :
  element ∈ ["pore"; "throat"] →
  mode ∈ ["union"; "intersection"; "not_intersection"; "not"; "difference"] →
  PyStr.contains "." label = false →
  PyStr.contains "*" label = false →
  self st !! (element +:+ ".all") = Some all →
  self st !! (element +:+ "." +:+ label) = None →
  _get_indices (PyStr element) (PyStr label) (PyStr mode) st =
  (Raise (KeyError (element +:+ "." +:+ label)),
   State (self st)
     (logger st ++
      [(WARNING, "'" +:+ element +:+ "." +:+ label +:+ "' not found")])).
Proof.
  intros He Hmode Hdot Hstar Hall Hlabel.
  set (st1 := State (self st) (logger st ++ [(WARNING, _)])%list).
  assert (_parse_labels (PyStr label) element st
          = (Ok [element +:+ "." +:+ label], st1)) as Hparse.
  { unfold _parse_labels, parse_label. cbn [for_each].
    rewrite strip_element_plain by done. rewrite Hstar.
    unfold bind at 1. unfold bind at 1. unfold bind at 1.
    unfold bind at 1, has_key at 1. rewrite Hlabel.
    rewrite bool_decide_eq_false_2 by (by intros [??]).
    unfold bind at 1, log at 1. unfold ret.
    change ([] ++ [element +:+ "." +:+ label])%list
      with [element +:+ "." +:+ label].
    by rewrite remove_dupes_singleton. }
  assert (self st1 !! (element +:+ ".all") = Some all) as Hall1 by done.
  assert (__getitem__ (element +:+ ".all") st1 = (Ok all, st1)) as Hget.
  { unfold __getitem__. by rewrite Hall1. }
  assert (__getitem__
            (element +:+ "." +:+
             PyStr.last_component (element +:+ "." +:+ label)) st1
          = (Raise (KeyError (element +:+ "." +:+ label)), st1)) as Hmiss.
  { rewrite last_component_element, last_component_id by done.
    unfold __getitem__. simpl. by rewrite Hlabel. }
  unfold _get_indices.
  rewrite parse_mode_single_allowed by done.
  rewrite parse_element_single_element by done.
  unfold bind at 1, lift at 1. unfold bind at 1, lift at 1.
  unfold bind at 1. rewrite Hparse.
  unfold bind at 1, has_key at 1. rewrite Hall1.
  rewrite bool_decide_eq_true_2 by done. cbn [negb].
  repeat (apply elem_of_cons in Hmode as [->|Hmode]);
    [| | | | |by inversion Hmode]; eval_mem;
    unfold bind at 1; unfold bind at 1; rewrite Hget; cbn [for_each];
    repeat (unfold bind at 1); by rewrite Hmiss.
Qed.

Lemma query_missing_label_raises_witness :
  _get_indices (PyStr "pore") (PyStr "inlet") (PyStr "intersection")
    labelled_store =
  (Raise (KeyError "pore.inlet"),
   State (self labelled_store)
     (logger labelled_store ++ [(WARNING, "'pore.inlet' not found")])).
Proof.
  apply (query_missing_label_raises labelled_store "pore" "inlet"
           "intersection" (ones 3 dt_bool)).
  - by apply (bool_decide_unpack _).
  - by apply (bool_decide_unpack _).
  - reflexivity.
  - reflexivity.
  - by vm_compute.
  - by vm_compute.
Defined.

Lemma nonzero_from_ones i n :
  nonzero_from i (replicate n true) = map (λ k, i + Z.of_nat k) (seq 0 n).
Proof.
  revert i. induction n as [|n IH]; intros i; [done|].
  cbn [replicate nonzero_from seq map]. rewrite IH, Z.add_0_r. f_equal.
  rewrite <- seq_shift, map_map. apply map_ext. intros k. lia.
Qed.

Lemma where_ones n : where_ (ones n dt_bool) = arange n.
Proof. unfold where_, arange. cbn. apply nonzero_from_ones. Qed.

(** Two masks of one length that are true at the same positions. *)
Lemma mask_ext (m m' : list bool) :
  length m = length m' →
  (∀ k, m !! k = Some true ↔ m' !! k = Some true) → m = m'.
Proof.
  intros Hlen Hk. apply list_eq. intros k.
  destruct (m !! k) as [b|] eqn:Hb, (m' !! k) as [b'|] eqn:Hb'.
  - destruct b, b'; try done; [apply Hk in Hb|apply Hk in Hb']; congruence.
  - apply lookup_lt_Some in Hb. apply lookup_ge_None in Hb'. lia.
  - apply lookup_lt_Some in Hb'. apply lookup_ge_None in Hb. lia.
  - done.
Qed.

Lemma query_all st element N :
  element ∈ ["pore"; "throat"] →
  self st !! (element +:+ ".all") = Some (ones N dt_bool) →
  ∃ st', _get_indices (PyStr element) (PyStr "all") (PyStr "union") st
         = (Ok (arange N), st') ∧ self st' = self st.
Proof.
  intros He Hall.
  destruct (query_mask st element N (ones N dt_bool) (PyStr "all") ["all"])
    as ((m & st' & Hq & Hst' & Hlen & Hk) & _);
    [done|done|apply size_ones|done| |].
  { repeat constructor. exists (replicate N true).
    split; [done|apply length_replicate]. }
  exists st'. split; [|done]. rewrite Hq. do 2 f_equal.
  rewrite <- where_ones. unfold ones. do 2 f_equal.
  apply mask_ext; [by rewrite length_replicate|].
  intros k. rewrite Hk. split.
  - intros (l & ->%list_elem_of_singleton & m' & Hm' & Htrue).
    change (element +:+ "." +:+ PyStr.last_component "all")
      with (element +:+ ".all") in Hm'.
    rewrite Hall in Hm'. by injection Hm' as <-.
  - intros Htrue. exists "all". split; [by left|].
    by exists (replicate N true).
Qed.

(** X12.  On an object created with [Np > 0] pores and [Nt > 0] throats,
    after any sequence of assignments and calls of [clear], the queries
    with their default arguments select every location: [pores()] is
    [Ps], [throats()] is [Ts], [num_pores()] is [Np] and [num_throats()]
    is [Nt]. *)
Theorem default_query_selects_all (Np Nt : nat) (calls : list call) :
  (0 < Np)%nat → (0 < Nt)%nat →
  let st := run calls (__init__ Np Nt) in
  fst (pores (PyStr "all") (PyStr "union") st) = Ok (arange Np) ∧
  fst (Ps st) = Ok (arange Np) ∧
  fst (throats (PyStr "all") (PyStr "union") st) = Ok (arange Nt) ∧
  fst (Ts st) = Ok (arange Nt) ∧
  fst (num_pores (PyStr "all") (PyStr "union") st) = Ok Np ∧
  fst (num_throats (PyStr "all") (PyStr "union") st) = Ok Nt.
Proof.
  intros HNp HNt st.
  destruct (run_invariant Np Nt calls (__init__ Np Nt) HNp HNt
              (init_invariant Np Nt)) as (Hp & Ht & _).
  fold st in Hp, Ht.
  destruct (query_all st "pore" Np) as (stp & Hqp & _); [set_solver|done|].
  destruct (query_all st "throat" Nt) as (stt & Hqt & _); [set_solver|done|].
  assert (length (arange Np) = Np ∧ length (arange Nt) = Nt) as [Hlp Hlt].
  { unfold arange. by rewrite !length_map, !length_seq. }
  unfold pores, throats, num_pores, num_throats, Ps, Ts, Base.Np,
    Base.Nt, count_prop, bind.
  rewrite Hqp, Hqt, Hp, Ht, !size_ones. simpl. by rewrite Hlp, Hlt.
Qed.

Lemma default_query_selects_all_witness :
  let st := run [SetItem "pore.top" (BoolArr [true; false; true]);
                 Clear PyNone (PyStr "all")] (__init__ 3 2) in
  fst (pores (PyStr "all") (PyStr "union") st) = Ok (arange 3) ∧
  fst (Ps st) = Ok (arange 3) ∧
  fst (throats (PyStr "all") (PyStr "union") st) = Ok (arange 2) ∧
  fst (Ts st) = Ok (arange 2) ∧
  fst (num_pores (PyStr "all") (PyStr "union") st) = Ok 3%nat ∧
  fst (num_throats (PyStr "all") (PyStr "union") st) = Ok 2%nat.
Proof.
  apply (default_query_selects_all 3 2
           [SetItem "pore.top" (BoolArr [true; false; true]);
            Clear PyNone (PyStr "all")]); lia.
Defined.

(** X13.  A boolean mask with one entry per location, assigned under
    the key [element.x] of a plain name [x] (no '.', no '*', not 'all'),
    is found again by the query for [x]: in mode 'union' the query
    returns the positions of the true entries of the mask. *)
Theorem label_roundtrip (st : state) (element x : string) (m : list bool)
    (all : ndarray) :
  element ∈ ["pore"; "throat"] →
  element +:+ "." +:+ x ∉ ["pore.coords"; "throat.conns"] →
  PyStr.contains "." x = false →
  PyStr.contains "*" x = false →
  x ≠ "all" →
  self st !! (element +:+ ".all") = Some all →
  length m = size all →
  ∃ st',
    __setitem__ (element +:+ "." +:+ x) (BoolArr m) st = (Ok (), st') ∧
    fst (_get_indices (PyStr element) (PyStr x) (PyStr "union") st')
      = Ok (where_ (BoolArr m)).
Proof.
  intros He Hskip Hdot Hstar Hx Hall Hlen.
  assert (PyStr.head_component x = x) as Hhead.
  { unfold PyStr.head_component. by rewrite (split_no_sep "." x Hdot). }
  assert (PyStr.head_component x ∉ protected_keys) as Hprot.
  { rewrite Hhead. by intros ->%list_elem_of_singleton. }
  destruct (setitem_stores st element x (BoolArr m) all) as (lg & ->);
    [done..|].
  eexists. split; [reflexivity|].
  set (st' := State _ lg).
  assert (self st' !! (element +:+ "." +:+ x) = Some (BoolArr m)) as Hkey.
  { subst st'. simpl. by rewrite lookup_insert_eq. }
  destruct (query_mask st' element (size all) all (PyStr x) [x])
    as ((m' & st2 & -> & _ & Hlen' & Hk) & _); [done| |done|done| |].
  { subst st'. simpl.
    by rewrite lookup_insert_ne by (by apply checked_key_not_all). }
  { repeat constructor; [done|]. exists m.
    by rewrite last_component_id by done. }
  simpl. do 3 f_equal. apply mask_ext; [congruence|].
  intros k. rewrite Hk. unfold item_true. split.
  - intros (l & ->%list_elem_of_singleton & m0 & Hm0 & Htrue).
    rewrite last_component_id in Hm0 by done. congruence.
  - intros Htrue. exists x. split; [by left|]. exists m.
    by rewrite last_component_id by done.
Qed.

Lemma label_roundtrip_witness :
  ∃ st',
    __setitem__ "pore.inlet" (BoolArr [false; true; true]) (__init__ 3 2)
      = (Ok (), st') ∧
    fst (_get_indices (PyStr "pore") (PyStr "inlet") (PyStr "union") st')
      = Ok (where_ (BoolArr [false; true; true])).
Proof.
  apply (label_roundtrip (__init__ 3 2) "pore" "inlet" [false; true; true]
           (ones 3 dt_bool)).
  - by apply (bool_decide_unpack _).
  - by apply (bool_decide_unpack _).
  - reflexivity.
  - reflexivity.
  - discriminate.
  - reflexivity.
  - reflexivity.
Defined.

(** ** Masks and index arrays *)

Lemma norm_index_Some n i k :
  norm_index n i = Some k ↔
  (- Z.of_nat n ≤ i < Z.of_nat n) ∧
  (Z.of_nat k = i ∨ Z.of_nat k = i + Z.of_nat n) ∧ (k < n)%nat.
Proof.
  unfold norm_index. repeat case_decide.
  - split; [intros [= <-]; lia|]. intros (_ & ? & ?). f_equal. lia.
  - split; [intros [= <-]; lia|]. intros (_ & ? & ?). f_equal. lia.
  - split; [done|]. lia.
Qed.

Lemma norm_index_None n i :
  norm_index n i = None ↔ ¬ (- Z.of_nat n ≤ i < Z.of_nat n).
Proof. unfold norm_index. repeat case_decide; split; try done; lia. Qed.

(** [mask[ind] = True] for indices of either sign. *)
Lemma set_true_signed (I : list Z) (m0 : list bool) :
  Forall (λ i, - Z.of_nat (length m0) ≤ i < Z.of_nat (length m0)) I →
  ∃ m, set_true m0 I = Some m ∧ length m = length m0 ∧
       ∀ k, m !! k = Some true ↔
            m0 !! k = Some true ∨
            ∃ i, i ∈ I ∧ norm_index (length m0) i = Some k.
Proof.
  revert m0. induction I as [|i I IH]; intros m0 HI.
  { exists m0. split_and!; [done|done|]. intros k. split; [by left|].
    intros [?|(i & H & _)]; [done|by inversion H]. }
  inversion HI as [|?? Hi HI']; subst. clear HI. cbn [set_true].
  destruct (norm_index (length m0) i) as [k0|] eqn:Hk0;
    [|by apply norm_index_None in Hk0].
  pose proof (proj1 (norm_index_Some _ _ _) Hk0) as (_ & _ & Hlt).
  destruct (IH (<[k0 := true]> m0)) as (m & -> & Hlen & Hm).
  { by rewrite length_insert. }
  rewrite length_insert in Hlen, Hm.
  exists m. split_and!; [done|done|].
  intros k. rewrite Hm. clear Hm IH.
  destruct (decide (k = k0)) as [->|Hne].
  - rewrite list_lookup_insert_eq by done. split; [|by left].
    intros _. right. exists i. split; [by left|done].
  - rewrite list_lookup_insert_ne by done. split.
    + intros [?|(j & Hj & ?)]; [by left|]. right. exists j.
      split; [by right|done].
    + intros [?|(j & [->|Hj]%elem_of_cons & Hjk)]; [by left|congruence|].
      right. by exists j.
Qed.

Lemma set_true_out_of_range (I : list Z) (m0 : list bool) :
  ¬ Forall (λ i, - Z.of_nat (length m0) ≤ i < Z.of_nat (length m0)) I →
  set_true m0 I = None.
Proof.
  revert m0. induction I as [|i I IH]; intros m0 HI; [by destruct HI|].
  cbn [set_true]. destruct (norm_index (length m0) i) as [k0|] eqn:Hk0; [|done].
  apply IH. rewrite length_insert. intros HI'. apply HI.
  constructor; [|done]. by apply norm_index_Some in Hk0 as [? _].
Qed.

(** X14.  [_tomask] returns a mask with one entry per location of the
    element that is true exactly at the given indices, a negative index
    counting from the end, when every index lies in [-N, N); it raises
    [IndexError] when some index does not.  The state is unchanged. *)
Theorem tomask_bounds (st : state) (element : string) (all : ndarray)
    (I : list Z) :
  element ∈ ["pore"; "throat"] →
  self st !! (element +:+ ".all") = Some all →
  let N := Z.of_nat (size all) in
  (Forall (λ i, - N ≤ i < N) I →
   ∃ m, _tomask (Some (IntArr I)) (PyStr element) st = (Ok (BoolArr m), st) ∧
        length m = size all ∧
        ∀ k, m !! k = Some true ↔
             (k < size all)%nat ∧
             ∃ i, i ∈ I ∧ (Z.of_nat k = i ∨ Z.of_nat k = i + N)) ∧
  (¬ Forall (λ i, - N ≤ i < N) I →
   _tomask (Some (IntArr I)) (PyStr element) st = (Raise IndexError, st)).
Proof.
  intros He Hall N.
  assert (_tomask (Some (IntArr I)) (PyStr element) st =
          match set_true (replicate (size all) false) I with
          | Some mask => (Ok (BoolArr mask), st)
          | None => (Raise IndexError, st)
          end) as ->.
  { unfold _tomask. rewrite parse_element_single_element by done.
    unfold bind at 1, lift at 1. unfold bind at 1, _parse_indices at 1.
    change (default (IntArr []) (Some (IntArr I))) with (IntArr I).
    cbv iota. unfold ret at 1. unfold bind at 1, __getitem__ at 1.
    rewrite Hall. by destruct (set_true _ I). }
  split; intros HI.
  - destruct (set_true_signed I (replicate (size all) false))
      as (m & -> & Hlen & Hm).
    { by rewrite length_replicate. }
    rewrite length_replicate in Hlen, Hm.
    exists m. split_and!; [done|done|]. intros k. rewrite Hm. split.
    + intros [H|(i & Hi & Hk)].
      { by apply lookup_replicate in H as [? _]. }
      apply norm_index_Some in Hk as (_ & Hk & Hlt). split; [done|].
      by exists i.
    + intros (Hlt & i & Hi & Hk). right. exists i. split; [done|].
      apply norm_index_Some. split; [|by split].
      rewrite Forall_forall in HI. apply HI. by apply list_elem_of_In.
  - rewrite set_true_out_of_range; [done|]. by rewrite length_replicate.
Qed.

Lemma tomask_bounds_witness :
  (∃ m, _tomask (Some (IntArr [0; -1])) (PyStr "pore") (__init__ 3 2)
          = (Ok (BoolArr m), __init__ 3 2) ∧
        length m = 3%nat ∧
        ∀ k, m !! k = Some true ↔
             (k < 3)%nat ∧
             ∃ i, i ∈ [0; -1] ∧ (Z.of_nat k = i ∨ Z.of_nat k = i + 3)) ∧
  _tomask (Some (IntArr [0; 3])) (PyStr "pore") (__init__ 3 2)
    = (Raise IndexError, __init__ 3 2).
Proof.
  destruct (tomask_bounds (__init__ 3 2) "pore" (ones 3 dt_bool) [0; -1])
    as [Hin _]; [by apply (bool_decide_unpack _)|reflexivity|].
  destruct (tomask_bounds (__init__ 3 2) "pore" (ones 3 dt_bool) [0; 3])
    as [_ Hout]; [by apply (bool_decide_unpack _)|reflexivity|].
  split.
  - apply Hin. repeat constructor; simpl; lia.
  - apply Hout. intros H. inversion H as [|?? _ H']; subst.
    inversion H' as [|?? Hi _]; subst. simpl in Hi. lia.
Defined.

(** The mask made of the positions of the true entries of a mask. *)
Lemma set_true_where (m : list bool) :
  set_true (replicate (length m) false) (where_ (BoolArr m)) = Some m.
Proof.
  destruct (where_canonical m) as [Hs Hr].
  destruct (where_set_true (where_ (BoolArr m)) (length m) Hs Hr)
    as (mask & -> & Hlen & Hw).
  f_equal. apply mask_ext; [done|]. intros k.
  assert (∀ l, Z.of_nat k ∈ where_ (BoolArr l) ↔ l !! k = Some true) as Hpos.
  { intros l. unfold where_, truth. rewrite elem_of_nonzero_from. split.
    - intros (k' & Hk' & ?). by replace k with k' by lia.
    - intros ?. exists k. split; [lia|done]. }
  by rewrite <- !Hpos, Hw.
Qed.

(** X15.  A boolean mask with one entry per pore is recovered by
    [tomask(pores=...)] from the indices [toindices] reads from it, and a
    mask with one entry per throat by [tomask(throats=...)]; a mask of any
    other length is refused by [toindices].  No call changes the state. *)
Theorem toindices_tomask_roundtrip (st : state) (m : list bool)
    (allp allt : ndarray) :
  self st !! "pore.all" = Some allp →
  self st !! "throat.all" = Some allt →
  (length m = size allp →
   ∃ I, toindices (BoolArr m) st = (Ok I, st) ∧
        tomask (Some (IntArr I)) None st = (Ok (BoolArr m), st)) ∧
  (length m = size allt →
   ∃ I, toindices (BoolArr m) st = (Ok I, st) ∧
        tomask None (Some (IntArr I)) st = (Ok (BoolArr m), st)) ∧
  (length m ≠ size allp → length m ≠ size allt →
   toindices (BoolArr m) st =
   (Raise (Exception
      "Boolean list of locations must be either Np nor Nt long"), st)).
Proof.
  intros Hp Ht.
  assert (Base.Np st = (Ok (size allp), st)) as HNp
    by (unfold Base.Np, count_prop; by rewrite Hp).
  assert (Base.Nt st = (Ok (size allt), st)) as HNt
    by (unfold Base.Nt, count_prop; by rewrite Ht).
  assert (length m = size allp ∨ length m = size allt →
          toindices (BoolArr m) st = (Ok (where_ (BoolArr m)), st)) as Hto.
  { intros Hlen. unfold toindices, _parse_indices.
    change (default (IntArr []) (Some (BoolArr m))) with (BoolArr m).
    cbv beta iota. unfold bind at 1. rewrite HNp. case_decide as Hsame.
    - unfold Ps, bind, ret. rewrite HNp. by rewrite <- Hsame, select_arange.
    - destruct Hlen as [?|Hlen]; [done|].
      unfold bind at 1. rewrite HNt. rewrite decide_True by done.
      unfold Ts, bind, ret. rewrite HNt. by rewrite <- Hlen, select_arange. }
  assert (∀ element all,
            element ∈ ["pore"; "throat"] →
            self st !! (element +:+ ".all") = Some all →
            length m = size all →
            _tomask (Some (IntArr (where_ (BoolArr m)))) (PyStr element) st
            = (Ok (BoolArr m), st)) as Hmask.
  { intros element all He Hall Hlen. unfold _tomask.
    rewrite parse_element_single_element by done.
    unfold bind at 1, lift at 1. unfold bind at 1, _parse_indices at 1.
    change (default (IntArr []) (Some (IntArr ?I))) with (IntArr I).
    cbv iota. unfold ret at 1. unfold bind at 1, __getitem__ at 1.
    rewrite Hall. by rewrite <- Hlen, set_true_where. }
  split_and!.
  - intros Hlen. exists (where_ (BoolArr m)). split; [apply Hto; by left|].
    apply (Hmask "pore" allp); [set_solver|done|done].
  - intros Hlen. exists (where_ (BoolArr m)). split; [apply Hto; by right|].
    apply (Hmask "throat" allt); [set_solver|done|done].
  - intros Hnp Hnt. unfold toindices, _parse_indices.
    change (default (IntArr []) (Some (BoolArr m))) with (BoolArr m).
    cbv beta iota. unfold bind at 1. rewrite HNp.
    rewrite decide_False by done. unfold bind at 1. rewrite HNt.
    by rewrite decide_False by done.
Qed.

Lemma toindices_tomask_roundtrip_witness :
  (∃ I, toindices (BoolArr [true; false; true]) (__init__ 3 2)
          = (Ok I, __init__ 3 2) ∧
        tomask (Some (IntArr I)) None (__init__ 3 2)
          = (Ok (BoolArr [true; false; true]), __init__ 3 2)) ∧
  (∃ I, toindices (BoolArr [false; true]) (__init__ 3 2)
          = (Ok I, __init__ 3 2) ∧
        tomask None (Some (IntArr I)) (__init__ 3 2)
          = (Ok (BoolArr [false; true]), __init__ 3 2)) ∧
  toindices (BoolArr [true]) (__init__ 3 2) =
  (Raise (Exception
     "Boolean list of locations must be either Np nor Nt long"), __init__ 3 2).
Proof.
  destruct (toindices_tomask_roundtrip (__init__ 3 2) [true; false; true]
              (ones 3 dt_bool) (ones 2 dt_bool)) as (Hpores & _ & _);
    [reflexivity..|].
  destruct (toindices_tomask_roundtrip (__init__ 3 2) [false; true]
              (ones 3 dt_bool) (ones 2 dt_bool)) as (_ & Hthroats & _);
    [reflexivity..|].
  destruct (toindices_tomask_roundtrip (__init__ 3 2) [true]
              (ones 3 dt_bool) (ones 2 dt_bool)) as (_ & _ & Hother);
    [reflexivity..|].
  split_and!.
  - by apply Hpores.
  - by apply Hthroats.
  - apply Hother; simpl; lia.
Defined.

(** ** Filtering locations by label *)

Lemma elem_of_where (m : list bool) (p : Z) :
  p ∈ where_ (BoolArr m) ↔ 0 ≤ p ∧ m !! Z.to_nat p = Some true.
Proof.
  unfold where_, truth. rewrite elem_of_nonzero_from. split.
  - intros (k & -> & Hk). split; [lia|]. by rewrite Z.add_0_l, Nat2Z.id.
  - intros [Hp Hk]. exists (Z.to_nat p). split; [lia|done].
Qed.

(** [locations[mask[locations]]] keeps the locations the mask is true at. *)
Lemma select_take_at (m : list bool) (P : list Z) :
  Forall (λ p, 0 ≤ p < Z.of_nat (length m)) P →
  ∃ r, take_at m P = Some r ∧
       select P r = filter (λ p, p ∈ where_ (BoolArr m)) P.
Proof.
  induction P as [|p P IH]; intros HP; [by exists []|].
  inversion HP as [|?? Hp HP']; subst.
  destruct (IH HP') as (r & Hr & Hsel). cbn [take_at].
  unfold norm_index. rewrite decide_True by done.
  destruct (lookup_lt_is_Some_2 m (Z.to_nat p)) as [b Hb]; [lia|].
  rewrite Hb, Hr. exists (b :: r). split; [done|].
  cbn [select]. rewrite filter_cons, Hsel. destruct b.
  - rewrite decide_True; [done|]. apply elem_of_where. split; [lia|done].
  - rewrite decide_False; [done|]. rewrite elem_of_where. intros [_ ?].
    congruence.
Qed.

Lemma tomask_where st element all (m : list bool) :
  element ∈ ["pore"; "throat"] →
  self st !! (element +:+ ".all") = Some all →
  length m = size all →
  _tomask (Some (IntArr (where_ (BoolArr m)))) (PyStr element) st
  = (Ok (BoolArr m), st).
Proof.
  intros He Hall Hlen. unfold _tomask.
  rewrite parse_element_single_element by done.
  unfold bind at 1, lift at 1. unfold bind at 1, _parse_indices at 1.
  change (default (IntArr []) (Some (IntArr ?I))) with (IntArr I).
  cbv iota. unfold ret at 1. unfold bind at 1, __getitem__ at 1.
  rewrite Hall. by rewrite <- Hlen, set_true_where.
Qed.

Lemma key_no_star element y :
  element ∈ ["pore"; "throat"] →
  PyStr.contains "*" y = false →
  PyStr.contains "*" (element +:+ "." +:+ y) = false.
Proof.
  intros He Hy. repeat (apply elem_of_cons in He as [->|He]);
    [| |by inversion He].
  - change ("pore" +:+ "." +:+ y)
      with (String "p" (String "o" (String "r" (String "e" (String "." y))))).
    by rewrite !contains_char_cons, Hy.
  - change ("throat" +:+ "." +:+ y)
      with (String "t" (String "h" (String "r" (String "o" (String "a"
              (String "t" (String "." y))))))).
    by rewrite !contains_char_cons, Hy.
Qed.

(** Two lists of labels given by name that name the same stored labels
    select the same locations. *)
Lemma query_mask_same st st' element N all la ll la' ll' mode :
  element ∈ ["pore"; "throat"] →
  mode ∈ ["union"; "intersection"; "not"] →
  self st' = self st →
  self st !! (element +:+ ".all") = Some all →
  size all = N →
  as_list la = Ok ll → as_list la' = Ok ll' →
  Forall (existing_label st element N) ll →
  Forall (existing_label st' element N) ll' →
  Z.of_nat (length ll) < 2 ^ 63 → Z.of_nat (length ll') < 2 ^ 63 →
  (∀ c, c ∈ map PyStr.last_component ll ↔ c ∈ map PyStr.last_component ll') →
  ∃ m st1 st1',
    _get_indices (PyStr element) la (PyStr mode) st
      = (Ok (where_ (BoolArr m)), st1) ∧
    _get_indices (PyStr element) la' (PyStr mode) st'
      = (Ok (where_ (BoolArr m)), st1') ∧
    self st1' = self st ∧ length m = N.
Proof.
  intros He Hmode Hst Hall HN Hl Hl' Hex Hex' Hb Hb' Hsame.
  destruct (query_mask st element N all la ll)
    as ((mu & stu & Hu & _ & Hlu & Hku) & (mn & stn & Hn & _ & Hln & Hkn) & Hnot);
    [done..|].
  destruct (Hnot Hb) as (mt & stt & Ht & _ & Hlt & Hkt). clear Hnot.
  destruct (query_mask st' element N all la' ll')
    as ((mu' & stu' & Hu' & Hsu' & Hlu' & Hku') &
        (mn' & stn' & Hn' & Hsn' & Hln' & Hkn') & Hnot');
    [done|by rewrite Hst|done..|].
  destruct (Hnot' Hb') as (mt' & stt' & Ht' & Hst' & Hlt' & Hkt'). clear Hnot'.
  rewrite Hst in Hku', Hkn', Hkt'.
  assert (∀ Q : string → Prop,
            (∃ l, l ∈ ll ∧ Q (PyStr.last_component l)) ↔
            (∃ l, l ∈ ll' ∧ Q (PyStr.last_component l))) as Hsome.
  { intros Q. split; intros (l & Hin & HQ).
    - assert (PyStr.last_component l ∈ map PyStr.last_component ll') as Hc.
      { apply Hsame, list_elem_of_fmap. by exists l. }
      apply list_elem_of_fmap in Hc as (l' & Heq & Hin'). exists l'.
      split; [done|]. by rewrite <- Heq.
    - assert (PyStr.last_component l ∈ map PyStr.last_component ll) as Hc.
      { apply Hsame, list_elem_of_fmap. by exists l. }
      apply list_elem_of_fmap in Hc as (l' & Heq & Hin'). exists l'.
      split; [done|]. by rewrite <- Heq. }
  assert (∀ Q : string → Prop,
            (∀ l, l ∈ ll → Q (PyStr.last_component l)) ↔
            (∀ l, l ∈ ll' → Q (PyStr.last_component l))) as Hevery.
  { intros Q. split; intros HQ l Hin.
    - assert (PyStr.last_component l ∈ map PyStr.last_component ll) as Hc.
      { apply Hsame, list_elem_of_fmap. by exists l. }
      apply list_elem_of_fmap in Hc as (l' & -> & Hin'). by apply HQ.
    - assert (PyStr.last_component l ∈ map PyStr.last_component ll') as Hc.
      { apply Hsame, list_elem_of_fmap. by exists l. }
      apply list_elem_of_fmap in Hc as (l' & -> & Hin'). by apply HQ. }
  repeat (apply elem_of_cons in Hmode as [->|Hmode]); [| | |by inversion Hmode].
  - exists mu, stu, stu'. split_and!; [done| |congruence|done].
    rewrite Hu'. enough (mu' = mu) as -> by done.
    apply mask_ext; [congruence|].
    intros k. rewrite Hku, Hku'. unfold item_true. symmetry.
    apply (Hsome (λ c, ∃ m0, self st !! (element +:+ "." +:+ c)
                         = Some (BoolArr m0) ∧ m0 !! k = Some true)).
  - exists mn, stn, stn'. split_and!; [done| |congruence|done].
    rewrite Hn'. enough (mn' = mn) as -> by done.
    apply mask_ext; [congruence|].
    intros k. rewrite Hkn, Hkn'. unfold item_true.
    rewrite (Hevery (λ c, ∃ m0, self st !! (element +:+ "." +:+ c)
                           = Some (BoolArr m0) ∧ m0 !! k = Some true)).
    done.
  - exists mt, stt, stt'. split_and!; [done| |congruence|done].
    rewrite Ht'. enough (mt' = mt) as -> by done.
    apply mask_ext; [congruence|].
    intros k. rewrite Hkt, Hkt'. unfold item_true.
    rewrite (Hevery (λ c, ¬ ∃ m0, self st !! (element +:+ "." +:+ c)
                             = Some (BoolArr m0) ∧ m0 !! k = Some true)).
    done.
Qed.

(** The body of [filter_by_label] below the choice of the element. *)
Lemma filter_locations_spec st element N all labels_arg labels_list mode P :
  element ∈ ["pore"; "throat"] →
  mode ∈ ["union"; "intersection"; "not"] →
  self st !! (element +:+ ".all") = Some all →
  size all = N →
  as_list labels_arg = Ok labels_list →
  Forall (existing_label st element N) labels_list →
  Z.of_nat (length labels_list) < 2 ^ 63 →
  Forall (λ p, 0 ≤ p < Z.of_nat N) P →
  ∃ ind,
    fst (_get_indices (PyStr element) labels_arg (PyStr mode) st) = Ok ind ∧
    fst (filter_locations element (IntArr P) labels_arg mode st)
    = Ok (filter (λ p, p ∈ ind) P).
Proof.
  intros He Hmode Hall HN Hl Hex Hbound HP.
  destruct (parse_labels_spec st element labels_arg labels_list Hl)
    as (parsed & st1 & Hparse & Hst1 & Hlen & Hmem).
  { eapply Forall_impl; [|exact Hex]. by intros l [? _]. }
  set (parsed' :=
         map (λ item, element +:+ "." +:+ PyStr.last_component item) parsed).
  assert (∀ x, x ∈ parsed →
            ∃ l, l ∈ labels_list ∧
                 PyStr.last_component x = PyStr.last_component l) as Hlc.
  { intros x (l & Hin & ->)%Hmem. exists l. split; [done|].
    by apply last_component_parsed. }
  assert (∀ x, PyStr.last_component
                 (element +:+ "." +:+ PyStr.last_component x)
               = PyStr.last_component x) as Hre.
  { intros x. rewrite last_component_element by done.
    apply last_component_id, last_component_no_dot. }
  destruct (query_mask_same st st1 element N all labels_arg labels_list
              (PyList parsed') parsed' mode)
    as (m & st2 & st3 & Hq & Hq' & Hst3 & Hm);
    [done|done|done|done|done|done|done|done| |done| | |].
  { apply Forall_forall. intros x' Hx'%list_elem_of_In.
    apply list_elem_of_fmap in Hx' as (x & -> & Hx).
    destruct (Hlc x Hx) as (l & Hin & Heq).
    rewrite Forall_forall in Hex.
    destruct (Hex l (proj1 (list_elem_of_In _ _) Hin)) as (Hstar & m0 & Hm0 & Hlen0).
    split.
    - apply key_no_star; [done|]. rewrite Heq.
      by apply last_component_keeps_absent.
    - exists m0. by rewrite Hre, Heq, Hst1. }
  { subst parsed'. rewrite length_map. lia. }
  { intros c. subst parsed'. rewrite map_map. rewrite !list_elem_of_fmap. split.
    - intros (l & -> & Hin).
      eexists (element +:+ "." +:+ strip_element element l).
      split; [by rewrite Hre, last_component_parsed|].
      apply Hmem. by exists l.
    - intros (x & -> & Hx). destruct (Hlc x Hx) as (l & Hin & Heq).
      exists l. by rewrite Hre. }
  exists (where_ (BoolArr m)). rewrite Hq. split; [done|].
  destruct (select_take_at m P) as (r & Hr & Hsel); [by rewrite Hm|].
  unfold filter_locations. unfold bind at 1, _parse_indices at 1.
  change (default (IntArr []) (Some (IntArr P))) with (IntArr P).
  cbv iota. unfold ret at 1. unfold bind at 1. rewrite Hparse.
  fold parsed'. unfold bind at 1. rewrite Hq'.
  unfold bind at 1.
  rewrite (tomask_where st3 element all m); [|done|by rewrite Hst3|congruence].
  by rewrite Hr, Hsel.
Qed.

(** X16.  For labels given by name that exist as masks over the [N]
    locations of the element and a mode among 'union', 'intersection' and
    'not', [filter_by_label] returns the given locations, all in
    [0, N), that the query of the same labels and mode returns, in the
    order given and as often as given. *)
Theorem filter_by_label_spec (st : state) (element : string) (N : nat)
    (all : ndarray) (labels_arg : pyarg) (labels_list : list string)
    (mode : string) (P : list Z) :
  element ∈ ["pore"; "throat"] →
  mode ∈ ["union"; "intersection"; "not"] →
  self st !! (element +:+ ".all") = Some all →
  size all = N →
  as_list labels_arg = Ok labels_list →
  Forall (existing_label st element N) labels_list →
  Z.of_nat (length labels_list) < 2 ^ 63 →
  Forall (λ p, 0 ≤ p < Z.of_nat N) P →
  ∃ ind,
    fst (_get_indices (PyStr element) labels_arg (PyStr mode) st) = Ok ind ∧
    fst (filter_by_label
           (if decide (element = "pore") then IntArr P else IntArr [])
           (if decide (element = "pore") then IntArr [] else IntArr P)
           labels_arg (PyStr mode) st)
    = Ok (filter (λ p, p ∈ ind) P).
Proof.
  intros He Hmode Hall HN Hl Hex Hbound HP.
  destruct (filter_locations_spec st element N all labels_arg labels_list
              mode P) as (ind & Hq & Hf); [done..|].
  exists ind. split; [done|]. unfold filter_by_label.
  assert (mode ∈ ["union"; "intersection"; "not_intersection"; "not"])
    as Hmode'.
  { repeat (apply elem_of_cons in Hmode as [->|Hmode]);
      [by apply (bool_decide_unpack _)..|by inversion Hmode]. }
  rewrite parse_mode_single_allowed by done.
  unfold bind at 1, lift at 1.
  destruct P as [|p P].
  { by destruct (decide (element = "pore")). }
  repeat (apply elem_of_cons in He as [->|He]); [| |by inversion He].
  - destruct (decide ("pore" = "pore")) as [_|?]; [|done].
    rewrite decide_False by (simpl; lia).
    by rewrite decide_True by (simpl; lia).
  - destruct (decide ("throat" = "pore")) as [?|_]; [done|].
    rewrite decide_False by (simpl; lia).
    rewrite decide_False by (simpl; lia).
    by rewrite decide_True by (simpl; lia).
Qed.

Lemma filter_by_label_spec_witness :
  ∃ ind,
    fst (_get_indices (PyStr "pore") (PyList ["top"; "pore.left"])
           (PyStr "intersection") labelled_store) = Ok ind ∧
    fst (filter_by_label (IntArr [2; 0; 0]) (IntArr [])
           (PyList ["top"; "pore.left"]) (PyStr "intersection") labelled_store)
    = Ok (filter (λ p, p ∈ ind) [2; 0; 0]).
Proof.
  apply (filter_by_label_spec labelled_store "pore" 3 (ones 3 dt_bool)
           (PyList ["top"; "pore.left"]) ["top"; "pore.left"]
           "intersection" [2; 0; 0]).
  - by apply (bool_decide_unpack _).
  - by apply (bool_decide_unpack _).
  - by vm_compute.
  - reflexivity.
  - reflexivity.
  - repeat constructor; try reflexivity.
    + exists [true; false; true]. split; [by vm_compute|reflexivity].
    + exists [true; true; false]. split; [by vm_compute|reflexivity].
  - simpl. lia.
  - repeat constructor; simpl; lia.
Defined.

(** ** Translating ids into indices *)

Lemma hash_map_sound (l : list (Z * Z)) (acc : gmap Z Z) v k :
  fold_left (λ h kv, <[kv.1 := kv.2]> h) l acc !! v = Some k →
  acc !! v = Some k ∨ (v, k) ∈ l.
Proof.
  revert acc. induction l as [|[v' k'] l IH]; intros acc; [by left|].
  simpl. intros [H|H]%IH.
  - destruct (decide (v' = v)) as [->|Hne].
    + rewrite lookup_insert_eq in H. injection H as ->. right. by left.
    + rewrite lookup_insert_ne in H by done. by left.
  - right. by right.
Qed.

Lemma hash_map_keeps (l : list (Z * Z)) (acc : gmap Z Z) v k :
  v ∉ l.*1 → acc !! v = Some k →
  fold_left (λ h kv, <[kv.1 := kv.2]> h) l acc !! v = Some k.
Proof.
  revert acc. induction l as [|[v' k'] l IH]; intros acc Hv Hacc; [done|].
  simpl. apply IH.
  - intros Hin. apply Hv. by right.
  - rewrite lookup_insert_ne; [done|]. intros ->. apply Hv. by left.
Qed.

Lemma hash_map_complete (l : list (Z * Z)) (acc : gmap Z Z) v k :
  NoDup l.*1 → (v, k) ∈ l →
  fold_left (λ h kv, <[kv.1 := kv.2]> h) l acc !! v = Some k.
Proof.
  revert acc. induction l as [|[v' k'] l IH]; intros acc Hnd Hin;
    [by inversion Hin|].
  inversion Hnd as [|?? Hv' Hnd']; subst. simpl.
  apply elem_of_cons in Hin as [[= -> ->]|Hin].
  - apply hash_map_keeps; [done|]. by rewrite lookup_insert_eq.
  - by apply IH.
Qed.

Lemma elem_of_zip_arange (ids : list Z) N v k :
  (v, k) ∈ zip ids (arange N) ↔
  0 ≤ k < Z.of_nat N ∧ ids !! Z.to_nat k = Some v.
Proof.
  unfold arange. rewrite list_elem_of_lookup. split.
  - intros (j & Hj). apply lookup_zip_with_Some in Hj
      as (v' & k' & [= <- <-] & Hv & Hk).
    rewrite list_lookup_fmap in Hk.
    destruct (seq 0 N !! j) as [j'|] eqn:Hseq; [|done].
    apply lookup_seq in Hseq as [-> HjN]. injection Hk as <-.
    split; [lia|]. by rewrite Nat2Z.id.
  - intros [Hk Hv]. exists (Z.to_nat k). apply lookup_zip_with_Some.
    exists v, k. split_and!; [done|done|].
    rewrite list_lookup_fmap, lookup_seq_lt by lia. simpl. f_equal. lia.
Qed.

Lemma fst_zip_arange (ids : list Z) :
  (zip ids (arange (length ids))).*1 = ids.
Proof.
  apply fst_zip. unfold arange. by rewrite length_map, length_seq.
Qed.

Lemma select_map {A} (f : A → bool) (l : list A) :
  select l (map f l) = filter (λ x, f x = true) l.
Proof.
  induction l as [|x l IH]; [done|]. cbn [map select].
  rewrite filter_cons, IH. by destruct (f x).
Qed.

(** The value of [_map] with [filtered=True] on an element whose [all]
    label is all true. *)
Lemma map_filtered st element N id_arr ids :
  element ∈ ["pore"; "throat"] →
  self st !! (element +:+ ".all") = Some (ones N dt_bool) →
  self st !! (element +:+ "._id") = Some (IntArr id_arr) →
  fst (_map (IntArr ids) element true st) =
  Ok (inl (filter (λ z, (0 <=? z) = true)
             (map (λ i, default (-1) (hash_map id_arr (arange N) !! i)) ids))).
Proof.
  intros He Hall Hid. unfold _map.
  destruct (query_all st element N He Hall) as (st' & Hq & Hst').
  unfold bind at 1. rewrite Hq. unfold bind at 1, __getitem__ at 1.
  rewrite Hst', Hid. cbn [as_ints size].
  set (ind := map _ ids).
  replace (length ids) with (length (map (λ z, 0 <=? z) ind))
    by (subst ind; by rewrite !length_map).
  rewrite set_true_where. cbn. by rewrite select_map.
Qed.

(** X17.  On an element whose [all] label is all true, [_map] with
    [filtered=True], which is what [map_pores] and [map_throats] call,
    returns for the ids given indices at which the array '_id' of the
    element holds one of these ids; and when the ids stored in '_id' are
    distinct, one per location, the ids read from '_id' at any list of
    locations are translated back into these locations. *)
Theorem map_ids_roundtrip (st : state) (element : string) (N : nat)
    (id_arr : list Z) :
  element ∈ ["pore"; "throat"] →
  self st !! (element +:+ ".all") = Some (ones N dt_bool) →
  self st !! (element +:+ "._id") = Some (IntArr id_arr) →
  (∀ ids, ∃ r,
     fst (_map (IntArr ids) element true st) = Ok (inl r) ∧
     Forall (λ k, 0 ≤ k < Z.of_nat N ∧
                  ∃ v, v ∈ ids ∧ id_arr !! Z.to_nat k = Some v) r) ∧
  (length id_arr = N → NoDup id_arr →
   ∀ I, Forall (λ i, 0 ≤ i < Z.of_nat N) I →
        ∃ ids, take_at id_arr I = Some ids ∧
               fst (_map (IntArr ids) element true st) = Ok (inl I)).
Proof.
  intros He Hall Hid. split.
  - intros ids. eexists. split; [by apply (map_filtered st element N id_arr)|].
    apply Forall_forall. intros k Hk%list_elem_of_In.
    apply list_elem_of_filter in Hk as [Hpos Hk].
    apply list_elem_of_fmap in Hk as (v & Hkv & Hv).
    destruct (hash_map id_arr (arange N) !! v) as [k'|] eqn:Hh;
      simpl in Hkv; subst k; [|done].
    apply hash_map_sound in Hh as [Hh|Hh]; [by rewrite lookup_empty in Hh|].
    apply elem_of_zip_arange in Hh as [Hr Hv']. split; [done|]. by exists v.
  - intros Hlen Hnd I HI.
    assert (∀ i, 0 ≤ i < Z.of_nat N →
              ∃ v, id_arr !! Z.to_nat i = Some v ∧
                   hash_map id_arr (arange N) !! v = Some i) as Hh.
    { intros i Hi.
      destruct (lookup_lt_is_Some_2 id_arr (Z.to_nat i)) as [v Hv]; [lia|].
      exists v. split; [done|]. apply hash_map_complete.
      - rewrite <- Hlen. by rewrite fst_zip_arange.
      - by apply elem_of_zip_arange. }
    assert (∃ ids, take_at id_arr I = Some ids ∧
                   map (λ v, default (-1) (hash_map id_arr (arange N) !! v)) ids
                   = I) as (ids & Htake & Hind).
    { clear -HI Hh Hlen. induction I as [|i I IH]; [by exists []|].
      inversion HI as [|?? Hi HI']; subst.
      destruct (IH HI') as (ids & Hids & Hmap).
      destruct (Hh i Hi) as (v & Hv & Hhv). exists (v :: ids).
      cbn [take_at]. unfold norm_index. rewrite decide_True by lia.
      rewrite Hv, Hids. split; [done|]. cbn [map]. by rewrite Hhv, Hmap. }
    exists ids. split; [done|].
    rewrite (map_filtered st element N id_arr) by done.
    rewrite Hind. do 2 f_equal. clear -HI.
    induction I as [|i I IH]; [done|]. inversion HI as [|?? Hi HI']; subst.
    rewrite filter_cons_True by (apply Z.leb_le; lia). f_equal. by apply IH.
Qed.

Lemma map_ids_roundtrip_witness :
  let st := State (<["pore._id" := IntArr [7; 5; 9]]> (self (__init__ 3 2))) [] in
  (∀ ids, ∃ r,
     fst (_map (IntArr ids) "pore" true st) = Ok (inl r) ∧
     Forall (λ k, 0 ≤ k < Z.of_nat 3 ∧
                  ∃ v, v ∈ ids ∧ [7; 5; 9] !! Z.to_nat k = Some v) r) ∧
  (∃ ids, take_at [7; 5; 9] [2; 0] = Some ids ∧
          fst (_map (IntArr ids) "pore" true st) = Ok (inl [2; 0])).
Proof.
  intros st.
  destruct (map_ids_roundtrip st "pore" 3 [7; 5; 9]) as [Hsound Hround].
  - by apply (bool_decide_unpack _).
  - reflexivity.
  - reflexivity.
  - split; [exact Hsound|]. apply Hround.
    + reflexivity.
    + apply (bool_decide_unpack _). by vm_compute.
    + repeat constructor; simpl; lia.
Defined.

(** ** The labels of given locations *)

Lemma sum_bool_pos (c : list bool) : 0 < sum_bool c ↔ true ∈ c.
Proof.
  unfold sum_bool. induction c as [|b c IH]; [by split; [simpl; lia|inversion 1]|].
  rewrite filter_cons, elem_of_cons. destruct b.
  - rewrite decide_True by done. simpl. split; [by left|lia].
  - rewrite decide_False by done. rewrite IH. split; [by right|].
    by intros [?|?].
Qed.

Lemma sum_bool_le (c : list bool) : sum_bool c ≤ Z.of_nat (length c).
Proof.
  unfold sum_bool. apply inj_le.
  induction c as [|b c IH]; [done|]. rewrite filter_cons.
  case_decide; simpl; lia.
Qed.

Lemma sum_bool_full (c : list bool) :
  sum_bool c = Z.of_nat (length c) ↔ ∀ b, b ∈ c → b = true.
Proof.
  induction c as [|b c IH]; [by split; [inversion 2|]|].
  pose proof (sum_bool_le c) as Hle. unfold sum_bool in *.
  rewrite filter_cons. destruct b.
  - rewrite decide_True by done. cbn [length]. split.
    + intros H b [->|Hb]%elem_of_cons; [done|]. apply IH; [lia|done].
    + intros H. rewrite !Nat2Z.inj_succ. f_equal. apply IH.
      intros b Hb. apply H. by right.
  - rewrite decide_False by done. cbn [length]. split; [lia|].
    intros H. by specialize (H false (list_elem_of_here _ _)).
Qed.

Lemma take_at_range d key (m : list bool) (P : list Z) :
  d !! key = Some (BoolArr m) →
  Forall (λ p, 0 ≤ p < Z.of_nat (length m)) P →
  take_at m P = Some (column d P key).
Proof.
  intros Hkey. induction P as [|p P IH]; intros HP; [done|].
  inversion HP as [|?? Hp HP']; subst. cbn [take_at column map].
  unfold norm_index. rewrite decide_True by done.
  destruct (lookup_lt_is_Some_2 m (Z.to_nat p)) as [b Hb]; [lia|].
  rewrite Hb, (IH HP'). do 2 f_equal. unfold mask_entry.
  by rewrite Hkey, Hb.
Qed.

(** The loop of [_get_labels] that fills [arr], one column per label. *)
Lemma columns_loop d N (P : list Z) (labels : list string) :
  (∀ key, key ∈ labels → ∃ m, d !! key = Some (BoolArr m) ∧ length m = N) →
  Forall (λ p, 0 ≤ p < Z.of_nat N) P →
  ∀ arr st, self st = d →
    for_each labels
      (λ arr item,
         col <- __getitem__ item ;;
         match take_at (truth col) P with
         | Some c => ret (arr ++ [c])%list
         | None => raise IndexError
         end)
      arr st = (Ok (arr ++ map (column d P) labels)%list, st).
Proof.
  intros Hlabels HP. induction labels as [|key labels IH]; intros arr st Hst.
  { cbn. by rewrite app_nil_r. }
  destruct (Hlabels key) as (m & Hm & Hlen); [by left|].
  cbn [for_each]. unfold bind at 1. unfold bind at 1, __getitem__ at 1.
  rewrite Hst, Hm. cbn [truth].
  rewrite (take_at_range d key) by (by rewrite ?Hlen).
  unfold ret at 1. rewrite IH; [|intros k Hk; apply Hlabels; by right|done].
  by rewrite <- app_assoc.
Qed.

Lemma select_columns (f : list bool → bool) d P (labels : list string) :
  select labels (map f (map (column d P) labels)) =
  filter (λ key, f (column d P key) = true) labels.
Proof. rewrite map_map. apply (select_map (λ key, f (column d P key))). Qed.

Lemma mask_entry_true d key p :
  mask_entry d key p = true ↔
  ∃ m, d !! key = Some (BoolArr m) ∧ m !! Z.to_nat p = Some true.
Proof.
  unfold mask_entry. destruct (d !! key) as [[m|?]|] eqn:Hd.
  - destruct (m !! Z.to_nat p) as [b|] eqn:Hb; simpl.
    + split; [intros ->; by exists m|]. intros (m' & [= <-] & Hm').
      congruence.
    + split; [done|]. intros (m' & [= <-] & Hm'). congruence.
  - split; [done|]. by intros (m' & [=] & _).
  - split; [done|]. by intros (m' & [=] & _).
Qed.

Lemma elem_of_column d P key :
  true ∈ column d P key ↔
  ∃ p, p ∈ P ∧ ∃ m, d !! key = Some (BoolArr m) ∧ m !! Z.to_nat p = Some true.
Proof.
  unfold column. rewrite list_elem_of_fmap. split.
  - intros (p & Hp & Hin). exists p. split; [done|].
    by apply mask_entry_true.
  - intros (p & Hin & Hp). exists p. split; [|done].
    symmetry. by apply mask_entry_true.
Qed.

Lemma column_all_true d P key :
  (∀ b, b ∈ column d P key → b = true) ↔
  ∀ p, p ∈ P → ∃ m, d !! key = Some (BoolArr m) ∧ m !! Z.to_nat p = Some true.
Proof.
  unfold column. split.
  - intros H p Hp. apply mask_entry_true, H.
    apply list_elem_of_fmap. by exists p.
  - intros H b (p & -> & Hp)%list_elem_of_fmap.
    apply mask_entry_true. by apply H.
Qed.

(** X18.  For a non-empty list of locations in [0, N) of an element
    whose labels are masks over its [N] locations, [labels] returns in
    mode 'union' the labels of the element that are true at one of the
    locations at least, in mode 'intersection' those true at every
    location, and in mode 'not' the labels of the element that are not
    true at every location. *)
Theorem labels_of_locations (st : state) (element : string) (N : nat)
    (P : list Z) :
  element ∈ ["pore"; "throat"] →
  (∀ key m, self st !! key = Some (BoolArr m) →
            PyStr.head_component key = element → length m = N) →
  P ≠ [] →
  Forall (λ p, 0 ≤ p < Z.of_nat N) P →
  let query mode :=
    fst (labels_of
           (if decide (element = "pore") then IntArr P else IntArr [])
           (if decide (element = "pore") then IntArr [] else IntArr P)
           PyNone (PyStr mode) st) in
  ∃ U A T,
    query "union" = Ok (Names U) ∧
    query "intersection" = Ok (Names A) ∧
    query "not" = Ok (Names T) ∧
    ∀ key,
      (key ∈ U ↔ label_key st element key ∧ ∃ p, p ∈ P ∧ key_true st key p) ∧
      (key ∈ A ↔ label_key st element key ∧ ∀ p, p ∈ P → key_true st key p) ∧
      (key ∈ T ↔ label_key st element key ∧
                 ¬ ∀ p, p ∈ P → key_true st key p).
Proof.
  intros He HN HP Hrange query.
  set (labels := merge_sort String.le
         (filter (λ k, is_bool (self st) k = true)
            (filter (λ k, PyStr.head_component k ∈ [element])
               (map_to_list (self st)).*1))).
  assert (∀ key, key ∈ labels ↔ label_key st element key) as Hlabels.
  { intros key. subst labels. rewrite merge_sort_Permutation.
    rewrite !list_elem_of_filter, elem_of_keys, list_elem_of_singleton.
    unfold label_key, is_bool. split.
    - intros (Hb & Hh & [a Ha]). split; [done|]. rewrite Ha in Hb.
      destruct a as [m|]; [by exists m|done].
    - intros (Hh & m & Hm). rewrite Hm. by split_and!. }
  assert (∀ mode f,
            mode ∈ ["none"; "union"; "intersection"; "not"; "count"; "mask";
                    "difference"] →
            (∀ arr : list (list bool),
               (if mem mode ["count"] then
                  ret (Counts (map (λ i, sum_bool
                                 (map (λ c, default false (c !! i)) arr))
                                 (seq 0 (length P))))
                else if mem mode ["union"] then
                  ret (Names (select labels (map (λ c, 0 <? sum_bool c) arr)))
                else if mem mode ["intersection"] then
                  ret (Names (select labels
                         (map (λ c, sum_bool c =? Z.of_nat (length P)) arr)))
                else if mem mode ["not"; "difference"] then
                  ret (Names (select labels
                         (map (λ c, negb (sum_bool c =? Z.of_nat (length P)))
                            arr)))
                else if mem mode ["mask"] then
                  ret (Mask (map (λ i, map (λ c, default false (c !! i)) arr)
                               (seq 0 (length P))))
                else if mem mode ["none"] then
                  ret (PerLocation
                         (map (λ i, select labels
                                 (map (λ c, default false (c !! i)) arr))
                            (seq 0 (length P))))
                else log ERROR ("unrecognized mode:" +:+ mode) ;;; ret NoValue)
               st = (Ok (Names (select labels (map f arr))), st)) →
            query mode =
            Ok (Names (filter (λ key, f (column (self st) P key) = true)
                         labels))) as Hquery.
  { intros mode f Hmode Hf. subst query. cbv beta.
    assert (labels_of
              (if decide (element = "pore") then IntArr P else IntArr [])
              (if decide (element = "pore") then IntArr [] else IntArr P)
              PyNone (PyStr mode) st
            = _get_labels (PyStr element) (Some (IntArr P)) (PyStr mode) st)
      as ->.
    { unfold labels_of. destruct P as [|p P']; [done|].
      repeat (apply elem_of_cons in He as [->|He]); [| |by inversion He].
      - destruct (decide ("pore" = "pore")) as [_|?]; [|done].
        rewrite decide_False by (simpl; lia).
        rewrite decide_False by (simpl; lia).
        by rewrite decide_True by (simpl; lia).
      - destruct (decide ("throat" = "pore")) as [?|_]; [done|].
        rewrite decide_False by (simpl; lia).
        rewrite decide_False by (simpl; lia).
        rewrite decide_False by (simpl; lia).
        by rewrite decide_True by (simpl; lia). }
    unfold _get_labels. unfold bind at 1, _parse_indices at 1.
    change (default (IntArr []) (Some (IntArr P))) with (IntArr P).
    cbv iota. unfold ret at 1.
    rewrite parse_mode_single_allowed by done.
    unfold bind at 1, lift at 1.
    rewrite parse_element_element by done.
    unfold bind at 1, lift at 1. unfold bind at 1, keys at 1.
    unfold bind at 1, get_self at 1. fold labels.
    unfold bind at 1.
    rewrite (columns_loop (self st) N P labels); [| |done|done].
    - rewrite app_nil_l, Hf. by rewrite select_columns.
    - intros key (Hh & m & Hm)%Hlabels. exists m. split; [done|].
      by eapply HN. }
  eexists _, _, _. split_and!.
  - apply (Hquery "union" (λ c, 0 <? sum_bool c));
      [by apply (bool_decide_unpack _)|]. intros arr. by eval_mem.
  - apply (Hquery "intersection" (λ c, sum_bool c =? Z.of_nat (length P)));
      [by apply (bool_decide_unpack _)|]. intros arr. by eval_mem.
  - apply (Hquery "not" (λ c, negb (sum_bool c =? Z.of_nat (length P))));
      [by apply (bool_decide_unpack _)|]. intros arr. by eval_mem.
  - intros key. rewrite !list_elem_of_filter, !Hlabels.
    assert (length (column (self st) P key) = length P) as Hlen
      by (unfold column; apply length_map).
    unfold key_true. split_and!.
    + rewrite Z.ltb_lt, sum_bool_pos, elem_of_column. tauto.
    + rewrite Z.eqb_eq, <- Hlen, sum_bool_full, column_all_true. tauto.
    + rewrite negb_true_iff, Z.eqb_neq, <- Hlen, sum_bool_full,
        column_all_true. tauto.
Qed.

Lemma labels_of_locations_witness :
  let query mode :=
    fst (labels_of (IntArr [0; 1]) (IntArr []) PyNone (PyStr mode)
           labelled_store) in
  ∃ U A T,
    query "union" = Ok (Names U) ∧
    query "intersection" = Ok (Names A) ∧
    query "not" = Ok (Names T) ∧
    ∀ key,
      (key ∈ U ↔ label_key labelled_store "pore" key ∧
                 ∃ p, p ∈ [0; 1] ∧ key_true labelled_store key p) ∧
      (key ∈ A ↔ label_key labelled_store "pore" key ∧
                 ∀ p, p ∈ [0; 1] → key_true labelled_store key p) ∧
      (key ∈ T ↔ label_key labelled_store "pore" key ∧
                 ¬ ∀ p, p ∈ [0; 1] → key_true labelled_store key p).
Proof.
  apply (labels_of_locations labelled_store "pore" 3 [0; 1]).
  - by apply (bool_decide_unpack _).
  - intros key m Hkey Hhead. apply elem_of_map_to_list in Hkey.
    remember (map_to_list (self labelled_store)) as l eqn:Hl.
    vm_compute in Hl. subst l.
    repeat (apply elem_of_cons in Hkey as [Hkey|Hkey]);
      [injection Hkey as -> ->; try reflexivity; discriminate Hhead..
      |by inversion Hkey].
  - discriminate.
  - repeat constructor; simpl; lia.
Defined.

(** ** Wildcards that match *)

Lemma wildcard_matches label Ls :
  PyStr.startswith label "*" = true ∨ PyStr.endswith label "*" = true →
  wildcard label Ls None =
  Some (filter (λ L, label_matches label L = true) Ls).
Proof.
  intros Hwild. unfold wildcard, label_matches.
  destruct (PyStr.endswith label "*"); [done|].
  by destruct Hwild as [->|?].
Qed.

(** X19.  When every label of the element is stored under a key of two
    components as a mask over the [N] locations, a query in mode 'union'
    for a pattern that starts or ends with '*' returns the locations
    that carry a label of the element whose name the pattern selects: a
    pattern ending in '*' selects by the text before it, any other by the
    text after the leading '*'. *)
Theorem wildcard_union (st : state) (element pattern : string) (N : nat)
    (all : ndarray) :
  element ∈ ["pore"; "throat"] →
  self st !! (element +:+ ".all") = Some all →
  size all = N →
  PyStr.startswith (strip_element element pattern) "*" = true ∨
  PyStr.endswith (strip_element element pattern) "*" = true →
  (∀ key m, self st !! key = Some (BoolArr m) →
            PyStr.head_component key = element →
            key = element +:+ "." +:+ PyStr.last_component key ∧
            length m = N) →
  ∃ ind,
    fst (_get_indices (PyStr element) (PyStr pattern) (PyStr "union") st)
      = Ok ind ∧
    ∀ i, i ∈ ind ↔
         ∃ key, label_key st element key ∧
                label_matches (strip_element element pattern)
                  (PyStr.last_component key) = true ∧
                0 ≤ i ∧ key_true st key i.
Proof.
  intros He Hall HN Hwild Hkeys.
  set (label := strip_element element pattern) in *.
  set (L := filter (λ key, is_bool (self st) key = true)
              (filter (λ key, PyStr.head_component key = element)
                 (map_to_list (self st)).*1)).
  set (parsed := PyStr.remove_dupes
         (map (λ x, element +:+ "." +:+ x)
            (filter (λ x, label_matches label x = true)
               (map PyStr.last_component L)))).
  assert (∀ key, key ∈ L ↔ label_key st element key) as HL.
  { intros key. subst L.
    rewrite !list_elem_of_filter, elem_of_keys. unfold label_key, is_bool.
    split.
    - intros (Hb & Hh & [a Ha]). split; [done|]. rewrite Ha in Hb.
      destruct a as [m|]; [by exists m|done].
    - intros (Hh & m & Hm). rewrite Hm. by split_and!. }
  assert (∀ x, x ∈ parsed ↔
               ∃ key, label_key st element key ∧ x = key ∧
                      label_matches label (PyStr.last_component key) = true)
    as Hparsed.
  { intros x. subst parsed.
    rewrite remove_dupes_elem_of, list_elem_of_fmap. split.
    - intros (c & -> & Hc). apply list_elem_of_filter in Hc as [Hmatch Hc].
      apply list_elem_of_fmap in Hc as (key & -> & Hkey).
      apply HL in Hkey. exists key. split_and!; [done| |done].
      destruct Hkey as (Hh & m & Hm). symmetry. by eapply Hkeys.
    - intros (key & Hkey & -> & Hmatch). exists (PyStr.last_component key).
      split.
      + destruct Hkey as (Hh & m & Hm). by eapply Hkeys.
      + apply list_elem_of_filter. split; [done|].
        apply list_elem_of_fmap. exists key. split; [done|]. by apply HL. }
  assert (_parse_labels (PyStr pattern) element st = (Ok parsed, st))
    as Hparse.
  { unfold _parse_labels, parse_label. cbn [for_each]. fold label.
    assert (PyStr.contains "*" label = true) as ->.
    { destruct Hwild; [by apply startswith_contains|by apply endswith_contains]. }
    do 4 (unfold bind at 1). rewrite labels_element by done. fold L.
    by rewrite wildcard_matches. }
  assert (Forall (resolvable (self st) element N) parsed) as Hres.
  { apply Forall_forall. intros x Hx%list_elem_of_In.
    apply Hparsed in Hx as (key & (Hh & m & Hm) & -> & _).
    destruct (Hkeys key m Hm Hh) as [Hkey Hlen]. exists m.
    by rewrite <- Hkey. }
  assert (__getitem__ (element +:+ ".all") st = (Ok all, st)) as Hget.
  { unfold __getitem__. by rewrite Hall. }
  start_query Hparse Hall. eval_mem.
  unfold bind at 1. unfold bind at 1. rewrite Hget, HN.
  change (zeros N dt_bool) with (BoolArr (replicate N false)).
  destruct (union_loop (self st) element N parsed Hres (replicate N false) st)
    as (m & st2 & -> & Hst2 & Hm & Hk); [done|by rewrite length_replicate|].
  exists (where_ (BoolArr m)). split; [done|].
  intros i. rewrite elem_of_where, Hk. split.
  - intros [Hi [H|(item & Hitem & m' & Hm' & Htrue)]].
    { by apply lookup_replicate in H as [? _]. }
    apply Hparsed in Hitem as (key & Hkey & -> & Hmatch).
    exists key. split_and!; [done..|]. exists m'. split; [|done].
    destruct Hkey as (Hh & m0 & Hm0).
    destruct (Hkeys key m0 Hm0 Hh) as [Heq _]. by rewrite Heq.
  - intros (key & Hkey & Hmatch & Hi & m' & Hm' & Htrue). split; [done|].
    right. exists key. split; [apply Hparsed; by exists key|].
    exists m'. split; [|done].
    destruct Hkey as (Hh & _).
    destruct (Hkeys key m' Hm' Hh) as [Heq _]. by rewrite <- Heq.
Qed.

Lemma wildcard_union_witness :
  ∃ ind,
    fst (_get_indices (PyStr "pore") (PyStr "to*") (PyStr "union")
           labelled_store) = Ok ind ∧
    ∀ i, i ∈ ind ↔
         ∃ key, label_key labelled_store "pore" key ∧
                label_matches (strip_element "pore" "to*")
                  (PyStr.last_component key) = true ∧
                0 ≤ i ∧ key_true labelled_store key i.
Proof.
  apply (wildcard_union labelled_store "pore" "to*" 3 (ones 3 dt_bool)).
  - by apply (bool_decide_unpack _).
  - by vm_compute.
  - reflexivity.
  - right. reflexivity.
  - intros key m Hkey Hhead. apply elem_of_map_to_list in Hkey.
    remember (map_to_list (self labelled_store)) as l eqn:Hl.
    vm_compute in Hl. subst l.
    repeat (apply elem_of_cons in Hkey as [Hkey|Hkey]);
      [injection Hkey as -> ->; (split; reflexivity) || discriminate Hhead..
      |by inversion Hkey].
Defined.

(** ** Locations with exactly one of the labels *)

Lemma count_app {A} `{EqDecision A} (x : A) l l' :
  PyStr.count x (l ++ l') = (PyStr.count x l + PyStr.count x l')%nat.
Proof. unfold PyStr.count. by rewrite list.filter_app, length_app. Qed.

Lemma count_not_elem_of {A} `{EqDecision A} (x : A) l :
  x ∉ l → PyStr.count x l = 0%nat.
Proof.
  intros Hx. destruct (PyStr.count x l) eqn:Hc; [done|].
  destruct Hx. apply count_pos_elem_of. lia.
Qed.

Lemma count_NoDup {A} `{EqDecision A} (x : A) l :
  NoDup l → (PyStr.count x l ≤ 1)%nat.
Proof.
  induction 1 as [|y l Hy Hnd IH]; [unfold PyStr.count; simpl; lia|].
  rewrite count_cons.
  case_decide; [|done]. subst. rewrite count_not_elem_of by done. lia.
Qed.

Lemma remove_dupes_from_id {A} `{EqDecision A} fuel i (l : list A) :
  (∀ x, (PyStr.count x l ≤ 1)%nat) → PyStr.remove_dupes_from fuel i l = l.
Proof.
  intros Hc. revert i. induction fuel as [|fuel IH]; intros i; [done|].
  simpl. destruct (l !! i) as [L|]; [|done].
  rewrite decide_False by (specialize (Hc L); lia). apply IH.
Qed.

Lemma remove_first_app_r {A} `{EqDecision A} (y : A) l1 l2 :
  y ∉ l1 → PyStr.remove_first y (l1 ++ y :: l2) = (l1 ++ l2)%list.
Proof.
  intros Hy. induction l1 as [|x l1 IH]; simpl.
  - by rewrite decide_True.
  - rewrite decide_False by (intros ->; apply Hy; by left).
    f_equal. apply IH. intros ?. apply Hy. by right.
Qed.

(** The walk on a list without duplicates to which one of its items has
    been appended: the first copy is removed and nothing else. *)
Lemma remove_dupes_from_dup {A} `{EqDecision A} fuel i (l1 l2 : list A) y :
  NoDup (l1 ++ y :: l2) →
  (i ≤ length l1)%nat → (length l1 - i < fuel)%nat →
  PyStr.remove_dupes_from fuel i (l1 ++ y :: l2 ++ [y]) =
  (l1 ++ l2 ++ [y])%list.
Proof.
  intros Hnd. apply list.NoDup_app in Hnd as (Hnd1 & Hy1 & Hnd2).
  apply list.NoDup_cons in Hnd2 as [Hy2 Hnd2].
  assert (y ∉ l1) as Hyl1 by (intros Hin; apply (Hy1 y Hin); by left).
  assert (NoDup (l1 ++ l2 ++ [y])) as Hnd'.
  { apply list.NoDup_app. split_and!; [done| |].
    - intros x Hx [Hx2| ->%list_elem_of_singleton]%elem_of_app; [|done].
      apply (Hy1 x Hx). by right.
    - apply list.NoDup_app. split_and!; [done| |apply list.NoDup_singleton].
      by intros x Hx ->%list_elem_of_singleton. }
  revert i. induction fuel as [|fuel IH]; intros i Hi Hfuel; [lia|].
  cbn [PyStr.remove_dupes_from].
  destruct (decide (i = length l1)) as [->|Hne].
  - rewrite list_lookup_middle by done.
    rewrite decide_True.
    + rewrite remove_first_app_r by done.
      apply remove_dupes_from_id. intros x. by apply count_NoDup.
    + rewrite count_app, count_cons, decide_True, count_app by done.
      unfold PyStr.count at 3. rewrite filter_cons_True, filter_nil by done.
      simpl. lia.
  - destruct (lookup_lt_is_Some_2 l1 i) as [x Hx]; [lia|].
    rewrite lookup_app_l, Hx by lia.
    assert (x ∈ l1) as Hxin by (by eapply list_elem_of_lookup_2).
    assert (x ≠ y) as Hxy by (by intros ->).
    rewrite decide_False.
    + apply IH; lia.
    + rewrite count_app, count_cons, decide_False, count_app by done.
      pose proof (count_NoDup x l1 Hnd1).
      rewrite (count_not_elem_of x l2)
        by (intros Hx2; apply (Hy1 x Hxin); by right).
      rewrite (count_not_elem_of x [y])
        by (by intros ->%list_elem_of_singleton).
      lia.
Qed.

(** Appending one item to a list without duplicates and removing the
    duplicates leaves a list without duplicates. *)
Lemma remove_dupes_snoc_NoDup {A} `{EqDecision A} (l : list A) y :
  NoDup l → NoDup (PyStr.remove_dupes (l ++ [y])).
Proof.
  intros Hnd. destruct (decide (y ∈ l)) as [Hy|Hy].
  - apply list_elem_of_split in Hy as (l1 & l2 & ->).
    unfold PyStr.remove_dupes. rewrite <- app_assoc. cbn [app].
    rewrite remove_dupes_from_dup; [|done|lia|rewrite length_app; simpl; lia].
    apply list.NoDup_app in Hnd as (Hnd1 & Hy1 & Hnd2).
    apply list.NoDup_cons in Hnd2 as [Hy2 Hnd2].
    apply list.NoDup_app. split_and!; [done| |].
    + intros x Hx [Hx2| ->%list_elem_of_singleton]%elem_of_app.
      * apply (Hy1 x Hx). by right.
      * apply (Hy1 y Hx). by left.
    + apply list.NoDup_app. split_and!; [done| |apply list.NoDup_singleton].
      by intros x Hx ->%list_elem_of_singleton.
  - assert (NoDup (l ++ [y])) as Hnd'.
    { apply list.NoDup_app. split_and!; [done| |apply list.NoDup_singleton].
      by intros x Hx ->%list_elem_of_singleton. }
    unfold PyStr.remove_dupes. rewrite remove_dupes_from_id; [done|].
    intros x. by apply count_NoDup.
Qed.

Lemma parse_labels_loop_NoDup element labels_list :
  Forall (λ l, PyStr.contains "*" l = false) labels_list →
  ∀ parsed temp st, NoDup parsed →
    ∃ parsed' temp' st',
      for_each labels_list (parse_label element) (parsed, temp) st
        = (Ok (parsed', temp'), st') ∧ NoDup parsed'.
Proof.
  induction labels_list as [|label labels_list IH];
    intros Hstar parsed temp st Hnd.
  { by exists parsed, temp, st. }
  inversion Hstar as [|?? Hlabel Hstar']; subst.
  destruct (parse_label_plain st element parsed temp label Hlabel)
    as (st1 & Hstep & Hst1).
  destruct (IH Hstar'
              (PyStr.remove_dupes
                 (parsed ++ [element +:+ "." +:+ strip_element element label])%list)
              (Some [element +:+ "." +:+ strip_element element label]) st1)
    as (parsed' & temp' & st' & Hloop & Hnd').
  { by apply remove_dupes_snoc_NoDup. }
  exists parsed', temp', st'. split; [|done].
  cbn [for_each]. unfold bind. by rewrite Hstep.
Qed.

Lemma parse_labels_NoDup st st' element labels_arg labels_list parsed :
  as_list labels_arg = Ok labels_list →
  Forall (λ l, PyStr.contains "*" l = false) labels_list →
  _parse_labels labels_arg element st = (Ok parsed, st') →
  NoDup parsed.
Proof.
  intros Hl Hstar. unfold _parse_labels.
  assert (match labels_arg with
          | PyStr s => [s] | PyList l => l | PyNone => []
          end = labels_list) as ->.
  { destruct labels_arg; simpl in Hl; congruence. }
  destruct (parse_labels_loop_NoDup element labels_list Hstar [] None st)
    as (parsed' & temp' & st1 & Hloop & Hnd); [apply base.NoDup_nil_2|].
  destruct labels_arg as [|s|l]; [done| |]; unfold bind; rewrite Hloop;
    by intros [= <- _].
Qed.

(** The loop of mode 'not_intersection': the count kept for a position
    grows by one for every label that is true there. *)
Lemma count_loop d element N parsed :
  Forall (resolvable d element N) parsed →
  ∀ acc st1, self st1 = d → length acc = N →
    Forall (λ z, 0 ≤ z < 2 ^ 63 - Z.of_nat (length parsed)) acc →
    ∃ acc' st2,
      for_each parsed
        (λ not_intersect item,
           info <- __getitem__
                     (element +:+ "." +:+ PyStr.last_component item) ;;
           lift_np (add_int8 not_intersect info))
        acc st1 = (Ok acc', st2) ∧
      self st2 = d ∧ length acc' = N ∧
      ∀ k z, acc !! k = Some z →
             acc' !! k =
             Some (z + Z.of_nat (length (filter
                      (λ item, mask_entry d
                                 (element +:+ "." +:+ PyStr.last_component item)
                                 (Z.of_nat k) = true) parsed))).
Proof.
  induction parsed as [|item parsed IH]; intros Hres acc st1 Hst1 Hacc Hrange.
  { exists acc, st1. split_and!; [done..|]. intros k z Hz.
    by rewrite filter_nil, Z.add_0_r. }
  inversion Hres as [|?? (m' & Hm' & Hlen') Hres']; subst.
  set (acc1 := zip_with (λ p q, wrap64 (p + q)) acc (int8 (BoolArr m'))).
  assert (length acc1 = length acc) as Hlen1.
  { subst acc1. rewrite length_zip_with, length_int8_bool. lia. }
  assert (∀ k z, acc !! k = Some z →
            ∃ b, m' !! k = Some b ∧ acc1 !! k = Some (z + int_of_bool b))
    as Hstep.
  { intros k z Hz. destruct (m' !! k) as [b|] eqn:Hb.
    - exists b. split; [done|]. subst acc1. rewrite lookup_zip_with, Hz.
      simpl. rewrite list_lookup_fmap, Hb. simpl. f_equal.
      apply wrap64_id. rewrite Forall_forall in Hrange.
      pose proof (Hrange z (proj1 (list_elem_of_In _ _)
                   (list_elem_of_lookup_2 _ _ _ Hz))) as Hr.
      cbn [length] in Hr. unfold is_int64. destruct b; simpl; lia.
    - apply lookup_ge_None in Hb. apply lookup_lt_Some in Hz. lia. }
  destruct (IH Hres' acc1 st1) as (acc' & st2 & Hloop & Hst2 & Hlen & Hk);
    [done|congruence| |].
  { apply Forall_forall. intros z1 Hz1%list_elem_of_In.
    apply list_elem_of_lookup in Hz1 as [k Hk].
    assert (is_Some (acc !! k)) as [z Hz].
    { apply lookup_lt_is_Some. rewrite <- Hlen1. by eapply lookup_lt_Some. }
    destruct (Hstep k z Hz) as (b & Hb & Hacc1).
    assert (z1 = z + int_of_bool b) as -> by congruence.
    rewrite Forall_forall in Hrange.
    pose proof (Hrange z (proj1 (list_elem_of_In _ _)
                 (list_elem_of_lookup_2 _ _ _ Hz))) as Hr.
    cbn [length] in Hr. destruct b; simpl; lia. }
  exists acc', st2. split_and!; [|done|congruence|].
  - cbn [for_each]. unfold bind at 1. unfold bind at 1, __getitem__ at 1.
    rewrite Hm'. unfold add_int8, broadcast.
    rewrite decide_True by (rewrite length_int8_bool; congruence). exact Hloop.
  - intros k z Hz. destruct (Hstep k z Hz) as (b & Hb & Hacc1).
    rewrite (Hk k _ Hacc1). f_equal. rewrite filter_cons.
    assert (mask_entry (self st1)
              (element +:+ "." +:+ PyStr.last_component item) (Z.of_nat k)
            = b) as Hentry.
    { unfold mask_entry. by rewrite Hm', Nat2Z.id, Hb. }
    rewrite Hentry. destruct b.
    + rewrite decide_True by done. cbn [length int_of_bool]. lia.
    + rewrite decide_False by done. cbn [int_of_bool]. lia.
Qed.

Lemma filter_length_one {A} (P : A → Prop) `{∀ x, Decision (P x)} (l : list A) :
  NoDup l →
  length (filter P l) = 1%nat ↔
  ∃ x, x ∈ l ∧ P x ∧ ∀ y, y ∈ l → P y → y = x.
Proof.
  induction 1 as [|x l Hx Hnd IH].
  { split; [done|]. intros (x & Hin & _). by inversion Hin. }
  rewrite filter_cons. case_decide as HPx.
  - cbn [length]. split.
    + intros Hlen. exists x. split_and!; [by left|done|].
      intros y [ -> |Hy]%elem_of_cons HPy; [done|].
      assert (y ∈ filter P l) as Hf by (by apply list_elem_of_filter).
      destruct (filter P l); [by inversion Hf|done].
    + intros (x' & Hin & HPx' & Huniq). f_equal.
      destruct (filter P l) as [|y f] eqn:Hf; [done|].
      assert (y ∈ filter P l) as Hy by (rewrite Hf; by left).
      apply list_elem_of_filter in Hy as [HPy Hy].
      assert (y = x') as -> by (apply Huniq; [by right|done]).
      assert (x = x') as -> by (apply Huniq; [by left|done]). done.
  - rewrite IH. split.
    + intros (x' & Hin & HPx' & Huniq). exists x'. split_and!; [by right|done|].
      intros y [ -> |Hy]%elem_of_cons HPy; [done|]. by apply Huniq.
    + intros (x' & [ -> |Hin]%elem_of_cons & HPx' & Huniq); [done|].
      exists x'. split_and!; [done|done|]. intros y Hy. apply Huniq. by right.
Qed.

(** X20.  For plain labels (a name without dots, written alone or
    behind the element) whose keys hold masks over the [N] locations of
    the element, the mode 'not_intersection' returns the locations that
    carry exactly one of the labels, a label written with and without the
    element in front counting once. *)
Theorem query_exactly_one (st : state) (element : string) (N : nat)
    (all : ndarray) (labels_arg : pyarg) (labels_list : list string) :
  element ∈ ["pore"; "throat"] →
  self st !! (element +:+ ".all") = Some all →
  size all = N →
  as_list labels_arg = Ok labels_list →
  Forall (named_label st element N) labels_list →
  Z.of_nat (length labels_list) < 2 ^ 63 →
  ∃ ind,
    fst (_get_indices (PyStr element) labels_arg (PyStr "not_intersection") st)
      = Ok ind ∧
    ∀ i, i ∈ ind ↔
         ∃ l, l ∈ labels_list ∧ has_label st element l i ∧
              ∀ l', l' ∈ labels_list → has_label st element l' i →
                    key_of_label element l' = key_of_label element l.
Proof.
  intros He Hall HN Hl Hnamed Hbound.
  pose proof (named_labels_existing st element N labels_list He Hnamed) as Hex.
  assert (∀ l, l ∈ labels_list →
            element +:+ "." +:+ strip_element element l
            = key_of_label element l) as Hkey.
  { intros l Hin. rewrite Forall_forall in Hnamed.
    destruct (Hnamed l (proj1 (list_elem_of_In _ _) Hin)) as (_ & Hplain & _).
    apply (key_of_plain_label element l He Hplain). }
  assert (Forall (λ l, PyStr.contains "*" l = false) labels_list) as Hstar.
  { eapply Forall_impl; [|exact Hex]. by intros l [? _]. }
  destruct (parse_labels_spec st element labels_arg labels_list Hl Hstar)
    as (parsed & st1 & Hparse & Hst1 & Hlen & Hmem).
  pose proof (parse_labels_NoDup st st1 element labels_arg labels_list parsed
                Hl Hstar Hparse) as Hnd.
  pose proof (existing_labels_resolvable st element N labels_list parsed
                He Hex Hmem) as Hres.
  assert (self st1 !! (element +:+ ".all") = Some all) as Hall1
    by (by rewrite Hst1).
  assert (__getitem__ (element +:+ ".all") st1 = (Ok all, st1)) as Hget.
  { unfold __getitem__. by rewrite Hall1. }
  start_query Hparse Hall1. eval_mem.
  unfold bind at 1. unfold bind at 1. rewrite Hget, HN. unfold bind at 1.
  destruct (count_loop (self st) element N parsed Hres (replicate N 0) st1)
    as (acc & st2 & -> & Hst2 & Hacc & Hk); [done|by rewrite length_replicate| |].
  { apply Forall_forall. intros z ->%list_elem_of_In%elem_of_replicate_inv.
    lia. }
  eexists. split; [done|]. intros i.
  rewrite elem_of_where. unfold eq_scalar. rewrite list_lookup_fmap.
  set (holds := λ item,
         mask_entry (self st) (element +:+ "." +:+ PyStr.last_component item)
           (Z.of_nat (Z.to_nat i)) = true).
  assert (∀ l, l ∈ labels_list → 0 ≤ i →
            (holds (element +:+ "." +:+ strip_element element l) ↔
             has_label st element l i)) as Hholds.
  { intros l Hin Hi.
    rewrite (has_label_item st element N labels_list l i He Hnamed Hin).
    unfold holds, item_true.
    rewrite last_component_parsed, mask_entry_true, Z2Nat.id by done.
    tauto. }
  assert (0 ≤ i →
          (length (filter holds parsed) = 1%nat ↔
           ∃ l, l ∈ labels_list ∧ has_label st element l i ∧
                ∀ l', l' ∈ labels_list → has_label st element l' i →
                      key_of_label element l' = key_of_label element l))
    as Hone.
  { intros Hi. rewrite (filter_length_one holds parsed Hnd). split.
    - intros (x & (l & Hin & ->)%Hmem & Hx & Huniq). exists l.
      split_and!; [done|by apply Hholds|].
      intros l' Hin' Hl'. rewrite <- !Hkey by done.
      apply Huniq; [apply Hmem; by exists l'|by apply Hholds].
    - intros (l & Hin & Hhas & Huniq).
      exists (element +:+ "." +:+ strip_element element l).
      split_and!; [apply Hmem; by exists l|by apply Hholds|].
      intros y (l' & Hin' & ->)%Hmem Hy. rewrite !Hkey by done.
      apply Huniq; [done|by apply Hholds]. }
  destruct (decide (0 ≤ i)) as [Hi|Hi].
  - rewrite <- (Hone Hi). clear Hone.
    destruct (decide (Z.to_nat i < N)%nat) as [HiN|HiN].
    + rewrite (Hk (Z.to_nat i) 0) by (by apply lookup_replicate).
      simpl. fold holds. rewrite Z.add_0_l. split.
      * intros [_ [= Heq%Z.eqb_eq]]. lia.
      * intros Heq. split; [done|]. f_equal. apply Z.eqb_eq. lia.
    + rewrite (lookup_ge_None_2 acc) by lia. simpl. split; [by intros [_ ?]|].
      intros Hlen1. exfalso.
      apply (filter_length_one holds parsed Hnd) in Hlen1
        as (x & Hx & Hhold & _).
      rewrite Forall_forall in Hres.
      destruct (Hres x (proj1 (list_elem_of_In _ _) Hx)) as (m & Hm & Hlm).
      unfold holds, mask_entry in Hhold. rewrite Hm, Nat2Z.id in Hhold.
      rewrite (lookup_ge_None_2 m) in Hhold by lia. done.
  - split; [by intros [? _]|]. intros (l & _ & [? _] & _). done.
Qed.

Lemma query_exactly_one_witness :
  ∃ ind,
    fst (_get_indices (PyStr "pore") (PyList ["top"; "pore.left"; "pore.top"])
           (PyStr "not_intersection") labelled_store) = Ok ind ∧
    ∀ i, i ∈ ind ↔
         ∃ l, l ∈ ["top"; "pore.left"; "pore.top"] ∧
              has_label labelled_store "pore" l i ∧
              ∀ l', l' ∈ ["top"; "pore.left"; "pore.top"] →
                    has_label labelled_store "pore" l' i →
                    key_of_label "pore" l' = key_of_label "pore" l.
Proof.
  apply (query_exactly_one labelled_store "pore" 3 (ones 3 dt_bool)
           (PyList ["top"; "pore.left"; "pore.top"])
           ["top"; "pore.left"; "pore.top"]).
  - by apply (bool_decide_unpack _).
  - by vm_compute.
  - reflexivity.
  - reflexivity.
  - repeat constructor; try reflexivity.
    + exists "top". split; [reflexivity|by left].
    + exists [true; false; true]. split; [by vm_compute|reflexivity].
    + exists "left". split; [reflexivity|by right].
    + exists [true; true; false]. split; [by vm_compute|reflexivity].
    + exists "top". split; [reflexivity|by right].
    + exists [true; false; true]. split; [by vm_compute|reflexivity].
  - simpl. lia.
Defined.

(** * Further properties of the conductance model *)

Module Conductance.
Import Physics.

(** X21.  For a known transport type and areas, lengths, diffusivities
    and shape factors whose sign bit is clear, [generic_conductance]
    returns, and the conductance it returns has its sign bit clear: it is
    a zero, a positive number, plus infinity or NaN, never a negative
    value. *)
Theorem generic_conductance_nonneg (t : transport_type) (c : conduit) :
  t ≠ unknown →
  (∀ s, nonneg (area c s) = true ∧ nonneg (conduit_length c s) = true ∧
        nonneg (diffusivity c s) = true) →
  (∀ s, nonneg (shape_factor c s) = true) →
  ∃ g flag, generic_conductance t c = Returns g flag ∧ nonneg g = true.
Proof.
  intros Ht Hc Hsf. rewrite Conduit.generic_conductance_resistances by done.
  pose proof (λ s, Conduit.resistance_nonneg t c s Hc (Hsf s)) as Hr.
  pose proof (Hr throat) as Hrt. pose proof (Hr pore1) as Hr1.
  pose proof (Hr pore2) as Hr2. unfold returns, bind.
  destruct (resistance t c throat) as [rt frt].
  destruct (resistance t c pore1) as [r1 fr1].
  destruct (resistance t c pore2) as [r2 fr2]. cbn [fst] in *.
  pose proof (Conduit.fdiv_nonneg f1 (fadd (fadd rt r1) r2) eq_refl
                (Conduit.fadd_nonneg _ _ (Conduit.fadd_nonneg _ _ Hrt Hr1) Hr2))
    as Hg.
  destruct (fdiv f1 (fadd (fadd rt r1) r2)) as [g fg]. cbn [fst snd] in *.
  by eexists _, _.
Qed.

Lemma generic_conductance_nonneg_witness :
  ∃ g flag,
    generic_conductance taylor_aris_diffusion (uniform f1 f4 f1 f8 zero)
      = Returns g flag ∧
    nonneg g = true.
Proof.
  apply (generic_conductance_nonneg taylor_aris_diffusion
           (uniform f1 f4 f1 f8 zero)).
  - discriminate.
  - intros s. by destruct s.
  - intros s. reflexivity.
Defined.

End Conductance.

(** * File names of the VTK reader and writer *)

Lemma string_length_app (s t : string) :
  String.length (s +:+ t) = (String.length s + String.length t)%nat.
Proof. induction s as [|c s IH]; [done|]. simpl. by rewrite IH. Qed.

Lemma string_app_inv_tail (t s1 s2 : string) :
  s1 +:+ t = s2 +:+ t → s1 = s2.
Proof.
  revert s2. induction s1 as [|c s1 IH]; intros [|d s2] H.
  - done.
  - apply (f_equal String.length) in H.
    change (EmptyString +:+ t) with t in H.
    rewrite string_length_app in H. simpl in H. lia.
  - apply (f_equal String.length) in H.
    change (EmptyString +:+ t) with t in H.
    rewrite string_length_app in H. simpl in H. lia.
  - injection H as -> H. f_equal. by apply IH.
Qed.

Lemma before_last_shorter sep s h :
  PyStr.before_last sep s = Some h → (String.length h < String.length s)%nat.
Proof.
  revert h. induction s as [|c s IH]; intros h; [done|]. simpl.
  destruct (PyStr.before_last sep s) as [h'|].
  - intros [= <-]. simpl. specialize (IH h' eq_refl). lia.
  - destruct (Ascii.eqb c sep); [|done]. intros H. simplify_eq. simpl. lia.
Qed.

Lemma before_last_vtp s :
  PyStr.before_last "." (s +:+ ".vtp") = Some s.
Proof. induction s as [|c s IH]; [done|]. simpl. by rewrite IH. Qed.

(** X22.  [VTK.save] appends '.vtp' to every file name it is given, also
    to one that already ends in '.vtp'; [VTK.load] given the name of the
    written file opens that file; and [load(filename)] opens the file
    that [save(filename)] wrote exactly when the name has no '.'. *)
Theorem vtk_file_names (filename network_name : string) :
  filename ≠ EmptyString →
  VTK.save_filename filename network_name = filename +:+ ".vtp" ∧
  VTK.load_filename (VTK.save_filename filename network_name)
    = VTK.save_filename filename network_name ∧
  (VTK.load_filename filename = VTK.save_filename filename network_name ↔
   PyStr.contains "." filename = false).
Proof.
  intros Hne.
  assert (VTK.save_filename filename network_name = filename +:+ ".vtp")
    as Hsave.
  { unfold VTK.save_filename.
    rewrite (proj2 (String.eqb_neq _ _) Hne).
    by destruct (PyStr.endswith filename ".vtp"). }
  rewrite Hsave. split_and!; [done| |].
  - unfold VTK.load_filename, PyStr.rsplit1_head.
    by rewrite before_last_vtp.
  - unfold VTK.load_filename, PyStr.rsplit1_head. split.
    + intros H%string_app_inv_tail. apply before_last_None.
      destruct (PyStr.before_last "." filename) as [h|] eqn:Hh; [|done].
      simpl in H. subst h. apply before_last_shorter in Hh. lia.
    + intros H%before_last_None. by rewrite H.
Qed.

Lemma vtk_file_names_witness :
  VTK.save_filename "net.vtp" "net" = "net.vtp.vtp" ∧
  VTK.load_filename (VTK.save_filename "net.vtp" "net")
    = VTK.save_filename "net.vtp" "net" ∧
  (VTK.load_filename "net.vtp" = VTK.save_filename "net.vtp" "net" ↔
   PyStr.contains "." "net.vtp" = false).
Proof.
  apply (vtk_file_names "net.vtp" "net"). discriminate.
Defined.
